(** * bindiff: the delta pipeline (diff, optimize, apply, patch codec)

    A shallow embedding of the Go package [core] (differ, optimizer, applier,
    operation-stream and container codec) and of the [apply] command's
    integrity gate, together with the properties the specification states
    about them.

    Conventions of the embedding.
    - A Go [[]byte] is a [list byte]; [len] is [len], a [Z].
    - The target is a 64-bit platform: [int] and [int64] are 64-bit two's
      complement.  Arithmetic on the [Offset] and [Length] fields of an
      operation (which come from untrusted patch bytes) wraps, and the wrap is
      written out with [wrap64].  Loop indices bounded by a slice length
      ([i], [start], [minLen]) are kept as [nat]: the language bounds [len] by
      the largest [int], so their conversion to [int64] is exact.
    - A call either returns or stops with a run-time panic; loops whose
      termination is not structural carry fuel.  [Outcome] records the three
      cases.
    - Logging and the progress bar do not influence any returned value and
      are left out.
    - A [float64] is a primitive [float] (IEEE 754 binary64, round to
      nearest even); a [complex128] is a pair of them.  The functions of the
      packages [math] and [math/cmplx] that the FFT calls are parameters.
    - An allocation within the bound of the run-time system ([maxAlloc])
      is taken to succeed. *)

From Stdlib Require Import ZArith List Lia Bool.
From Stdlib Require Import Strings.Byte.
From Stdlib Require Strings.String.
From Stdlib Require Import Floats.
From Stdlib Require Uint63.
Import String.StringSyntax.
Import ListNotations.
Delimit Scope string_scope with string.
Local Open Scope Z_scope.

(* ================================================================== *)
(** * Run-time model *)

Inductive PanicKind : Type :=
| SliceBoundsOutOfRange   (* s[lo:hi] with lo < 0, lo > hi or hi > len s *)
| IndexOutOfRange         (* s[i] with i < 0 or i >= len s *)
| MakeSliceLenOutOfRange  (* make([]T, n) with n < 0 or n elements past the largest block *)
| MakeSliceCapOutOfRange  (* make([]T, n, m) with m < n or m elements past the largest block *)
| ExplicitPanic.          (* a call of panic(...) in the source *)

Inductive Outcome (A : Type) : Type :=
| Ret (a : A)
| Panic (k : PanicKind)
| OutOfFuel.

Arguments Ret {A} a.
Arguments Panic {A} k.
Arguments OutOfFuel {A}.

Definition bind {A B : Type} (m : Outcome A) (f : A -> Outcome B) : Outcome B :=
  match m with
  | Ret a => f a
  | Panic k => Panic k
  | OutOfFuel => OutOfFuel
  end.

Notation "x <- m ;; k" := (bind m (fun x => k))
  (at level 61, m at next level, right associativity).
Notation "' pat <- m ;; k" := (bind m (fun x => match x with pat => k end))
  (at level 61, pat pattern, m at next level, right associativity).

(** Errors of package [io] that the readers below return. *)
Inductive error : Type :=
| EOF
| ErrUnexpectedEOF.

(** ** Machine integers *)

Definition wrap64 (z : Z) : Z := (z + 2 ^ 63) mod 2 ^ 64 - 2 ^ 63.
Definition wrap32 (z : Z) : Z := (z + 2 ^ 31) mod 2 ^ 32 - 2 ^ 31.
Definition uint32 (z : Z) : Z := z mod 2 ^ 32.
Definition uint64 (z : Z) : Z := z mod 2 ^ 64.

Definition in_int64 (z : Z) : Prop := - 2 ^ 63 <= z < 2 ^ 63.

(** The largest block the run-time system allocates, in bytes: [makeslice]
    panics when the elements asked for take more.  The value is that of the
    64-bit platforms with 48 address bits (linux, darwin and windows on
    amd64 and arm64). *)
Definition maxAlloc : Z := 2 ^ 48.

(** ** Bytes and slices *)

Definition byte_to_Z (b : byte) : Z := Z.of_N (Byte.to_N b).

Definition byte_of_Z (z : Z) : byte :=
  match Byte.of_N (Z.to_N (z mod 256)) with
  | Some b => b
  | None => x00
  end.

Definition len {A : Type} (s : list A) : Z := Z.of_nat (length s).

(** [s[lo:hi]]; the capacity of [s] is taken to be its length. *)
Definition slice (s : list byte) (lo hi : Z) : Outcome (list byte) :=
  if (0 <=? lo) && (lo <=? hi) && (hi <=? len s)
  then Ret (firstn (Z.to_nat (hi - lo)) (skipn (Z.to_nat lo) s))
  else Panic SliceBoundsOutOfRange.

(** [s[i]] under a loop guard [i < len s]. *)
Definition at_index (s : list byte) (i : nat) : byte := nth i s x00.

(** [make([]byte, 0, m)]: [makeslice] panics for a negative capacity and
    for one past [maxAlloc]; below that the block is taken to be there
    (the exhaustion of memory ends the process, it is not a panic). *)
Definition make_empty_with_cap (m : Z) : Outcome (list byte) :=
  if (m <? 0) || (m >? maxAlloc) then Panic MakeSliceCapOutOfRange else Ret [].

(** ** Little-endian fixed-width integers ([encoding/binary]) *)

Fixpoint le_encode (width : nat) (z : Z) : list byte :=
  match width with
  | O => []
  | S w => byte_of_Z z :: le_encode w (z / 256)
  end.

Fixpoint le_decode (bs : list byte) : Z :=
  match bs with
  | [] => 0
  | b :: tl => byte_to_Z b + 256 * le_decode tl
  end.

Definition put_uint32 (z : Z) : list byte := le_encode 4 (uint32 z).
Definition put_int32 (z : Z) : list byte := le_encode 4 (uint32 z).
Definition put_int64 (z : Z) : list byte := le_encode 8 (uint64 z).

(** ** [bytes.Reader]: the state is the unread suffix *)

Definition Reader : Type := list byte.

(** [io.ReadFull(r, buf)] for a buffer of [n] bytes: the bytes stored, the
    reader afterwards and the error.  A short reader is drained. *)
Definition ReadFull (r : Reader) (n : nat) : list byte * Reader * option error :=
  match n with
  | O => ([], r, None)
  | _ =>
      if (n <=? length r)%nat then (firstn n r, skipn n r, None)
      else (r, [], Some (match r with [] => EOF | _ => ErrUnexpectedEOF end))
  end.

(** [binary.Read(r, binary.LittleEndian, &v)] for a [width]-byte unsigned
    field: on a short read the error is returned and [v] is not assigned. *)
Definition binary_Read (r : Reader) (width : nat) : (Z + error) * Reader :=
  match ReadFull r width with
  | (bs, r', None) => (inl (le_decode bs), r')
  | (_, r', Some e) => (inr e, r')
  end.

(** The same call with the error dropped and [v] zero before it. *)
Definition binary_Read_ignore (r : Reader) (width : nat) : Z * Reader :=
  match binary_Read r width with
  | (inl v, r') => (v, r')
  | (inr _, r') => (0, r')
  end.

(** The buffer after [buf := make([]byte, n); io.ReadFull(r, buf)] when the
    error is ignored: what could be read, zero-filled to [n] bytes. *)
Definition fill_buffer (r : Reader) (n : nat) : list byte * Reader :=
  match ReadFull r n with
  | (bs, r', _) => (bs ++ repeat x00 (n - length bs), r')
  end.

(* ================================================================== *)
(** * Data model (package [types]) *)

Module types.

Definition PATCH_MAGIC : Z := 0x42444646.
Definition PATCH_VERSION : Z := 1.

(** [type Operator uint8] *)
Definition Operator : Type := byte.

Definition OP_COPY : Operator := x01.
Definition OP_INSERT : Operator := x02.
Definition OP_REPLACE : Operator := x03.
Definition OP_MATCH : Operator := x04.
Definition OP_DELETE : Operator := x05.

Record Patch : Type := mkPatch {
  Op : Operator;
  Offset : Z;        (* int64 *)
  Length : Z;        (* int64 *)
  Data : list byte
}.

Record DiffFile : Type := mkDiffFile {
  MagicNumber : Z;          (* uint32 *)
  Version : Z;              (* uint32 *)
  OldFileNameLength : Z;    (* uint32 *)
  FileName : list byte;
  NewFileNameLength : Z;    (* uint32 *)
  NewFileName : list byte;
  OldSize : Z;              (* uint32 *)
  NewSize : Z;              (* uint32 *)
  OldHash : list byte;
  NewHash : list byte;
  ShiftOffset : Z;          (* int32, field [Offset] of the Go struct *)
  DataLength : Z;           (* uint32 *)
  Diff : list Patch
}.

End types.
Import types.

Definition carries_data (op : Operator) : bool :=
  Byte.eqb op OP_INSERT || Byte.eqb op OP_REPLACE.

(* ================================================================== *)
(** * Codec *)

Definition encode_entry (entry : Patch) : list byte :=
  [Op entry] ++ put_int64 (Offset entry) ++ put_int64 (Length entry)
  ++ (if carries_data (Op entry) then Data entry else []).

Definition EncodePatch (p : list Patch) : list byte :=
  flat_map encode_entry p.

(** One turn of the loop of [DecodePatch], entered with [r.Len() > 0].
    The result is either the reader and the operation appended, or the
    error the function returns with.  [make([]byte, length)] panics on a
    negative [length] and on one past [maxAlloc]. *)
Definition decode_entry (r : Reader) : Outcome (Reader * Patch + error) :=
  match r with
  | [] => Ret (inr EOF)                       (* r.ReadByte() on an empty reader *)
  | opByte :: r1 =>
      let op : Operator := opByte in
      match binary_Read r1 8 with
      | (inr e, _) => Ret (inr e)
      | (inl uoff, r2) =>
          let offset := wrap64 uoff in
          match binary_Read r2 8 with
          | (inr e, _) => Ret (inr e)
          | (inl ulen, r3) =>
              let length := wrap64 ulen in
              if carries_data op then
                if (length <? 0) || (length >? maxAlloc)
                then Panic MakeSliceLenOutOfRange            (* make([]byte, length) *)
                else
                  match ReadFull r3 (Z.to_nat length) with
                  | (_, _, Some e) => Ret (inr e)
                  | (data, r4, None) => Ret (inl (r4, mkPatch op offset length data))
                  end
              else Ret (inl (r3, mkPatch op offset length []))
          end
      end
  end.

Fixpoint decode_loop (fuel : nat) (r : Reader) (p : list Patch)
  : Outcome (list Patch * option error) :=
  match r with
  | [] => Ret (p, None)
  | _ :: _ =>
      match fuel with
      | O => OutOfFuel
      | S fuel' =>
          res <- decode_entry r ;;
          match res with
          | inr e => Ret (p, Some e)
          | inl (r', entry) => decode_loop fuel' r' (p ++ [entry])
          end
      end
  end.

(** Every turn consumes at least the operation byte, so [length b] turns
    are enough (lemma [DecodePatch_fuel]). *)
Definition DecodePatch (b : list byte) : Outcome (list Patch * option error) :=
  decode_loop (length b) b [].

Definition EncodeDiffFile (df : DiffFile) : list byte :=
  put_uint32 (MagicNumber df)
  ++ put_uint32 (Version df)
  ++ put_uint32 (OldFileNameLength df)
  ++ FileName df
  ++ put_uint32 (NewFileNameLength df)
  ++ NewFileName df
  ++ put_uint32 (OldSize df)
  ++ put_uint32 (NewSize df)
  ++ OldHash df
  ++ NewHash df
  ++ put_int32 (ShiftOffset df)
  ++ (let diffBytes := EncodePatch (Diff df) in
      put_uint32 (uint32 (len diffBytes)) ++ diffBytes).

(** No read of the header is checked: a field that cannot be read keeps its
    zero value, and neither the magic number nor the version is compared
    with anything. *)
Definition DecodeDiffFile (data : list byte) : Outcome (DiffFile * option error) :=
  let r := data in
  let '(magic, r) := binary_Read_ignore r 4 in
  let '(version, r) := binary_Read_ignore r 4 in
  let '(oldNameLen, r) := binary_Read_ignore r 4 in
  let '(fileName, r) := fill_buffer r (Z.to_nat oldNameLen) in
  let '(newNameLen, r) := binary_Read_ignore r 4 in
  let '(newFileName, r) := fill_buffer r (Z.to_nat newNameLen) in
  let '(oldSize, r) := binary_Read_ignore r 4 in
  let '(newSize, r) := binary_Read_ignore r 4 in
  let '(oldHash, r) := fill_buffer r 32 in
  let '(newHash, r) := fill_buffer r 32 in
  let '(shift, r) := binary_Read_ignore r 4 in
  let '(dataLength, r) := binary_Read_ignore r 4 in
  let '(diffData, _) := fill_buffer r (Z.to_nat dataLength) in
  let df := mkDiffFile magic version oldNameLen fileName newNameLen newFileName
              oldSize newSize oldHash newHash (wrap32 shift) dataLength [] in
  '(patch, err) <- DecodePatch diffData ;;
  match err with
  | Some e => Ret (df, Some e)
  | None =>
      Ret (mkDiffFile magic version oldNameLen fileName newNameLen newFileName
             oldSize newSize oldHash newHash (wrap32 shift) dataLength patch, None)
  end.

(* ================================================================== *)
(** * Configuration and cancellation *)

Record Config : Type := mkConfig {
  BlockSize : Z;
  MinMatchLength : Z;
  MaxMemoryMB : Z;
  MaxWorkers : Z;
  EnableFFT : bool;
  UseParallel : bool
}.

Definition DefaultConfig : Config :=
  mkConfig 1024 64 512 4 true true.

(** The cancellation handle as a call observes it: [context.Background()],
    whose [Done] channel never closes, or a context that is already
    cancelled when the call starts.  A deadline that expires in the middle
    of a call is a matter of real time and has no counterpart here. *)
Inductive Context : Type :=
| Background
| Cancelled.

Definition ctx_done (ctx : Context) : bool :=
  match ctx with
  | Background => false
  | Cancelled => true
  end.

Record DiffOptions : Type := mkDiffOptions {
  diff_Config : Config;
  diff_ShowProgress : bool;
  diff_Context : Context
}.

Record ApplyOptions : Type := mkApplyOptions {
  apply_Config : Config;
  apply_ShowProgress : bool;
  apply_Context : Context;
  apply_VerifyResult : bool
}.

(* ================================================================== *)
(** * Differ *)

(** The inner loops of [sequentialDiff]:
    [for i < minLen && oldData[i] == newData[i] { i++ }] when [same] is
    [true], and the loop with [!=] when it is [false]. *)
Fixpoint advance (fuel : nat) (same : bool) (oldData newData : list byte)
  (minLen i : nat) : nat :=
  match fuel with
  | O => i
  | S fuel' =>
      if (i <? minLen)%nat
         && Bool.eqb (Byte.eqb (at_index oldData i) (at_index newData i)) same
      then advance fuel' same oldData newData minLen (S i)
      else i
  end.

(** The tail of [sequentialDiff], after the scan of the common prefix. *)
Definition diff_tail (oldData newData : list byte) (minLen : nat)
  : Outcome (list Patch) :=
  if (minLen <? length newData)%nat then
    data <- slice newData (Z.of_nat minLen) (len newData) ;;
    Ret [mkPatch OP_INSERT (Z.of_nat minLen) (len newData - Z.of_nat minLen) data]
  else if (minLen <? length oldData)%nat then
    Ret [mkPatch OP_DELETE (Z.of_nat minLen) (len oldData - Z.of_nat minLen) []]
  else Ret [].

(** The outer loop [for i < minLen { ... }] followed by the tail.  A turn
    moves [i] forward by at least one, so [minLen] turns are enough. *)
Fixpoint diff_loop (fuel : nat) (ctx : Context) (oldData newData : list byte)
  (minLen i : nat) (patches : list Patch) : Outcome (list Patch) :=
  if (i <? minLen)%nat then
    match fuel with
    | O => OutOfFuel
    | S fuel' =>
        if ctx_done ctx then Ret patches
        else
          let start := i in
          if Byte.eqb (at_index oldData i) (at_index newData i) then
            let i' := advance (minLen - i) true oldData newData minLen i in
            diff_loop fuel' ctx oldData newData minLen i'
              (patches ++ [mkPatch OP_COPY (Z.of_nat start)
                             (Z.of_nat i' - Z.of_nat start) []])
          else
            let i' := advance (minLen - i) false oldData newData minLen i in
            data <- slice newData (Z.of_nat start) (Z.of_nat i') ;;
            diff_loop fuel' ctx oldData newData minLen i'
              (patches ++ [mkPatch OP_REPLACE (Z.of_nat start)
                             (Z.of_nat i' - Z.of_nat start) data])
    end
  else
    tl <- diff_tail oldData newData minLen ;;
    Ret (patches ++ tl).

Definition sequentialDiff (oldData newData : list byte) (options : DiffOptions)
  : Outcome (list Patch) :=
  let minLen := length oldData in
  let minLen := if (length newData <? minLen)%nat then length newData else minLen in
  diff_loop minLen (diff_Context options) oldData newData minLen 0%nat [].

(** ** The optimizer used by the streaming differ *)

Definition canMergePatches (p1 p2 : Patch) : bool :=
  Byte.eqb (Op p1) (Op p2)
  && Byte.eqb (Op p1) OP_INSERT
  && (wrap64 (Offset p1 + Length p1) =? Offset p2).

Definition mergePatches (p1 p2 : Patch) : Patch :=
  mkPatch (Op p1) (Offset p1) (wrap64 (Length p1 + Length p2)) (Data p1 ++ Data p2).

(** [last] is the final element of [optimized]; what precedes it is already
    emitted. *)
Fixpoint optimize_onto (last : Patch) (patches : list Patch) : list Patch :=
  match patches with
  | [] => [last]
  | patch :: rest =>
      if canMergePatches last patch
      then optimize_onto (mergePatches last patch) rest
      else last :: optimize_onto patch rest
  end.

Definition optimizePatches (patches : list Patch) : list Patch :=
  if (length patches <=? 1)%nat then patches
  else
    match patches with
    | [] => []
    | first :: rest => optimize_onto first rest
    end.

(** ** Strategies *)

Definition parallelDiff (oldData newData : list byte) (options : DiffOptions)
  : Outcome (list Patch) :=
  let numWorkers := MaxWorkers (diff_Config options) in
  if numWorkers <=? 1 then sequentialDiff oldData newData options
  else
    let chunkSize := Z.quot (len newData) numWorkers in
    if chunkSize <? BlockSize (diff_Config options)
    then sequentialDiff oldData newData options
    else sequentialDiff oldData newData options.

Definition shift_offset (by_ : Z) (p : Patch) : Patch :=
  mkPatch (Op p) (wrap64 (Offset p + by_)) (Length p) (Data p).

Definition streaming_chunk_size (options : DiffOptions) : Z :=
  let chunkSize :=
    Z.quot (wrap64 (wrap64 (MaxMemoryMB (diff_Config options) * 1024) * 1024)) 4 in
  if chunkSize <=? 0 then 64 * 1024 else chunkSize.

(** [for offset := 0; offset < len(newData); offset += chunkSize { ... }] *)
Fixpoint streaming_loop (fuel : nat) (oldData newData : list byte)
  (options : DiffOptions) (chunkSize offset : Z) (patches : list Patch)
  : Outcome (list Patch) :=
  if offset <? len newData then
    match fuel with
    | O => OutOfFuel
    | S fuel' =>
        let end_ := wrap64 (offset + chunkSize) in
        let end_ := if end_ >? len newData then len newData else end_ in
        chunk <- slice newData offset end_ ;;
        chunkPatches <- sequentialDiff oldData chunk options ;;
        let chunkPatches := map (shift_offset offset) chunkPatches in
        streaming_loop fuel' oldData newData options chunkSize
          (wrap64 (offset + chunkSize)) (patches ++ chunkPatches)
    end
  else Ret (optimizePatches patches).

Definition streamingDiff (oldData newData : list byte) (options : DiffOptions)
  : Outcome (list Patch) :=
  streaming_loop (length newData) oldData newData options
    (streaming_chunk_size options) 0 [].

Definition DiffWithOptions (oldData newData : list byte)
  (options : option DiffOptions) : Outcome (list Patch) :=
  let options :=
    match options with
    | Some o => o
    | None => mkDiffOptions DefaultConfig false Background
    end in
  let totalSize := len oldData + len newData in
  let maxMemory := wrap64 (wrap64 (MaxMemoryMB (diff_Config options) * 1024) * 1024) in
  if totalSize >? maxMemory then streamingDiff oldData newData options
  else if UseParallel (diff_Config options)
          && (len oldData >? wrap64 (BlockSize (diff_Config options) * 10))
  then parallelDiff oldData newData options
  else sequentialDiff oldData newData options.

Definition Diff (oldData newData : list byte) : Outcome (list Patch) :=
  DiffWithOptions oldData newData (Some (mkDiffOptions DefaultConfig false Background)).

(* ================================================================== *)
(** * Patch optimizer *)

Definition merge_insert (current next : Patch) : bool :=
  Byte.eqb (Op current) OP_INSERT && Byte.eqb (Op next) OP_INSERT
  && (wrap64 (Offset current + Length current) =? Offset next).

Definition merge_copy (current next : Patch) : bool :=
  Byte.eqb (Op current) OP_COPY && Byte.eqb (Op next) OP_COPY
  && (wrap64 (Offset current + Length current) =? Offset next).

(** [append(current.Data, next.Data...)] is modelled by its value, the
    concatenation.  When the data of several operations share one backing
    array with spare capacity the call can overwrite bytes that a later
    operation still refers to; the bytes never enter a test of the
    optimizer, and lemma [OptimizePatches_fixed_by_shape] states the
    idempotence for any list that has the kinds, offsets and lengths of an
    optimized one, whatever its data.

    The two nested loops of [OptimizePatches] with [current] in hand and
    [rest = patches[i+1:]]: a merge keeps [current] and moves on
    ([continue]); otherwise [current] is appended and the outer loop takes
    the next element as [current] ([break]). *)
Fixpoint optimize_from (current : Patch) (rest : list Patch) : list Patch :=
  match rest with
  | [] => [current]
  | next :: rest' =>
      if merge_insert current next then
        optimize_from
          (mkPatch (Op current) (Offset current)
             (wrap64 (Length current + Length next)) (Data current ++ Data next))
          rest'
      else if merge_copy current next then
        optimize_from
          (mkPatch (Op current) (Offset current)
             (wrap64 (Length current + Length next)) (Data current))
          rest'
      else current :: optimize_from next rest'
  end.

Definition OptimizePatches (patches : list Patch) : list Patch :=
  if (length patches <=? 1)%nat then patches
  else
    match patches with
    | [] => []
    | first :: rest => optimize_from first rest
    end.

(* ================================================================== *)
(** * Applier *)

Definition produces_output (op : Operator) : bool :=
  Byte.eqb op OP_INSERT || Byte.eqb op OP_REPLACE
  || Byte.eqb op OP_COPY || Byte.eqb op OP_MATCH.

(** The capacity estimate: every operation of the list is counted, whether
    or not the replay loop will skip it. *)
Definition estimated_size (patches : list Patch) : Z :=
  fold_left
    (fun estimatedSize p =>
       if produces_output (Op p) then wrap64 (estimatedSize + Length p)
       else estimatedSize)
    patches 0.

(** State of the replay loop: the read cursor into [oldData] and the output
    built so far. *)
Definition ApplyState : Type := (Z * list byte)%type.

(** The body of the replay loop after the cancellation poll. *)
Definition apply_step (oldData : list byte) (patch : Patch) (st : ApplyState)
  : Outcome ApplyState :=
  let '(cursor, newData) := st in
  if Offset patch >? len oldData then Ret (cursor, newData)      (* skipped *)
  else
    '(cursor, newData) <-
       (if Offset patch >? cursor then
          gap <- slice oldData cursor (Offset patch) ;;
          Ret (Offset patch, newData ++ gap)
        else Ret (cursor, newData)) ;;
    if Byte.eqb (Op patch) OP_INSERT then
      Ret (cursor, newData ++ Data patch)
    else if Byte.eqb (Op patch) OP_REPLACE then
      Ret (wrap64 (cursor + Length patch), newData ++ Data patch)
    else if Byte.eqb (Op patch) OP_DELETE then
      Ret (wrap64 (cursor + Length patch), newData)
    else if Byte.eqb (Op patch) OP_COPY || Byte.eqb (Op patch) OP_MATCH then
      let endPos := wrap64 (cursor + Length patch) in
      let endPos := if endPos >? len oldData then len oldData else endPos in
      if (cursor <? len oldData) && (endPos >? cursor) then
        copied <- slice oldData cursor endPos ;;
        Ret (endPos, newData ++ copied)
      else Ret (cursor, newData)
    else Ret (cursor, newData).                                  (* unknown kind *)

(** What follows the loop: the rest of [oldData] is copied. *)
Definition apply_finish (oldData : list byte) (st : ApplyState)
  : Outcome (list byte) :=
  let '(cursor, newData) := st in
  if cursor <? len oldData then
    rest <- slice oldData cursor (len oldData) ;;
    Ret (newData ++ rest)
  else Ret newData.

Fixpoint apply_loop (oldData : list byte) (ctx : Context) (patches : list Patch)
  (st : ApplyState) : Outcome (list byte) :=
  match patches with
  | [] => apply_finish oldData st
  | patch :: rest =>
      if ctx_done ctx then Ret (snd st)
      else
        st' <- apply_step oldData patch st ;;
        apply_loop oldData ctx rest st'
  end.

(** The cursor after each turn of the replay loop, up to the first turn
    that does not complete. *)
Fixpoint apply_cursors (oldData : list byte) (patches : list Patch)
  (st : ApplyState) : list Z :=
  match patches with
  | [] => []
  | patch :: rest =>
      match apply_step oldData patch st with
      | Ret st' => fst st' :: apply_cursors oldData rest st'
      | _ => []
      end
  end.

Definition ApplyPatchWithOptions (oldData : list byte) (patches : list Patch)
  (options : option ApplyOptions) : Outcome (list byte) :=
  let options :=
    match options with
    | Some o => o
    | None => mkApplyOptions DefaultConfig false Background true
    end in
  newData <- make_empty_with_cap (estimated_size patches) ;;
  apply_loop oldData (apply_Context options) patches (0, newData).

Definition ApplyPatch (oldData : list byte) (patch : list Patch)
  : Outcome (list byte) :=
  ApplyPatchWithOptions oldData patch
    (Some (mkApplyOptions DefaultConfig false Background false)).

(* ================================================================== *)
(** * The [apply] command: integrity gate around the applier *)

Fixpoint hash_bytes_equal (hash1 hash2 : list byte) : bool :=
  match hash1, hash2 with
  | b1 :: t1, b2 :: t2 => if Byte.eqb b1 b2 then hash_bytes_equal t1 t2 else false
  | _, _ => true
  end.

Definition CompareHashes (hash1 hash2 : list byte) : bool :=
  if negb (length hash1 =? length hash2)%nat then false
  else hash_bytes_equal hash1 hash2.

Inductive CmdError : Type :=
| DecodeFailed (e : error)
| HashMismatch
| ResultHashMismatch.

(** What a run of the command does to the outside world. *)
Inductive Effect : Type :=
| Backup
| Replay (patches : list Patch)
| WriteFile (name data : list byte).

Record CmdApplyOptions : Type := mkCmdApplyOptions {
  OutputFile : list byte;
  cmd_ShowProgress : bool;
  cmd_VerifyResult : bool;
  BackupOriginal : bool
}.

Section ApplyCommand.

(** [utils.ComputeHash], SHA-256 of the standard library. *)
Variable ComputeHash : list byte -> list byte.

(** [runApply] from the point where both files have been read: [oldData]
    and [patchBytes] are their contents, [ctx] the context of step 6 as the
    applier observes it.  The result is the error returned, if any, and the
    effects in order. *)
Definition runApply (oldData patchBytes : list byte) (options : CmdApplyOptions)
  (ctx : Context) : Outcome (option CmdError * list Effect) :=
  let effects := if BackupOriginal options then [Backup] else [] in
  '(df, err) <- DecodeDiffFile patchBytes ;;
  match err with
  | Some e => Ret (Some (DecodeFailed e), effects)
  | None =>
      let calculatedHash := ComputeHash oldData in
      if negb (CompareHashes calculatedHash (OldHash df))
      then Ret (Some HashMismatch, effects)
      else
        let applyOptions :=
          mkApplyOptions (mkConfig 0 0 0 0 false false)
            (cmd_ShowProgress options) ctx (cmd_VerifyResult options) in
        let effects := effects ++ [Replay (types.Diff df)] in
        newData <- ApplyPatchWithOptions oldData (types.Diff df) (Some applyOptions) ;;
        if cmd_VerifyResult options
           && negb (CompareHashes (ComputeHash newData) (NewHash df))
        then Ret (Some ResultHashMismatch, effects)
        else
          let outputFile :=
            match OutputFile options with
            | [] => NewFileName df
            | name => name
            end in
          Ret (None, effects ++ [WriteFile outputFile newData])
  end.

End ApplyCommand.

(* ================================================================== *)
(** * The diff command's container and the end-to-end pipeline *)

(** The container that [runDiff] assembles (its step 9), before the
    operation list is put in: file names, sizes and digests of the two
    inputs and the shift estimate. *)
Definition runDiff_header (oldName newName oldData newData oldHash newHash : list byte)
  (offset : Z) : DiffFile :=
  mkDiffFile PATCH_MAGIC PATCH_VERSION
    (uint32 (len oldName)) oldName
    (uint32 (len newName)) newName
    (uint32 (len oldData)) (uint32 (len newData))
    oldHash newHash offset 0 [].

(** [apply(A, decode(encode(diff(A, B))))] with the reference differ: the
    operations are put into the container [hdr], the container is encoded
    and decoded again, and the decoded operations are replayed on [A]. *)
Definition diff_encode_decode_apply (hdr : DiffFile) (A B : list byte)
  (diffOptions : DiffOptions) (applyOptions : ApplyOptions)
  : Outcome (list byte + error) :=
  patches <- sequentialDiff A B diffOptions ;;
  let container :=
    mkDiffFile (MagicNumber hdr) (Version hdr) (OldFileNameLength hdr) (FileName hdr)
      (NewFileNameLength hdr) (NewFileName hdr) (OldSize hdr) (NewSize hdr)
      (OldHash hdr) (NewHash hdr) (ShiftOffset hdr) (DataLength hdr) patches in
  '(df, err) <- DecodeDiffFile (EncodeDiffFile container) ;;
  match err with
  | Some e => Ret (inr e)
  | None =>
      out <- ApplyPatchWithOptions A (types.Diff df) (Some applyOptions) ;;
      Ret (inl out)
  end.

(* ================================================================== *)
(** * Further functions of the packages *)

(** ** Package [core] *)

Fixpoint equal_bytes_from (a b : list byte) : bool :=
  match a, b with
  | x :: a', y :: b' => if Byte.eqb x y then equal_bytes_from a' b' else false
  | _, _ => true
  end.

Definition EqualBytes (a b : list byte) : bool :=
  if negb (length a =? length b)%nat then false
  else equal_bytes_from a b.

(** [n |= n >> k] on an [int]; the shift of a signed integer is
    arithmetic. *)
Definition smear (k n : Z) : Z := Z.lor n (Z.shiftr n k).

Definition NextPowerOfTwo (n : Z) : Z :=
  if n =? 0 then 1
  else
    let n := wrap64 (n - 1) in
    let n := smear 1 n in
    let n := smear 2 n in
    let n := smear 4 n in
    let n := smear 8 n in
    let n := smear 16 n in
    wrap64 (n + 1).

(** [for i := 0; i < bits; i++ { if (num>>i)&1 == 1 { result |= 1 << (bits-1-i) } }]
    with [count] turns still to go. *)
Fixpoint reverseBits_loop (count : nat) (num bits i result : Z) : Z :=
  match count with
  | O => result
  | S count' =>
      let result :=
        if Z.land (Z.shiftr num i) 1 =? 1
        then Z.lor result (wrap64 (Z.shiftl 1 (bits - 1 - i)))
        else result in
      reverseBits_loop count' num bits (i + 1) result
  end.

Definition reverseBits (num bits : Z) : Z :=
  reverseBits_loop (Z.to_nat bits) num bits 0 0.

Definition ReverseBits (num bits : Z) : Z := reverseBits num bits.

(** ** Package [core]: the FFT *)

Definition complex128 : Type := (float * float)%type.

Definition complex (r i : float) : complex128 := (r, i).
Definition real (c : complex128) : float := fst c.
Definition imag (c : complex128) : float := snd c.

Definition cadd (a b : complex128) : complex128 :=
  (real a + real b, imag a + imag b)%float.

Definition csub (a b : complex128) : complex128 :=
  (real a - real b, imag a - imag b)%float.

(** The product as the compiler expands it, each operation rounded on its
    own (no fused multiply-add, as on amd64). *)
Definition cmul (a b : complex128) : complex128 :=
  (real a * real b - imag a * imag b, real a * imag b + imag a * real b)%float.

(** [float64(n)] for an [int] of magnitude below [2^63], rounded to
    nearest even. *)
Definition float64_of_int (n : Z) : float :=
  if n <? 0 then (- PrimFloat.of_uint63 (Uint63.of_Z (- n)))%float
  else PrimFloat.of_uint63 (Uint63.of_Z n).

(** [float64(b)] for a byte. *)
Definition float64_of_byte (b : byte) : float := float64_of_int (byte_to_Z b).

(** [int(f)]: the fraction is dropped.  For a value outside [int], an
    infinity or a NaN the language leaves the result to the
    implementation; amd64 gives [-2^63]. *)
Definition int_of_float64 (f : float) : Z :=
  match Prim2SF f with
  | S754_zero _ => 0
  | S754_finite s m e =>
      let magnitude := if 0 <=? e then Z.pos m * 2 ^ e else Z.pos m / 2 ^ (- e) in
      let v := if s then - magnitude else magnitude in
      if (- 2 ^ 63 <=? v) && (v <? 2 ^ 63) then v else - 2 ^ 63
  | _ => - 2 ^ 63
  end.

(** [2 * math.Pi], an exact constant of the language, as the [float64] it
    becomes in [2 * math.Pi / float64(n)]. *)
Definition two_pi : float := 0x1.921fb54442d18p+2%float.

(** [s[i]] and [s[i] = x] with the bounds check. *)
Definition index {A : Type} (s : list A) (i : Z) : Outcome A :=
  if (0 <=? i) && (i <? len s) then
    match nth_error s (Z.to_nat i) with
    | Some x => Ret x
    | None => Panic IndexOutOfRange
    end
  else Panic IndexOutOfRange.

Definition store {A : Type} (s : list A) (i : Z) (x : A) : Outcome (list A) :=
  if (0 <=? i) && (i <? len s)
  then Ret (firstn (Z.to_nat i) s ++ x :: skipn (S (Z.to_nat i)) s)
  else Panic IndexOutOfRange.

(** [make([]T, n)] for elements of [size] bytes whose zero value is
    [zero]. *)
Definition make_slice {A : Type} (size : Z) (zero : A) (n : Z) : Outcome (list A) :=
  if (n <? 0) || (size * n >? maxAlloc) then Panic MakeSliceLenOutOfRange
  else Ret (repeat zero (Z.to_nat n)).

Definition make_complex (n : Z) : Outcome (list complex128) :=
  make_slice 16 (complex 0 0) n.

Record FFT : Type := mkFFT {
  fft_n : Z;
  roots : list complex128;
  bitReverse : list Z
}.

Record FFTOptions : Type := mkFFTOptions {
  EnableCache : bool;
  Parallel : bool;
  Threshold : Z
}.

Definition DefaultFFTOptions : FFTOptions := mkFFTOptions true true 1024.

Section MathLibrary.

(** [cmplx.Rect] and [math.Log2] of the standard library. *)
Variable Rect : float -> float -> complex128.
Variable Log2 : float -> float.

(** [for i := 0; i < n; i++ { fft.roots[i] = cmplx.Rect(1, float64(i)*angle) }]
    with [count] turns still to go. *)
Fixpoint fill_roots (count : nat) (i : Z) (angle : float)
  (roots : list complex128) : Outcome (list complex128) :=
  match count with
  | O => Ret roots
  | S count' =>
      roots <- store roots i (Rect 1 (float64_of_int i * angle)%float) ;;
      fill_roots count' (i + 1) angle roots
  end.

(** The loop of [precomputeBitReverse]. *)
Fixpoint fill_bitReverse (count : nat) (i logN : Z) (bitReverse : list Z)
  : Outcome (list Z) :=
  match count with
  | O => Ret bitReverse
  | S count' =>
      bitReverse <- store bitReverse i (reverseBits i logN) ;;
      fill_bitReverse count' (i + 1) logN bitReverse
  end.

Definition precomputeBitReverse (n : Z) (bitReverse : list Z) : Outcome (list Z) :=
  let logN := int_of_float64 (Log2 (float64_of_int n)) in
  fill_bitReverse (Z.to_nat n) 0 logN bitReverse.

Definition NewFFTWithOptions (n : Z) (options : FFTOptions) : Outcome FFT :=
  roots <- make_complex n ;;
  bitReverse <- make_slice 8 0 n ;;
  let angle := (two_pi / float64_of_int n)%float in
  roots <- fill_roots (Z.to_nat n) 0 angle roots ;;
  bitReverse <- precomputeBitReverse n bitReverse ;;
  Ret (mkFFT n roots bitReverse).

Definition NewFFT (n : Z) : Outcome FFT :=
  NewFFTWithOptions n DefaultFFTOptions.

End MathLibrary.

(** [for i := 0; i < n; i++ { output[i] = input[fft.bitReverse[i]] }] *)
Fixpoint permute (count : nat) (fft : FFT) (i : Z)
  (input output : list complex128) : Outcome (list complex128) :=
  match count with
  | O => Ret output
  | S count' =>
      r <- index (bitReverse fft) i ;;
      x <- index input r ;;
      output <- store output i x ;;
      permute count' fft (i + 1) input output
  end.

(** [for j := 0; j < half; j++ { ... }], the butterflies of one segment. *)
Fixpoint butterflies (count : nat) (start half j : Z) (w wlen : complex128)
  (output : list complex128) : Outcome (list complex128) :=
  match count with
  | O => Ret output
  | S count' =>
      u <- index output (wrap64 (start + j)) ;;
      x <- index output (wrap64 (wrap64 (start + j) + half)) ;;
      let v := cmul x w in
      output <- store output (wrap64 (start + j)) (cadd u v) ;;
      output <- store output (wrap64 (wrap64 (start + j) + half)) (csub u v) ;;
      butterflies count' start half (j + 1) (cmul w wlen) wlen output
  end.

(** [for start := 0; start < n; start += length { ... }] *)
Fixpoint segments (fuel : nat) (n length half start : Z) (wlen : complex128)
  (output : list complex128) : Outcome (list complex128) :=
  if start <? n then
    match fuel with
    | O => OutOfFuel
    | S fuel' =>
        output <- butterflies (Z.to_nat half) start half 0 (complex 1 0) wlen output ;;
        segments fuel' n length half (wrap64 (start + length)) wlen output
    end
  else Ret output.

(** [for length := 2; length <= n; length <<= 1 { ... }] *)
Fixpoint stages (fuel : nat) (fft : FFT) (inverse : bool) (length : Z)
  (output : list complex128) : Outcome (list complex128) :=
  let n := fft_n fft in
  if length <=? n then
    match fuel with
    | O => OutOfFuel
    | S fuel' =>
        let half := Z.shiftr length 1 in
        let step := Z.quot n length in
        wlen <- (if inverse then index (roots fft) (n - step)
                 else index (roots fft) step) ;;
        output <- segments (Z.to_nat n) n length half 0 wlen output ;;
        stages fuel' fft inverse (wrap64 (Z.shiftl length 1)) output
    end
  else Ret output.

(** The length doubles at each stage and the segments of a stage start
    [length >= 2] apart, so 64 stages and [n] segments are enough. *)
Definition iterativeFFT (fft : FFT) (input output : list complex128)
  (inverse : bool) : Outcome (list complex128) :=
  let n := fft_n fft in
  output <- permute (Z.to_nat n) fft 0 input output ;;
  output <- stages 64 fft inverse 2 output ;;
  if inverse then
    let scale := complex (1 / float64_of_int n)%float 0%float in
    Ret (map (fun c => cmul c scale) output)
  else Ret output.

(** [fft.Transform(input, output, inverse)]; the result is [output] after
    the call. *)
Definition Transform (fft : FFT) (input output : list complex128)
  (inverse : bool) : Outcome (list complex128) :=
  if negb (len input =? fft_n fft) || negb (len output =? fft_n fft)
  then Panic ExplicitPanic
  else if fft_n fft =? 1 then
    x <- index input 0 ;;
    store output 0 x
  else iterativeFFT fft input output inverse.

(** ** Package [core]: the aligner *)

(** [for i := 0; i < lenA; i++ { a[i] = complex(float64(oldData[i]), 0) }] *)
Fixpoint fill_forward (count : nat) (i : Z) (data : list byte)
  (a : list complex128) : Outcome (list complex128) :=
  match count with
  | O => Ret a
  | S count' =>
      let x := float64_of_byte (at_index data (Z.to_nat i)) in
      a <- store a i (complex x 0%float) ;;
      fill_forward count' (i + 1) data a
  end.

(** [for i := 0; i < lenB; i++ { b[i] = complex(float64(newData[lenB-1-i]), 0) }] *)
Fixpoint fill_reversed (count : nat) (i lenB : Z) (data : list byte)
  (b : list complex128) : Outcome (list complex128) :=
  match count with
  | O => Ret b
  | S count' =>
      let x := float64_of_byte (at_index data (Z.to_nat (lenB - 1 - i))) in
      b <- store b i (complex x 0%float) ;;
      fill_reversed count' (i + 1) lenB data b
  end.

(** [for i := range aFFT { product[i] = aFFT[i] * bFFT[i] }] *)
Fixpoint multiply (count : nat) (i : Z) (aFFT bFFT product : list complex128)
  : Outcome (list complex128) :=
  match count with
  | O => Ret product
  | S count' =>
      x <- index aFFT i ;;
      y <- index bFFT i ;;
      product <- store product i (cmul x y) ;;
      multiply count' (i + 1) aFFT bFFT product
  end.

(** [for i := 1; i < n; i++ { val := real(corr[i]); if val > maxVal { ... } }] *)
Fixpoint find_peak (count : nat) (i : Z) (corr : list complex128)
  (maxVal : float) (maxIdx : Z) : Outcome Z :=
  match count with
  | O => Ret maxIdx
  | S count' =>
      c <- index corr i ;;
      let val := real c in
      if (maxVal <? val)%float
      then find_peak count' (i + 1) corr val i
      else find_peak count' (i + 1) corr maxVal maxIdx
  end.

Section Aligner.

Variable Rect : float -> float -> complex128.
Variable Log2 : float -> float.

Definition ComputeOffset (oldData newData : list byte) : Outcome Z :=
  let lenA := len oldData in
  let lenB := len newData in
  let n := NextPowerOfTwo (wrap64 (wrap64 (lenA + lenB) - 1)) in
  fft <- NewFFT Rect Log2 n ;;
  a <- make_complex n ;;
  b <- make_complex n ;;
  a <- fill_forward (length oldData) 0 oldData a ;;
  b <- fill_reversed (length newData) 0 lenB newData b ;;
  aFFT <- make_complex n ;;
  bFFT <- make_complex n ;;
  aFFT <- Transform fft a aFFT false ;;
  bFFT <- Transform fft b bFFT false ;;
  product <- make_complex n ;;
  product <- multiply (length aFFT) 0 aFFT bFFT product ;;
  corr <- make_complex n ;;
  corr <- Transform fft product corr true ;;
  c0 <- index corr 0 ;;
  maxIdx <- find_peak (Z.to_nat (n - 1)) 1 corr (real c0) 0 ;;
  let offset := wrap64 (wrap64 (maxIdx - lenB) + 1) in
  let offset := if offset <? wrap64 (- lenB + 1) then wrap64 (offset + n) else offset in
  Ret offset.

End Aligner.

(** ** Package [utils] *)

(** [Retry(attempts, delay, fn)].  [E] is the type of the errors of [fn],
    which is given by what its successive calls return ([None] for a nil
    error); [delay] is in nanoseconds.  The result is the error returned,
    the number of calls made and the pauses taken, in order. *)
Inductive RetryError (E : Type) : Type :=
| FailedAfter (attempts : Z) (lastErr : option E).

Arguments FailedAfter {E} attempts lastErr.

Fixpoint retry_loop {E : Type} (count : nat) (attempts i delay : Z)
  (fn : nat -> option E) (calls : nat) (lastErr : option E)
  (pauses : list Z) : option (RetryError E) * nat * list Z :=
  match count with
  | O => (Some (FailedAfter attempts lastErr), calls, pauses)
  | S count' =>
      match fn calls with
      | None => (None, S calls, pauses)
      | Some err =>
          if i <? attempts - 1
          then retry_loop count' attempts (i + 1) (wrap64 (delay * 2)) fn
                 (S calls) (Some err) (pauses ++ [delay])
          else retry_loop count' attempts (i + 1) delay fn
                 (S calls) (Some err) pauses
      end
  end.

Definition Retry {E : Type} (attempts delay : Z) (fn : nat -> option E)
  : option (RetryError E) * nat * list Z :=
  retry_loop (Z.to_nat attempts) attempts 0 delay fn 0%nat None [].

(** ** The [diff] command *)

Record CmdDiffOptions : Type := mkCmdDiffOptions {
  diff_OutputFile : list byte;
  diff_cmd_ShowProgress : bool;
  UseFFT : bool;
  diff_cmd_UseParallel : bool;
  diff_cmd_MaxWorkers : Z;
  diff_cmd_BlockSize : Z;
  MinMatch : Z
}.

Section DiffCommand.

(** SHA-256, as [utils.GetFileInfo] computes it over the file. *)
Variable ComputeHash : list byte -> list byte.

(** [cmplx.Rect] and [math.Log2], which the aligner reaches through the
    FFT. *)
Variable Rect : float -> float -> complex128.
Variable Log2 : float -> float.

(** [runDiff] from the point where both files have been read: [oldName]
    and [newName] are the base names of the two paths, [oldData] and
    [newData] the contents, [ctx] the context of step 4 as the differ
    observes it.  The result is the name and the contents of the patch
    file written. *)
Definition runDiff (oldName newName oldData newData : list byte)
  (options : CmdDiffOptions) (ctx : Context) : Outcome (list byte * list byte) :=
  let diffConfig :=
    mkConfig (diff_cmd_BlockSize options) (MinMatch options) 0
      (diff_cmd_MaxWorkers options) (UseFFT options) (diff_cmd_UseParallel options) in
  let coreDiffOptions :=
    mkDiffOptions diffConfig (diff_cmd_ShowProgress options) ctx in
  offset <-
    (if UseFFT options
     then computed <- ComputeOffset Rect Log2 oldData newData ;;
          Ret (wrap32 computed)
     else Ret 0) ;;
  patches <- DiffWithOptions oldData newData (Some coreDiffOptions) ;;
  let diffFile :=
    mkDiffFile PATCH_MAGIC PATCH_VERSION
      (uint32 (len oldName)) oldName
      (uint32 (len newName)) newName
      (uint32 (len oldData)) (uint32 (len newData))
      (ComputeHash oldData) (ComputeHash newData)
      offset 0 patches in
  let diffBytes := EncodeDiffFile diffFile in
  let outputFile :=
    match diff_OutputFile options with
    | [] => String.list_byte_of_string "patch.bdf"%string
    | name => name
    end in
  Ret (outputFile, diffBytes).

End DiffCommand.

(* ================================================================== *)
(** * Sample inputs *)

Definition bytes_of (s : String.string) : list byte :=
  String.list_byte_of_string s.

(** The end-to-end scenario of the specification. *)
Definition fox_old : list byte := bytes_of "The quick brown fox"%string.
Definition fox_new : list byte := bytes_of "The quick red fox"%string.
Definition fox_header : DiffFile :=
  runDiff_header (bytes_of "old.txt"%string) (bytes_of "new.txt"%string)
    fox_old fox_new (repeat x00 32) (repeat xff 32) 0.

(** An input of [2^32 - 17] zero bytes: with the 17 bytes of the INSERT
    that carries it, its operation stream is [2^32] bytes long. *)
Definition four_GiB_new : list byte := repeat x00 (Z.to_nat (2 ^ 32 - 17)).
Definition four_GiB_header : DiffFile :=
  runDiff_header (bytes_of "old.bin"%string) (bytes_of "new.bin"%string)
    [] four_GiB_new (repeat x00 32) (repeat x00 32) 0.

(** A container that is well formed except for its first two fields:
    magic [0xDEADBEEF] and version [7]. *)
Definition bad_magic_container : DiffFile :=
  mkDiffFile 0xDEADBEEF 7
    7 (bytes_of "old.txt"%string) 7 (bytes_of "new.txt"%string)
    19 17 (repeat x00 32) (repeat xff 32) 0 0
    [mkPatch OP_COPY 0 10 [];
     mkPatch OP_REPLACE 10 3 (bytes_of "red"%string);
     mkPatch OP_DELETE 13 2 [];
     mkPatch OP_COPY 15 4 []].

(** An operation stream of one INSERT, offset 0, whose length field is
    [ff ff ff ff ff ff ff ff], that is [-1]. *)
Definition negative_length_stream : list byte :=
  [x02] ++ repeat x00 8 ++ repeat xff 8.

(** An operation stream of 34 bytes: DELETE at offset 0 of length
    [2^63 - 1], then DELETE at offset 0 of length 1. *)
Definition cursor_wrap_stream : list byte :=
  [x05; x00; x00; x00; x00; x00; x00; x00; x00;
   xff; xff; xff; xff; xff; xff; xff; x7f;
   x05; x00; x00; x00; x00; x00; x00; x00; x00;
   x01; x00; x00; x00; x00; x00; x00; x00].

(** The configuration [runDiff] hands to the differ under the default
    flags of the command line: block size 1024, minimal match 64, four
    workers, alignment and parallelism on.  [runDiff] does not set
    [MaxMemoryMB], which keeps its zero value. *)
Definition cli_config : Config := mkConfig 1024 64 0 4 true true.

(** One byte of old data against [64 KiB + 1] bytes of new data: two
    windows of the streaming differ. *)
Definition two_windows_new : list byte := repeat x00 (Z.to_nat 65537).

Definition hello : list byte := bytes_of "hello"%string.

(** The configuration of the repository's test [TestStreamingDiff]: a
    ceiling of 1 MiB, hence windows of 256 KiB. *)
Definition test_streaming_config : Config := mkConfig 1024 64 1 0 false false.

(** One byte of old data against 1 MiB of new data: four windows. *)
Definition one_MiB_new : list byte := repeat x00 (Z.to_nat 1048576).

(** Stand-ins for [cmplx.Rect] and [math.Log2] in closed examples: the
    point at angle zero whatever the angle, and the logarithm of the
    integer part rounded down, which is [math.Log2] on the powers of
    two. *)
Definition unit_Rect (r theta : float) : complex128 := complex r 0%float.

Definition floor_Log2 (x : float) : float :=
  float64_of_int (Z.log2 (int_of_float64 x)).



(** Two behaviours of the function given to [Retry]: two failures and
    then success, and failure on every call. *)
Definition fails_twice (call : nat) : option (list byte) :=
  if (call <? 2)%nat then Some (bytes_of "busy"%string) else None.

Definition always_fails (call : nat) : option (list byte) :=
  Some (bytes_of "busy"%string).

(* ================================================================== *)
(** * Predicates used in the statements *)

(** A byte sequence that a slice can hold: it fits in one block of the
    run-time system. *)
Definition go_slice (s : list byte) : Prop := len s <= maxAlloc.

(** An operation as the differ and the data model have it: both integer
    fields are [int64] values, data-carrying kinds carry exactly [Length]
    bytes, held in a slice, and the other kinds carry none. *)
Definition wf_patch (p : Patch) : Prop :=
  in_int64 (Offset p) /\ in_int64 (Length p) /\
  (if carries_data (Op p)
   then Length p = len (Data p) /\ go_slice (Data p)
   else Data p = []).

(** A container header whose length fields agree with the fields they
    describe and whose digests have the size of a SHA-256 digest. *)
Definition header_ok (df : DiffFile) : Prop :=
  0 <= MagicNumber df < 2 ^ 32 /\
  0 <= Version df < 2 ^ 32 /\
  OldFileNameLength df = len (FileName df) /\ len (FileName df) < 2 ^ 32 /\
  NewFileNameLength df = len (NewFileName df) /\ len (NewFileName df) < 2 ^ 32 /\
  0 <= OldSize df < 2 ^ 32 /\
  0 <= NewSize df < 2 ^ 32 /\
  length (OldHash df) = 32%nat /\
  length (NewHash df) = 32%nat /\
  - 2 ^ 31 <= ShiftOffset df < 2 ^ 31.

(** Offsets strictly increasing from one operation to the next. *)
Fixpoint offsets_increasing (patches : list Patch) : bool :=
  match patches with
  | p :: (q :: _) as rest => (Offset p <? Offset q) && offsets_increasing rest
  | _ => true
  end.

(** The header of [df] with another payload. *)
Definition with_payload (df : DiffFile) (dataLength : Z) (patches : list Patch)
  : DiffFile :=
  mkDiffFile (MagicNumber df) (Version df) (OldFileNameLength df) (FileName df)
    (NewFileNameLength df) (NewFileName df) (OldSize df) (NewSize df)
    (OldHash df) (NewHash df) (ShiftOffset df) dataLength patches.

(** The sum of the [Length] fields of a list, without wrap-around. *)
Definition total_length (patches : list Patch) : Z :=
  fold_right (fun p acc => Length p + acc) 0 patches.

(** Replays the list a differ returned and gives the length of what the
    replay returns. *)
Definition replayed_length (oldData : list byte) (diffed : Outcome (list Patch))
  (options : option ApplyOptions) : Outcome Z :=
  patches <- diffed ;;
  out <- ApplyPatchWithOptions oldData patches options ;;
  Ret (len out).

(** The fields of an operation that the optimizer's tests read. *)
Definition shape (p : Patch) : Operator * Z * Z := (Op p, Offset p, Length p).

(** No operation of the list would absorb its successor. *)
Fixpoint no_merge (patches : list Patch) : bool :=
  match patches with
  | p :: (q :: _) as rest =>
      negb (merge_insert p q) && negb (merge_copy p q) && no_merge rest
  | _ => true
  end.

(** The turns of the replay loop alone, without the cancellation poll and
    without the copy of the remainder. *)
Fixpoint apply_steps (oldData : list byte) (patches : list Patch)
  (st : ApplyState) : Outcome ApplyState :=
  match patches with
  | [] => Ret st
  | patch :: rest =>
      st' <- apply_step oldData patch st ;;
      apply_steps oldData rest st'
  end.

(** What holds of the operations emitted so far when the scan of the
    reference differ stands at index [i]: they are well formed, replaying
    them leaves the cursor at [i] with the first [i] bytes of [newData]
    written, and the capacity estimate is [i]. *)
Definition scan_inv (oldData newData : list byte) (i : nat) (patches : list Patch)
  : Prop :=
  Forall wf_patch patches /\
  apply_steps oldData patches (0, []) = Ret (Z.of_nat i, firstn i newData) /\
  estimated_size patches = Z.of_nat i.

(** What holds of the list the reference differ returns. *)
Definition diff_post (oldData newData : list byte) (patches : list Patch) : Prop :=
  Forall wf_patch patches /\
  apply_steps oldData patches (0, []) = Ret (len oldData, newData) /\
  estimated_size patches = len newData.

(** A decoding result with [acc] put in front of its operations. *)
Definition prepend (acc : list Patch) (res : Outcome (list Patch * option error))
  : Outcome (list Patch * option error) :=
  '(ps, err) <- res ;; Ret (acc ++ ps, err).

(** The error [DecodePatch] returns for a stream that ends [n] bytes into
    the 17-byte head of an operation ([0 < n < 17]): [io.EOF] when the
    reader is empty at the start of a field, [io.ErrUnexpectedEOF] when it
    runs dry inside one. *)
Definition truncation_error (n : nat) : error :=
  if (n =? 1)%nat || (n =? 9)%nat then EOF else ErrUnexpectedEOF.

(** The pauses of [Retry] before [n] further calls: [delay] doubles on
    each pause. *)
Fixpoint backoff (delay : Z) (n : nat) : list Z :=
  match n with
  | O => []
  | S n' => delay :: backoff (wrap64 (delay * 2)) n'
  end.

(** The operations of [patches] tile the interval from [from] to [to]:
    each has a positive length and starts where its predecessor ends. *)
Fixpoint tiles (from : Z) (patches : list Patch) (to : Z) : Prop :=
  match patches with
  | [] => from = to
  | p :: rest => Offset p = from /\ 0 < Length p /\ tiles (from + Length p) rest to
  end.

(** No operation but the last is an INSERT. *)
Fixpoint insert_only_at_end (patches : list Patch) : Prop :=
  match patches with
  | p :: (_ :: _) as rest =>
      Byte.eqb (Op p) OP_INSERT = false /\ insert_only_at_end rest
  | _ => True
  end.

(** The bytes of [s] from index [lo] up to index [hi], cut at the end of
    [s]: the value of [s[lo:hi]] where that expression does not panic. *)
Definition between (s : list byte) (lo hi : Z) : list byte :=
  firstn (Z.to_nat (hi - lo)) (skipn (Z.to_nat lo) s).

(** The kind of the last operation of a list. *)
Definition last_op (patches : list Patch) : option Operator :=
  match rev patches with
  | [] => None
  | p :: _ => Some (Op p)
  end.

(** No two neighbours of the list have the same kind. *)
Fixpoint alternating (patches : list Patch) : Prop :=
  match patches with
  | p :: (q :: _) as rest => Op p <> Op q /\ alternating rest
  | _ => True
  end.

(** The range of a COPY covers only indices at which the two sequences
    agree, the range of a REPLACE only indices at which they differ. *)
Definition run_exact (oldData newData : list byte) (p : Patch) : Prop :=
  forall k : nat, Offset p <= Z.of_nat k < Offset p + Length p ->
    (Op p = OP_COPY -> at_index oldData k = at_index newData k) /\
    (Op p = OP_REPLACE -> at_index oldData k <> at_index newData k).

(** What the outer loop keeps: neighbours differ in kind, every run is
    exact, and the last operation is a COPY that stopped on a difference or
    a REPLACE that stopped on an agreement. *)
Definition runs_inv (oldData newData : list byte) (minLen i : nat)
  (patches : list Patch) : Prop :=
  alternating patches /\
  Forall (run_exact oldData newData) patches /\
  forall op, last_op patches = Some op ->
    (op = OP_COPY /\
     ((i < minLen)%nat -> Byte.eqb (at_index oldData i) (at_index newData i) = false))
    \/
    (op = OP_REPLACE /\
     ((i < minLen)%nat -> Byte.eqb (at_index oldData i) (at_index newData i) = true)).

(** The sum of the lengths of the data the operations carry. *)
Definition carried_bytes (patches : list Patch) : Z :=
  fold_right (fun p acc => len (Data p) + acc) 0 patches.

(** Bit [i] of [s] is set exactly when one of the [w] bits of [m] from bit
    [i] upwards is set. *)
Definition smeared (w s m : Z) : Prop :=
  forall i, 0 <= i ->
    (Z.testbit s i = true <-> exists j, 0 <= j < w /\ Z.testbit m (i + j) = true).

(** The bits of [r] are the [i] low bits of [num], mirrored into the [i]
    high bits of a field of [bits] bits. *)
Definition reversed_upto (num bits i r : Z) : Prop :=
  forall j, 0 <= j ->
    Z.testbit r j = (bits - i <=? j) && (j <? bits) && Z.testbit num (bits - 1 - j).


Section RoundTrip.

Variable Rect : float -> float -> complex128.
Variable Log2 : float -> float.


End RoundTrip.








(* ================================================================== *)
(** * Machine integers and little-endian fields *)

Lemma wrap64_id z : in_int64 z -> wrap64 z = z.
Proof.
  unfold in_int64, wrap64; intros H.
  rewrite Z.mod_small; lia.
Qed.

Lemma wrap64_range z : in_int64 (wrap64 z).
Proof.
  unfold in_int64, wrap64.
  pose proof (Z.mod_pos_bound (z + 2 ^ 63) (2 ^ 64) ltac:(lia)); lia.
Qed.

Lemma wrap64_uint64 z : in_int64 z -> wrap64 (uint64 z) = z.
Proof.
  unfold in_int64, wrap64, uint64; intros H.
  rewrite Zplus_mod_idemp_l.
  rewrite Z.mod_small; lia.
Qed.

Lemma wrap32_uint32 z : - 2 ^ 31 <= z < 2 ^ 31 -> wrap32 (uint32 z) = z.
Proof.
  unfold wrap32, uint32; intros H.
  rewrite Zplus_mod_idemp_l.
  rewrite Z.mod_small; lia.
Qed.


Lemma byte_to_of_Z z : byte_to_Z (byte_of_Z z) = z mod 256.
Proof.
  unfold byte_to_Z, byte_of_Z.
  pose proof (Z.mod_pos_bound z 256 ltac:(lia)) as Hr.
  destruct (Byte.of_N (Z.to_N (z mod 256))) as [b|] eqn:E.
  - apply Byte.to_of_N in E. rewrite E. lia.
  - apply Byte.of_N_None_iff in E. lia.
Qed.

Lemma length_le_encode w z : length (le_encode w z) = w.
Proof.
  revert z; induction w as [|w IH]; intros z; simpl; [reflexivity|].
  now rewrite IH.
Qed.

Lemma le_decode_encode w z :
  le_decode (le_encode w z) = z mod 256 ^ Z.of_nat w.
Proof.
  revert z; induction w as [|w IH]; intros z.
  - simpl. now rewrite Z.mod_1_r.
  - cbn [le_encode le_decode]. rewrite IH, byte_to_of_Z.
    rewrite Nat2Z.inj_succ, Z.pow_succ_r by lia.
    rewrite (Z.rem_mul_r z 256 (256 ^ Z.of_nat w)) by lia. reflexivity.
Qed.

Lemma le_decode_put_uint32 z : le_decode (put_uint32 z) = uint32 z.
Proof.
  unfold put_uint32. rewrite le_decode_encode.
  change (256 ^ Z.of_nat 4) with (2 ^ 32).
  unfold uint32. now rewrite Z.mod_mod by lia.
Qed.

Lemma le_decode_put_int64 z : le_decode (put_int64 z) = uint64 z.
Proof.
  unfold put_int64. rewrite le_decode_encode.
  change (256 ^ Z.of_nat 8) with (2 ^ 64).
  unfold uint64. now rewrite Z.mod_mod by lia.
Qed.

(* ================================================================== *)
(** * Readers *)

Lemma ReadFull_app bs r :
  ReadFull (bs ++ r) (length bs) = (bs, r, None).
Proof.
  unfold ReadFull. destruct (length bs) as [|n] eqn:E.
  - apply length_zero_iff_nil in E. now subst.
  - rewrite <- E.
    assert (Hle : (length bs <=? length (bs ++ r))%nat = true).
    { apply Nat.leb_le. rewrite length_app. lia. }
    rewrite Hle.
    rewrite firstn_app, Nat.sub_diag, firstn_all, firstn_O, app_nil_r.
    rewrite skipn_app, Nat.sub_diag, skipn_all. reflexivity.
Qed.

Lemma binary_Read_put_uint32 z r :
  binary_Read (put_uint32 z ++ r) 4 = (inl (uint32 z), r).
Proof.
  unfold binary_Read.
  replace 4%nat with (length (put_uint32 z)) by apply length_le_encode.
  now rewrite ReadFull_app, le_decode_put_uint32.
Qed.

Lemma binary_Read_ignore_put_uint32 z r :
  binary_Read_ignore (put_uint32 z ++ r) 4 = (uint32 z, r).
Proof.
  unfold binary_Read_ignore. now rewrite binary_Read_put_uint32.
Qed.

Lemma binary_Read_put_int64 z r :
  binary_Read (put_int64 z ++ r) 8 = (inl (uint64 z), r).
Proof.
  unfold binary_Read.
  replace 8%nat with (length (put_int64 z)) by apply length_le_encode.
  now rewrite ReadFull_app, le_decode_put_int64.
Qed.

Lemma fill_buffer_app bs r :
  fill_buffer (bs ++ r) (length bs) = (bs, r).
Proof.
  unfold fill_buffer. rewrite ReadFull_app.
  now rewrite Nat.sub_diag, app_nil_r.
Qed.

Lemma fill_buffer_all bs :
  fill_buffer bs (length bs) = (bs, []).
Proof.
  rewrite <- (app_nil_r bs) at 1. apply fill_buffer_app.
Qed.

Lemma len_nonneg {A} (s : list A) : 0 <= len s.
Proof. unfold len; lia. Qed.

Lemma len_app {A} (s t : list A) : len (s ++ t) = len s + len t.
Proof. unfold len. rewrite length_app. lia. Qed.

(* ================================================================== *)
(** * Operation-stream codec *)

Lemma decode_entry_encode p r :
  wf_patch p -> decode_entry (encode_entry p ++ r) = Ret (inl (r, p)).
Proof.
  intros (Hoff & Hlen & Hdata).
  unfold encode_entry. rewrite <- !app_assoc. cbn [app].
  unfold decode_entry.
  rewrite binary_Read_put_int64, binary_Read_put_int64.
  rewrite !wrap64_uint64 by assumption.
  destruct p as [op off ln data]; cbn [Op Offset Length Data] in *.
  destruct (carries_data op).
  - destruct Hdata as (-> & Hfit). pose proof (len_nonneg data) as Hn.
    unfold go_slice in Hfit.
    destruct (Z.ltb_spec (len data) 0) as [Hneg|_]; [lia|].
    destruct (Z.gtb_spec (len data) maxAlloc) as [Hbig|_]; [lia|].
    cbn [orb]. unfold len. rewrite Nat2Z.id, ReadFull_app. reflexivity.
  - subst data. reflexivity.
Qed.

Lemma decode_loop_cons fuel b r p :
  decode_loop (S fuel) (b :: r) p =
  (res <- decode_entry (b :: r) ;;
   match res with
   | inr e => Ret (p, Some e)
   | inl (r', entry) => decode_loop fuel r' (p ++ [entry])
   end).
Proof. reflexivity. Qed.

Lemma encode_entry_cons p :
  exists tl, encode_entry p = Op p :: tl /\ (16 <= length tl)%nat.
Proof.
  unfold encode_entry. eexists; split; [reflexivity|].
  rewrite !length_app. unfold put_int64. rewrite !length_le_encode. lia.
Qed.

Lemma decode_loop_encode ps : forall fuel acc,
  Forall wf_patch ps -> (length ps <= fuel)%nat ->
  decode_loop fuel (EncodePatch ps) acc = Ret (acc ++ ps, None).
Proof.
  induction ps as [|p ps IH]; intros fuel acc Hwf Hfuel.
  - destruct fuel; cbn; now rewrite app_nil_r.
  - inversion Hwf as [|? ? Hp Hps]; subst.
    destruct fuel as [|fuel]; [cbn in Hfuel; lia|].
    change (EncodePatch (p :: ps)) with (encode_entry p ++ EncodePatch ps).
    destruct (encode_entry_cons p) as (tl & Etl & _).
    pose proof (decode_entry_encode p (EncodePatch ps) Hp) as Hd.
    rewrite Etl in *. cbn [app] in *.
    rewrite decode_loop_cons, Hd. cbn [bind].
    rewrite IH by (auto; cbn in Hfuel; lia).
    now rewrite <- app_assoc.
Qed.

Lemma length_EncodePatch_ge ps : (length ps <= length (EncodePatch ps))%nat.
Proof.
  induction ps as [|p ps IH]; [cbn; lia|].
  change (EncodePatch (p :: ps)) with (encode_entry p ++ EncodePatch ps).
  destruct (encode_entry_cons p) as (tl & Etl & _).
  rewrite Etl, length_app. cbn [length]. lia.
Qed.

Lemma DecodePatch_EncodePatch ps :
  Forall wf_patch ps -> DecodePatch (EncodePatch ps) = Ret (ps, None).
Proof.
  intros Hwf. unfold DecodePatch.
  now rewrite decode_loop_encode by (auto using length_EncodePatch_ge).
Qed.

(** The loop of [DecodePatch] shortens the reader at every turn, so the
    fuel it is started with is never used up. *)
Lemma ReadFull_length r n bs r' e :
  ReadFull r n = (bs, r', e) -> (length r' <= length r)%nat.
Proof.
  unfold ReadFull. destruct n as [|n].
  - intros [= _ <- _]; lia.
  - destruct (S n <=? length r)%nat.
    + intros H. assert (Hr : r' = skipn (S n) r) by now inversion H.
      subst r'. rewrite length_skipn. lia.
    + intros [= _ <- _]. cbn. lia.
Qed.

Lemma binary_Read_length r w v r' :
  binary_Read r w = (v, r') -> (length r' <= length r)%nat.
Proof.
  unfold binary_Read.
  destruct (ReadFull r w) as [[bs r0] [e|]] eqn:E;
    intros H; inversion H; subst; eapply ReadFull_length; eauto.
Qed.

Lemma decode_entry_shortens r r' entry :
  decode_entry r = Ret (inl (r', entry)) -> (length r' < length r)%nat.
Proof.
  unfold decode_entry. destruct r as [|b r1]; [discriminate|].
  destruct (binary_Read r1 8) as [[uoff|e] r2] eqn:E1; [|discriminate].
  destruct (binary_Read r2 8) as [[ulen|e] r3] eqn:E2; [|discriminate].
  apply binary_Read_length in E1, E2.
  destruct (carries_data b).
  - destruct ((wrap64 ulen <? 0) || (wrap64 ulen >? maxAlloc)); [discriminate|].
    destruct (ReadFull r3 (Z.to_nat (wrap64 ulen))) as [[data r4] [e|]] eqn:E3;
      [discriminate|].
    apply ReadFull_length in E3.
    intros H; inversion H; subst. cbn [length]. lia.
  - intros H; inversion H; subst. cbn [length]. lia.
Qed.

Lemma decode_loop_fuel fuel : forall r acc,
  (length r <= fuel)%nat -> decode_loop fuel r acc <> OutOfFuel.
Proof.
  induction fuel as [|fuel IH]; intros r acc Hlen.
  - destruct r; [discriminate|cbn in Hlen; lia].
  - destruct r as [|b r]; [discriminate|].
    rewrite decode_loop_cons.
    destruct (decode_entry (b :: r)) as [[[r' entry]|e]| |] eqn:E; cbn [bind];
      try discriminate.
    + apply IH. apply decode_entry_shortens in E. lia.
    + exfalso. revert E. unfold decode_entry.
      destruct (binary_Read r 8) as [[uoff|e] r2]; [|discriminate].
      destruct (binary_Read r2 8) as [[ulen|e] r3]; [|discriminate].
      destruct (carries_data b); [|discriminate].
      destruct ((wrap64 ulen <? 0) || (wrap64 ulen >? maxAlloc)); [discriminate|].
      destruct (ReadFull r3 (Z.to_nat (wrap64 ulen))) as [[data r4] [e|]];
        discriminate.
Qed.

Lemma DecodePatch_fuel b : DecodePatch b <> OutOfFuel.
Proof. unfold DecodePatch. apply decode_loop_fuel. lia. Qed.

(* ================================================================== *)
(** * Container codec *)

Lemma uint32_small z : 0 <= z < 2 ^ 32 -> uint32 z = z.
Proof. unfold uint32; intros; now rewrite Z.mod_small. Qed.

Lemma uint32_idem z : uint32 (uint32 z) = uint32 z.
Proof. unfold uint32. now rewrite Z.mod_mod by lia. Qed.

(** Decoding an encoded container recovers the header; the payload handed
    to [DecodePatch] is the first [diff_len] bytes of the operation stream,
    where [diff_len] is the stream's length reduced to 32 bits. *)
Lemma DecodeDiffFile_EncodeDiffFile df :
  header_ok df ->
  DecodeDiffFile (EncodeDiffFile df) =
  (let diffBytes := EncodePatch (types.Diff df) in
   let n := uint32 (len diffBytes) in
   '(patch, err) <- DecodePatch (fst (fill_buffer diffBytes (Z.to_nat n))) ;;
   match err with
   | Some e => Ret (with_payload df n [], Some e)
   | None => Ret (with_payload df n patch, None)
   end).
Proof.
  intros (Hm & Hv & Hon & Honl & Hnn & Hnnl & Hos & Hns & Hoh & Hnh & Hsh).
  unfold DecodeDiffFile, EncodeDiffFile, with_payload.
  rewrite binary_Read_ignore_put_uint32, (uint32_small _ Hm).
  rewrite binary_Read_ignore_put_uint32, (uint32_small _ Hv).
  rewrite binary_Read_ignore_put_uint32.
  rewrite (uint32_small (OldFileNameLength df)) by (rewrite Hon; pose proof (len_nonneg (FileName df)); lia).
  replace (Z.to_nat (OldFileNameLength df)) with (length (FileName df))
    by (rewrite Hon; unfold len; now rewrite Nat2Z.id).
  rewrite fill_buffer_app.
  rewrite binary_Read_ignore_put_uint32.
  rewrite (uint32_small (NewFileNameLength df)) by (rewrite Hnn; pose proof (len_nonneg (NewFileName df)); lia).
  replace (Z.to_nat (NewFileNameLength df)) with (length (NewFileName df))
    by (rewrite Hnn; unfold len; now rewrite Nat2Z.id).
  rewrite fill_buffer_app.
  rewrite binary_Read_ignore_put_uint32, (uint32_small _ Hos).
  rewrite binary_Read_ignore_put_uint32, (uint32_small _ Hns).
  rewrite <- Hoh at 1. rewrite fill_buffer_app.
  rewrite <- Hnh at 1. rewrite fill_buffer_app.
  unfold put_int32. fold (put_uint32 (ShiftOffset df)).
  rewrite binary_Read_ignore_put_uint32, (wrap32_uint32 _ Hsh).
  cbv zeta.
  rewrite binary_Read_ignore_put_uint32, uint32_idem.
  destruct (fill_buffer (EncodePatch (types.Diff df))
              (Z.to_nat (uint32 (len (EncodePatch (types.Diff df)))))) as [diffData r'].
  cbn [fst]. reflexivity.
Qed.

(* ================================================================== *)
(** * Lists and slices *)

Lemma firstn_extend {A} (l : list A) : forall i m,
  firstn i l ++ firstn m (skipn i l) = firstn (i + m) l.
Proof.
  induction l as [|a l IH]; intros i m.
  - now rewrite skipn_nil, !firstn_nil.
  - destruct i as [|i]; [reflexivity|].
    cbn [firstn skipn Nat.add app]. now rewrite IH.
Qed.

Lemma window_ext (l l' : list byte) (i m : nat) :
  (i + m <= length l)%nat -> (i + m <= length l')%nat ->
  (forall k, (i <= k < i + m)%nat -> at_index l k = at_index l' k) ->
  firstn m (skipn i l) = firstn m (skipn i l').
Proof.
  intros Hl Hl' Hk.
  apply (nth_ext _ _ x00 x00).
  - rewrite !length_firstn, !length_skipn. lia.
  - intros n Hn. rewrite length_firstn, length_skipn in Hn.
    rewrite !nth_firstn, !nth_skipn.
    destruct (Nat.ltb_spec n m); [|reflexivity].
    apply Hk. lia.
Qed.

Lemma slice_ok s (lo hi : nat) :
  (lo <= hi)%nat -> (hi <= length s)%nat ->
  slice s (Z.of_nat lo) (Z.of_nat hi) = Ret (firstn (hi - lo) (skipn lo s)).
Proof.
  intros H1 H2. unfold slice, len.
  destruct (Z.leb_spec 0 (Z.of_nat lo)); [|lia].
  destruct (Z.leb_spec (Z.of_nat lo) (Z.of_nat hi)); [|lia].
  destruct (Z.leb_spec (Z.of_nat hi) (Z.of_nat (length s))); [|lia].
  cbn [andb]. rewrite <- Nat2Z.inj_sub, !Nat2Z.id by lia. reflexivity.
Qed.

Lemma len_window (s : list byte) (lo hi : nat) :
  (lo <= hi)%nat -> (hi <= length s)%nat ->
  len (firstn (hi - lo) (skipn lo s)) = Z.of_nat hi - Z.of_nat lo.
Proof.
  intros H1 H2. unfold len. rewrite length_firstn, length_skipn. lia.
Qed.

(* ================================================================== *)
(** * The scan of the reference differ *)

Section Scan.

Variables oldData newData : list byte.
Variable minLen : nat.

(** The inner loop stops at the end of the maximal run that starts at [i]. *)
Lemma advance_spec same : forall fuel i,
  (minLen - i <= fuel)%nat -> (i <= minLen)%nat ->
  let i' := advance fuel same oldData newData minLen i in
  (i <= i' <= minLen)%nat /\
  (forall k, (i <= k < i')%nat ->
             Byte.eqb (at_index oldData k) (at_index newData k) = same) /\
  ((i' < minLen)%nat ->
   Byte.eqb (at_index oldData i') (at_index newData i') = negb same).
Proof.
  induction fuel as [|fuel IH]; intros i Hfuel Hi; cbn [advance].
  - repeat split; try lia.
  - destruct (Nat.ltb_spec i minLen) as [Hlt|Hge]; cbn [andb].
    + destruct (Bool.eqb (Byte.eqb (at_index oldData i) (at_index newData i)) same)
        eqn:E.
      * apply Bool.eqb_prop in E.
        destruct (IH (S i) ltac:(lia) ltac:(lia)) as (Hr & Hrun & Hstop).
        repeat split; try lia; [|exact Hstop].
        intros k Hk. destruct (Nat.eq_dec k i) as [->|Hne]; [exact E|].
        apply Hrun. lia.
      * repeat split; try lia.
        intros _.
        destruct (Byte.eqb (at_index oldData i) (at_index newData i)), same;
          cbn in *; congruence.
    + repeat split; try lia.
Qed.

(** A run that starts where the guard of the inner loop holds is not empty. *)
Lemma advance_progress same i :
  (i < minLen)%nat ->
  Byte.eqb (at_index oldData i) (at_index newData i) = same ->
  (i < advance (minLen - i) same oldData newData minLen i)%nat.
Proof.
  intros Hi Hsame.
  destruct (advance_spec same (minLen - i) i ltac:(lia) ltac:(lia))
    as (Hr & _ & Hstop).
  destruct (Nat.eq_dec (advance (minLen - i) same oldData newData minLen i) i)
    as [E|]; [|lia].
  rewrite E in Hstop. specialize (Hstop Hi).
  rewrite Hsame in Hstop. destruct same; discriminate.
Qed.

Hypothesis minLen_old : (minLen <= length oldData)%nat.
Hypothesis minLen_new : (minLen <= length newData)%nat.

Lemma diff_tail_returns : exists tl, diff_tail oldData newData minLen = Ret tl.
Proof.
  unfold diff_tail.
  destruct (minLen <? length newData)%nat.
  - unfold len. rewrite slice_ok by lia. cbn [bind]. eauto.
  - destruct (minLen <? length oldData)%nat; eauto.
Qed.

(** A rule for the outer loop: [Inv i patches] holds whenever the loop is
    at index [i] with [patches] emitted, [Post] of whatever it returns. *)
Variable ctx : Context.
Variable Inv : nat -> list Patch -> Prop.
Variable Post : list Patch -> Prop.

Hypothesis on_cancel : forall i patches,
  ctx_done ctx = true -> Inv i patches -> Post patches.

Hypothesis on_copy : forall i i' patches,
  Inv i patches -> (i < i' <= minLen)%nat ->
  (forall k, (i <= k < i')%nat -> at_index oldData k = at_index newData k) ->
  Inv i' (patches ++ [mkPatch OP_COPY (Z.of_nat i) (Z.of_nat i' - Z.of_nat i) []]).

Hypothesis on_replace : forall i i' patches,
  Inv i patches -> (i < i' <= minLen)%nat ->
  Inv i' (patches ++ [mkPatch OP_REPLACE (Z.of_nat i) (Z.of_nat i' - Z.of_nat i)
                        (firstn (i' - i) (skipn i newData))]).

Hypothesis on_tail : forall patches tl,
  Inv minLen patches -> diff_tail oldData newData minLen = Ret tl ->
  Post (patches ++ tl).

Lemma diff_loop_rule : forall fuel i patches,
  (minLen - i <= fuel)%nat -> (i <= minLen)%nat -> Inv i patches ->
  exists r, diff_loop fuel ctx oldData newData minLen i patches = Ret r /\ Post r.
Proof.
  induction fuel as [|fuel IH]; intros i patches Hfuel Hi HI.
  - assert (i = minLen) by lia; subst i.
    cbn [diff_loop]. rewrite Nat.ltb_irrefl.
    destruct diff_tail_returns as (tl & Etl). rewrite Etl. cbn [bind].
    eauto.
  - cbn [diff_loop].
    destruct (Nat.ltb_spec i minLen) as [Hlt|Hge].
    + destruct (ctx_done ctx) eqn:Ectx; [eauto|].
      destruct (Byte.eqb (at_index oldData i) (at_index newData i)) eqn:Eb.
      * pose proof (advance_progress true i Hlt Eb) as Hprog.
        destruct (advance_spec true (minLen - i) i ltac:(lia) ltac:(lia))
          as (Hr & Hrun & _).
        apply IH; [lia|lia|].
        apply on_copy; [assumption|lia|].
        intros k Hk. apply Byte.byte_dec_bl. now apply Hrun.
      * pose proof (advance_progress false i Hlt Eb) as Hprog.
        destruct (advance_spec false (minLen - i) i ltac:(lia) ltac:(lia))
          as (Hr & _ & _).
        rewrite slice_ok by lia. cbn [bind].
        apply IH; [lia|lia|].
        apply on_replace; [assumption|lia].
    + assert (i = minLen) by lia; subst i.
      destruct diff_tail_returns as (tl & Etl). rewrite Etl. cbn [bind].
      eauto.
Qed.

End Scan.

(* ================================================================== *)
(** * The replay loop *)

Lemma apply_steps_app oldData ps : forall qs st,
  apply_steps oldData (ps ++ qs) st =
  (st' <- apply_steps oldData ps st ;; apply_steps oldData qs st').
Proof.
  induction ps as [|p ps IH]; intros qs st; cbn [app apply_steps bind].
  - reflexivity.
  - destruct (apply_step oldData p st); cbn [bind]; auto.
Qed.

Lemma apply_loop_Background oldData ps : forall st,
  apply_loop oldData Background ps st =
  (st' <- apply_steps oldData ps st ;; apply_finish oldData st').
Proof.
  induction ps as [|p ps IH]; intros st; cbn [apply_loop apply_steps bind ctx_done].
  - reflexivity.
  - destruct (apply_step oldData p st); cbn [bind]; auto.
Qed.

Lemma estimated_size_snoc ps p :
  estimated_size (ps ++ [p]) =
  if produces_output (Op p) then wrap64 (estimated_size ps + Length p)
  else estimated_size ps.
Proof. unfold estimated_size. now rewrite fold_left_app. Qed.

(** One turn of the loop on each kind the differ emits, entered with the
    cursor on the operation's offset. *)
Lemma apply_step_COPY oldData (i i' : nat) out :
  go_slice oldData -> (i < i')%nat -> (i' <= length oldData)%nat ->
  apply_step oldData (mkPatch OP_COPY (Z.of_nat i) (Z.of_nat i' - Z.of_nat i) [])
    (Z.of_nat i, out)
  = Ret (Z.of_nat i', out ++ firstn (i' - i) (skipn i oldData)).
Proof.
  unfold go_slice, maxAlloc, len. intros Hs Hlt Hle.
  unfold apply_step. cbn [Op Offset Length Data].
  destruct (Z.gtb_spec (Z.of_nat i) (len oldData)) as [H|_]; [unfold len in H; lia|].
  destruct (Z.gtb_spec (Z.of_nat i) (Z.of_nat i)) as [H|_]; [lia|].
  cbn [bind]. change (Byte.eqb OP_COPY OP_INSERT) with false.
  change (Byte.eqb OP_COPY OP_REPLACE) with false.
  change (Byte.eqb OP_COPY OP_DELETE) with false.
  change (Byte.eqb OP_COPY OP_COPY) with true. cbn [orb].
  replace (Z.of_nat i + (Z.of_nat i' - Z.of_nat i)) with (Z.of_nat i') by lia.
  rewrite wrap64_id by (unfold in_int64; lia).
  destruct (Z.gtb_spec (Z.of_nat i') (len oldData)) as [H|_]; [unfold len in H; lia|].
  destruct (Z.ltb_spec (Z.of_nat i) (len oldData)) as [_|H]; [|unfold len in H; lia].
  destruct (Z.gtb_spec (Z.of_nat i') (Z.of_nat i)) as [_|H]; [|lia].
  cbn [andb]. rewrite slice_ok by lia. reflexivity.
Qed.

(** Settles the integer tests of a loop body once the facts about the
    operands are in the context. *)
Ltac settle_tests :=
  repeat match goal with
    | |- context [(?a >? ?b)] => destruct (Z.gtb_spec a b); try lia
    | |- context [(?a <? ?b)] => destruct (Z.ltb_spec a b); try lia
    | |- context [(?a <=? ?b)] => destruct (Z.leb_spec a b); try lia
    end.

Lemma apply_step_REPLACE oldData (i i' : nat) data out :
  go_slice oldData -> (i <= i')%nat -> (i' <= length oldData)%nat ->
  apply_step oldData (mkPatch OP_REPLACE (Z.of_nat i) (Z.of_nat i' - Z.of_nat i) data)
    (Z.of_nat i, out)
  = Ret (Z.of_nat i', out ++ data).
Proof.
  unfold go_slice, maxAlloc, len. intros Hs Hlt Hle.
  unfold apply_step, len. cbn [Op Offset Length Data].
  settle_tests. cbn [bind].
  change (Byte.eqb OP_REPLACE OP_INSERT) with false.
  change (Byte.eqb OP_REPLACE OP_REPLACE) with true. cbv iota.
  replace (Z.of_nat i + (Z.of_nat i' - Z.of_nat i)) with (Z.of_nat i') by lia.
  rewrite wrap64_id by (unfold in_int64; lia). reflexivity.
Qed.

Lemma apply_step_INSERT oldData (i : nat) ln data out :
  (i <= length oldData)%nat ->
  apply_step oldData (mkPatch OP_INSERT (Z.of_nat i) ln data) (Z.of_nat i, out)
  = Ret (Z.of_nat i, out ++ data).
Proof.
  intros Hle. unfold apply_step, len. cbn [Op Offset Length Data].
  settle_tests. reflexivity.
Qed.

Lemma apply_step_DELETE oldData (i i' : nat) out :
  go_slice oldData -> (i <= i')%nat -> (i' <= length oldData)%nat ->
  apply_step oldData (mkPatch OP_DELETE (Z.of_nat i) (Z.of_nat i' - Z.of_nat i) [])
    (Z.of_nat i, out)
  = Ret (Z.of_nat i', out).
Proof.
  unfold go_slice, maxAlloc, len. intros Hs Hlt Hle.
  unfold apply_step, len. cbn [Op Offset Length Data].
  settle_tests. cbn [bind].
  change (Byte.eqb OP_DELETE OP_INSERT) with false.
  change (Byte.eqb OP_DELETE OP_REPLACE) with false.
  change (Byte.eqb OP_DELETE OP_DELETE) with true. cbv iota.
  replace (Z.of_nat i + (Z.of_nat i' - Z.of_nat i)) with (Z.of_nat i') by lia.
  rewrite wrap64_id by (unfold in_int64; lia). reflexivity.
Qed.

(* ================================================================== *)
(** * The reference differ is replayed back to [newData] *)

Section DiffThenApply.

Variables oldData newData : list byte.
Hypothesis old_slice : go_slice oldData.
Hypothesis new_slice : go_slice newData.

Variable minLen : nat.
Hypothesis minLen_def : minLen = Nat.min (length oldData) (length newData).

Lemma scan_inv_snoc i i' patches p :
  scan_inv oldData newData i patches ->
  wf_patch p ->
  apply_step oldData p (Z.of_nat i, firstn i newData)
  = Ret (Z.of_nat i', firstn i' newData) ->
  produces_output (Op p) = true ->
  Length p = Z.of_nat i' - Z.of_nat i ->
  (i' <= length newData)%nat ->
  scan_inv oldData newData i' (patches ++ [p]).
Proof.
  intros (Hwf & Hrun & Hest) Hp Hstep Hout Hsz Hi'.
  unfold go_slice, maxAlloc, len in new_slice.
  repeat split.
  - apply Forall_app; auto.
  - rewrite apply_steps_app, Hrun. cbn [bind apply_steps].
    rewrite Hstep. reflexivity.
  - rewrite estimated_size_snoc, Hest, Hout, Hsz.
    replace (Z.of_nat i + (Z.of_nat i' - Z.of_nat i)) with (Z.of_nat i') by lia.
    apply wrap64_id. unfold in_int64. lia.
Qed.

Lemma scan_inv_COPY i i' patches :
  scan_inv oldData newData i patches -> (i < i' <= minLen)%nat ->
  (forall k, (i <= k < i')%nat -> at_index oldData k = at_index newData k) ->
  scan_inv oldData newData i'
    (patches ++ [mkPatch OP_COPY (Z.of_nat i) (Z.of_nat i' - Z.of_nat i) []]).
Proof.
  intros HI Hi Hrun.
  pose proof old_slice as Ho. unfold go_slice, maxAlloc, len in Ho.
  eapply scan_inv_snoc; eauto; try reflexivity; try lia.
  - repeat split; cbn; lia.
  - rewrite apply_step_COPY by (auto; lia).
    rewrite (window_ext oldData newData i (i' - i)); try lia.
    + rewrite firstn_extend. do 3 f_equal. lia.
    + intros k Hk. apply Hrun. lia.
Qed.

Lemma scan_inv_REPLACE i i' patches :
  scan_inv oldData newData i patches -> (i < i' <= minLen)%nat ->
  scan_inv oldData newData i'
    (patches ++ [mkPatch OP_REPLACE (Z.of_nat i) (Z.of_nat i' - Z.of_nat i)
                   (firstn (i' - i) (skipn i newData))]).
Proof.
  intros HI Hi.
  pose proof old_slice as Ho. unfold go_slice, maxAlloc, len in Ho.
  pose proof new_slice as Hn. unfold go_slice, maxAlloc, len in Hn.
  eapply scan_inv_snoc; eauto; try reflexivity; try lia.
  - repeat split; cbn [Op Offset Length Data carries_data]; try lia.
    + rewrite len_window; lia.
    + unfold go_slice, maxAlloc. rewrite len_window; lia.
  - rewrite apply_step_REPLACE by (auto; lia).
    rewrite firstn_extend. do 3 f_equal. lia.
Qed.

Lemma scan_inv_tail patches tl :
  scan_inv oldData newData minLen patches ->
  diff_tail oldData newData minLen = Ret tl ->
  diff_post oldData newData (patches ++ tl).
Proof.
  intros (Hwf & Hrun & Hest). unfold diff_tail.
  pose proof old_slice as Ho. unfold go_slice, maxAlloc, len in Ho.
  pose proof new_slice as Hn. unfold go_slice, maxAlloc, len in Hn.
  destruct (Nat.ltb_spec minLen (length newData)) as [Hlt|Hge].
  - (* tail INSERT: the old data is the shorter one *)
    assert (Hm : minLen = length oldData) by lia.
    unfold len. rewrite slice_ok by lia. cbn [bind]. intros [= <-].
    repeat split.
    + apply Forall_app; split; [assumption|].
      constructor; [|constructor].
      repeat split; cbn [Op Offset Length Data carries_data]; try lia.
      * rewrite len_window; lia.
      * unfold go_slice, maxAlloc. rewrite len_window; lia.
    + rewrite apply_steps_app, Hrun. cbn [bind apply_steps].
      rewrite apply_step_INSERT by lia. cbn [bind].
      rewrite firstn_extend.
      replace (minLen + (length newData - minLen))%nat with (length newData) by lia.
      rewrite firstn_all. unfold len. now rewrite Hm.
    + rewrite estimated_size_snoc, Hest. cbn [Op Length].
      change (produces_output OP_INSERT) with true. cbv iota.
      unfold len. rewrite wrap64_id by (unfold in_int64; lia). lia.
  - destruct (Nat.ltb_spec minLen (length oldData)) as [Hlt'|Hge'].
    + (* tail DELETE: the new data is the shorter one *)
      assert (Hm : minLen = length newData) by lia.
      intros [= <-]. repeat split.
      * apply Forall_app; split; [assumption|].
        constructor; [|constructor].
        repeat split; cbn [Op Offset Length Data carries_data]; unfold len; try lia.
      * rewrite apply_steps_app, Hrun. cbn [bind apply_steps].
        unfold len. rewrite apply_step_DELETE by (auto; lia). cbn [bind].
        rewrite Hm, firstn_all. reflexivity.
      * rewrite estimated_size_snoc, Hest. cbn [Op Length].
        change (produces_output OP_DELETE) with false. cbv iota.
        unfold len. now rewrite Hm.
    + assert (Hm : minLen = length newData) by lia.
      assert (Hm' : minLen = length oldData) by lia.
      intros [= <-]. rewrite app_nil_r. repeat split; auto.
      * rewrite Hrun. unfold len. rewrite <- Hm'. rewrite Hm at 2.
        now rewrite firstn_all.
      * rewrite Hest. unfold len. now rewrite Hm.
Qed.

Lemma diff_loop_replays :
  exists patches,
    diff_loop minLen Background oldData newData minLen 0 [] = Ret patches /\
    diff_post oldData newData patches.
Proof.
  apply (diff_loop_rule oldData newData minLen ltac:(lia) ltac:(lia) Background
           (scan_inv oldData newData) (diff_post oldData newData)).
  - discriminate.
  - apply scan_inv_COPY.
  - apply scan_inv_REPLACE.
  - apply scan_inv_tail.
  - lia.
  - lia.
  - repeat split; constructor.
Qed.

End DiffThenApply.

Lemma sequentialDiff_minLen (oldData newData : list byte) :
  (if (length newData <? length oldData)%nat then length newData else length oldData)
  = Nat.min (length oldData) (length newData).
Proof. destruct (Nat.ltb_spec (length newData) (length oldData)); lia. Qed.

(** The reference differ returns, its operations are well formed, and the
    replay loop turns them back into [newData]. *)
Lemma sequentialDiff_replays oldData newData cfg progress :
  go_slice oldData -> go_slice newData ->
  exists patches,
    sequentialDiff oldData newData (mkDiffOptions cfg progress Background) = Ret patches /\
    diff_post oldData newData patches.
Proof.
  intros Ho Hn. unfold sequentialDiff. cbn [diff_Context].
  rewrite sequentialDiff_minLen.
  now apply diff_loop_replays.
Qed.

Lemma ApplyPatchWithOptions_diff_post oldData newData patches cfg progress verify :
  go_slice newData ->
  diff_post oldData newData patches ->
  ApplyPatchWithOptions oldData patches
    (Some (mkApplyOptions cfg progress Background verify)) = Ret newData.
Proof.
  intros Hfit (_ & Hrun & Hest). unfold go_slice in Hfit.
  unfold ApplyPatchWithOptions, make_empty_with_cap. cbn [apply_Context].
  rewrite Hest.
  destruct (Z.ltb_spec (len newData) 0) as [H|_];
    [pose proof (len_nonneg newData); lia|].
  destruct (Z.gtb_spec (len newData) maxAlloc) as [H|_]; [lia|].
  cbn [orb bind]. rewrite apply_loop_Background, Hrun. cbn [bind].
  unfold apply_finish. rewrite Z.ltb_irrefl. reflexivity.
Qed.

(* ================================================================== *)
(** * Round trip through the container *)

(** Decoding the encoded container of a well-formed operation list whose
    stream is shorter than [2^32] bytes gives the list back. *)
Lemma DecodeDiffFile_EncodeDiffFile_small df :
  header_ok df -> Forall wf_patch (types.Diff df) ->
  len (EncodePatch (types.Diff df)) < 2 ^ 32 ->
  DecodeDiffFile (EncodeDiffFile df) =
  Ret (with_payload df (len (EncodePatch (types.Diff df))) (types.Diff df), None).
Proof.
  intros Hh Hwf Hlen.
  rewrite DecodeDiffFile_EncodeDiffFile by assumption. cbv zeta.
  rewrite uint32_small by (pose proof (len_nonneg (EncodePatch (types.Diff df))); lia).
  unfold len at 1. rewrite Nat2Z.id, fill_buffer_all. cbn [fst].
  rewrite DecodePatch_EncodePatch by assumption. reflexivity.
Qed.

(** When the stream is exactly [2^32] bytes long the length field reads
    zero and the decoder returns an empty operation list. *)
Lemma DecodeDiffFile_EncodeDiffFile_wrapped df :
  header_ok df ->
  len (EncodePatch (types.Diff df)) = 2 ^ 32 ->
  DecodeDiffFile (EncodeDiffFile df) = Ret (with_payload df 0 [], None).
Proof.
  intros Hh Hlen.
  rewrite DecodeDiffFile_EncodeDiffFile by assumption. cbv zeta.
  rewrite Hlen. change (uint32 (2 ^ 32)) with 0. reflexivity.
Qed.

Lemma slice_all s : slice s 0 (len s) = Ret s.
Proof.
  unfold slice. pose proof (len_nonneg s).
  settle_tests. cbn [andb]. rewrite Z.sub_0_r. unfold len.
  now rewrite Nat2Z.id, firstn_all.
Qed.

(** The differ on an empty [oldData]: one INSERT carrying all of [newData]. *)
Lemma sequentialDiff_old_empty newData options :
  newData <> [] ->
  sequentialDiff [] newData options
  = Ret [mkPatch OP_INSERT 0 (len newData) newData].
Proof.
  intros Hne. destruct newData as [|b tl]; [congruence|].
  unfold sequentialDiff. cbn [length Nat.ltb Nat.leb diff_loop].
  unfold diff_tail. cbn [length Nat.ltb Nat.leb].
  change (Z.of_nat 0) with 0. rewrite slice_all. cbn [bind app].
  now rewrite Z.sub_0_r.
Qed.

Lemma len_EncodePatch_single p :
  len (EncodePatch [p]) =
  17 + (if carries_data (Op p) then len (Data p) else 0).
Proof.
  unfold EncodePatch. cbn [flat_map]. rewrite app_nil_r.
  unfold encode_entry. rewrite !len_app.
  unfold len at 1 2 3. unfold put_int64. rewrite !length_le_encode.
  destruct (carries_data (Op p)); cbn [length]; unfold len; cbn [length]; lia.
Qed.

(** With an empty [A] and a [B] of [2^32 - 17] bytes the pipeline returns
    the empty sequence. *)
Lemma pipeline_wrapped hdr B dcfg dprogress acfg aprogress verify :
  header_ok hdr -> len B = 2 ^ 32 - 17 ->
  diff_encode_decode_apply hdr [] B
    (mkDiffOptions dcfg dprogress Background)
    (mkApplyOptions acfg aprogress Background verify)
  = Ret (inl []).
Proof.
  intros Hh HB. unfold diff_encode_decode_apply.
  rewrite sequentialDiff_old_empty
    by (intros ->; cbn in HB; lia).
  cbn [bind].
  rewrite DecodeDiffFile_EncodeDiffFile_wrapped.
  - reflexivity.
  - exact Hh.
  - cbn [types.Diff]. rewrite len_EncodePatch_single. cbn [Op Data].
    change (carries_data OP_INSERT) with true. cbv iota. lia.
Qed.

(** C1, as amended. For byte slices [A] and [B] and a container header
    whose length fields and digests are consistent, the reference differ
    returns an operation list; when the encoding of that list is shorter
    than [2^32] bytes, encoding the container, decoding it and replaying
    the decoded operations on [A] gives exactly [B]. *)
Theorem roundtrip_reference_differ
  (hdr : DiffFile) (A B : list byte)
  (dcfg : Config) (dprogress : bool) (acfg : Config) (aprogress verify : bool) :
  go_slice A -> go_slice B -> header_ok hdr ->
  exists patches,
    sequentialDiff A B (mkDiffOptions dcfg dprogress Background) = Ret patches /\
    (len (EncodePatch patches) < 2 ^ 32 ->
     diff_encode_decode_apply hdr A B
       (mkDiffOptions dcfg dprogress Background)
       (mkApplyOptions acfg aprogress Background verify)
     = Ret (inl B)).
Proof.
  intros HA HB Hh.
  destruct (sequentialDiff_replays A B dcfg dprogress HA HB) as (patches & Ediff & Hpost).
  exists patches. split; [exact Ediff|]. intros Hlen.
  unfold diff_encode_decode_apply. rewrite Ediff. cbn [bind].
  rewrite DecodeDiffFile_EncodeDiffFile_small;
    [|exact Hh|exact (proj1 Hpost)|exact Hlen].
  unfold with_payload. cbn [bind types.Diff].
  rewrite (ApplyPatchWithOptions_diff_post A B) by assumption.
  reflexivity.
Qed.

Lemma roundtrip_reference_differ_witness :
  diff_encode_decode_apply fox_header fox_old fox_new
    (mkDiffOptions DefaultConfig false Background)
    (mkApplyOptions DefaultConfig false Background true)
  = Ret (inl fox_new).
Proof.
  destruct (roundtrip_reference_differ fox_header fox_old fox_new
              DefaultConfig false DefaultConfig false true)
    as (patches & Ediff & Hrt).
  - unfold go_slice. vm_compute. discriminate.
  - unfold go_slice. vm_compute. discriminate.
  - unfold header_ok. vm_compute. intuition congruence.
  - apply Hrt. vm_compute in Ediff. injection Ediff as <-.
    vm_compute. reflexivity.
Defined.

Lemma header_ok_runDiff_header oldName newName oldData newData oldHash newHash offset :
  len oldName < 2 ^ 32 -> len newName < 2 ^ 32 ->
  length oldHash = 32%nat -> length newHash = 32%nat ->
  - 2 ^ 31 <= offset < 2 ^ 31 ->
  header_ok (runDiff_header oldName newName oldData newData oldHash newHash offset).
Proof.
  intros Ho Hn Hoh Hnh Hoff.
  pose proof (len_nonneg oldName). pose proof (len_nonneg newName).
  unfold header_ok, runDiff_header.
  cbn [MagicNumber Version OldFileNameLength FileName NewFileNameLength
       NewFileName OldSize NewSize OldHash NewHash ShiftOffset].
  rewrite !uint32_small by lia.
  unfold uint32, PATCH_MAGIC, PATCH_VERSION.
  pose proof (Z.mod_pos_bound (len oldData) (2 ^ 32) ltac:(lia)).
  pose proof (Z.mod_pos_bound (len newData) (2 ^ 32) ltac:(lia)).
  repeat split; try assumption; try lia.
Qed.

Lemma pipeline_wrapped_differs hdr B dcfg dprogress acfg aprogress verify :
  header_ok hdr -> len B = 2 ^ 32 - 17 ->
  diff_encode_decode_apply hdr [] B
    (mkDiffOptions dcfg dprogress Background)
    (mkApplyOptions acfg aprogress Background verify)
  <> Ret (inl B).
Proof.
  intros Hh HB. rewrite pipeline_wrapped by assumption.
  intros E. assert (EB : B = []) by congruence.
  rewrite EB in HB. cbn in HB. lia.
Qed.

(** C1 as stated fails. [A] is empty and [B] is [2^32 - 17] zero bytes; the
    differ emits one INSERT whose encoding is [2^32] bytes long, the length
    field of the container wraps to zero, the decoder returns no operation
    and the replay returns the empty sequence. *)
Lemma roundtrip_reference_differ_counterexample :
  go_slice [] /\ go_slice four_GiB_new /\ header_ok four_GiB_header /\
  diff_encode_decode_apply four_GiB_header [] four_GiB_new
    (mkDiffOptions DefaultConfig false Background)
    (mkApplyOptions DefaultConfig false Background true)
  <> Ret (inl four_GiB_new).
Proof.
  assert (HlenB : len four_GiB_new = 2 ^ 32 - 17).
  { unfold four_GiB_new, len. rewrite repeat_length. lia. }
  assert (Hh : header_ok four_GiB_header).
  { apply header_ok_runDiff_header; try reflexivity; cbn; lia. }
  split; [unfold go_slice, maxAlloc; cbn; lia|].
  split; [unfold go_slice, maxAlloc; rewrite HlenB; lia|].
  split; [exact Hh|].
  apply pipeline_wrapped_differs; assumption.
Qed.

(* ================================================================== *)
(** * Patch optimizer *)

(** Whether [current] absorbs [next] is decided by the kinds of the two
    operations, the end of [current] and the offset of [next]. *)
Lemma merge_insert_head current next next' :
  Op next' = Op next -> Offset next' = Offset next ->
  merge_insert current next' = merge_insert current next.
Proof. unfold merge_insert. now intros -> ->. Qed.

Lemma merge_copy_head current next next' :
  Op next' = Op next -> Offset next' = Offset next ->
  merge_copy current next' = merge_copy current next.
Proof. unfold merge_copy. now intros -> ->. Qed.

(** The first operation of the result has the kind and the offset of
    [current]. *)
Lemma optimize_from_head rest : forall current,
  exists h t, optimize_from current rest = h :: t /\
              Op h = Op current /\ Offset h = Offset current.
Proof.
  induction rest as [|next rest IH]; intros current; cbn [optimize_from].
  - eauto.
  - destruct (merge_insert current next).
    + destruct (IH (mkPatch (Op current) (Offset current)
                      (wrap64 (Length current + Length next))
                      (Data current ++ Data next))) as (h & t & E & Ho & Hf).
      eauto.
    + destruct (merge_copy current next).
      * destruct (IH (mkPatch (Op current) (Offset current)
                        (wrap64 (Length current + Length next))
                        (Data current))) as (h & t & E & Ho & Hf).
        eauto.
      * eauto.
Qed.

(** A second pass over the result of a pass merges nothing. *)
Lemma optimize_from_fixed rest : forall current h t,
  optimize_from current rest = h :: t ->
  optimize_from h t = h :: t.
Proof.
  induction rest as [|next rest IH]; intros current h t; cbn [optimize_from].
  - intros [= <- <-]. reflexivity.
  - destruct (merge_insert current next) eqn:Ei; [apply IH|].
    destruct (merge_copy current next) eqn:Ec; [apply IH|].
    intros [= <- <-].
    destruct (optimize_from_head rest next) as (h' & t' & E & Ho & Hf).
    rewrite E. cbn [optimize_from].
    rewrite (merge_insert_head current next h' Ho Hf), Ei.
    rewrite (merge_copy_head current next h' Ho Hf), Ec.
    f_equal. apply (IH next). exact E.
Qed.

(** C5. The patch optimizer is idempotent: optimizing an optimized list
    returns it unchanged. *)
Theorem OptimizePatches_idempotent (patches : list Patch) :
  OptimizePatches (OptimizePatches patches) = OptimizePatches patches.
Proof.
  unfold OptimizePatches at 2.
  destruct (length patches <=? 1)%nat eqn:Elen.
  - unfold OptimizePatches. now rewrite Elen.
  - destruct patches as [|first rest]; [reflexivity|].
    destruct (optimize_from_head rest first) as (h & t & E & _ & _).
    rewrite E. unfold OptimizePatches. rewrite Elen, E.
    destruct (length (h :: t) <=? 1)%nat; [reflexivity|].
    now apply (optimize_from_fixed rest first).
Qed.

(* ================================================================== *)
(** * Order of the offsets *)

Lemma offsets_increasing_cons p q rest :
  offsets_increasing (p :: q :: rest) = true <->
  Offset p < Offset q /\ offsets_increasing (q :: rest) = true.
Proof.
  cbn [offsets_increasing]. rewrite andb_true_iff, Z.ltb_lt. reflexivity.
Qed.

Lemma offsets_increasing_snoc ps : forall q,
  offsets_increasing ps = true ->
  Forall (fun p => Offset p < Offset q) ps ->
  offsets_increasing (ps ++ [q]) = true.
Proof.
  induction ps as [|p ps IH]; intros q Hinc Hall; [reflexivity|].
  inversion Hall as [|? ? Hp Hps]; subst.
  destruct ps as [|p' ps].
  - cbn. rewrite andb_true_r. now apply Z.ltb_lt.
  - apply offsets_increasing_cons in Hinc as (Hlt & Hinc).
    change ((p :: p' :: ps) ++ [q]) with (p :: p' :: (ps ++ [q])).
    apply offsets_increasing_cons. split; [exact Hlt|].
    now apply (IH q).
Qed.

(** Replacing the first operation by one with the same offset, and
    dropping the second, keeps the order. *)
Lemma offsets_increasing_absorb p p' q rest :
  Offset p' = Offset p ->
  offsets_increasing (p :: q :: rest) = true ->
  offsets_increasing (p' :: rest) = true.
Proof.
  intros Ho Hinc. apply offsets_increasing_cons in Hinc as (Hlt & Hinc).
  destruct rest as [|r rest]; [reflexivity|].
  apply offsets_increasing_cons in Hinc as (Hlt' & Hinc).
  apply offsets_increasing_cons. split; [lia|exact Hinc].
Qed.

Lemma optimize_from_increasing rest : forall current,
  offsets_increasing (current :: rest) = true ->
  offsets_increasing (optimize_from current rest) = true.
Proof.
  induction rest as [|next rest IH]; intros current Hinc; cbn [optimize_from].
  - reflexivity.
  - destruct (merge_insert current next).
    + apply IH. eapply offsets_increasing_absorb; [|exact Hinc]. reflexivity.
    + destruct (merge_copy current next).
      * apply IH. eapply offsets_increasing_absorb; [|exact Hinc]. reflexivity.
      * apply offsets_increasing_cons in Hinc as (Hlt & Hinc).
        destruct (optimize_from_head rest next) as (h & t & E & _ & Hf).
        specialize (IH next Hinc). rewrite E in *.
        apply offsets_increasing_cons. split; [lia|exact IH].
Qed.

Lemma OptimizePatches_increasing patches :
  offsets_increasing patches = true ->
  offsets_increasing (OptimizePatches patches) = true.
Proof.
  intros Hinc. unfold OptimizePatches.
  destruct (length patches <=? 1)%nat; [exact Hinc|].
  destruct patches as [|first rest]; [reflexivity|].
  now apply optimize_from_increasing.
Qed.

(** The reference differ returns under either state of the context, and
    the offsets of what it returns increase strictly. *)
Lemma sequentialDiff_increasing oldData newData options :
  exists patches,
    sequentialDiff oldData newData options = Ret patches /\
    offsets_increasing patches = true.
Proof.
  unfold sequentialDiff. rewrite sequentialDiff_minLen.
  set (minLen := Nat.min (length oldData) (length newData)).
  apply (diff_loop_rule oldData newData minLen ltac:(lia) ltac:(lia)
           (diff_Context options)
           (fun i patches =>
              offsets_increasing patches = true /\
              Forall (fun p => Offset p < Z.of_nat i) patches)
           (fun patches => offsets_increasing patches = true)).
  - intros i patches _ (Hinc & _). exact Hinc.
  - intros i i' patches (Hinc & Hall) Hi _. split.
    + apply offsets_increasing_snoc; [exact Hinc|exact Hall].
    + apply Forall_app. split.
      * eapply Forall_impl; [|exact Hall]. cbn. intros; lia.
      * constructor; [cbn; lia|constructor].
  - intros i i' patches (Hinc & Hall) Hi. split.
    + apply offsets_increasing_snoc; [exact Hinc|exact Hall].
    + apply Forall_app. split.
      * eapply Forall_impl; [|exact Hall]. cbn. intros; lia.
      * constructor; [cbn; lia|constructor].
  - intros patches tl (Hinc & Hall). unfold diff_tail.
    destruct (minLen <? length newData)%nat.
    + destruct (slice newData (Z.of_nat minLen) (len newData)); cbn [bind];
        try discriminate.
      intros [= <-]. apply offsets_increasing_snoc; [exact Hinc|exact Hall].
    + destruct (minLen <? length oldData)%nat; intros [= <-].
      * apply offsets_increasing_snoc; [exact Hinc|exact Hall].
      * now rewrite app_nil_r.
  - lia.
  - lia.
  - split; [reflexivity|constructor].
Qed.

(** C6. For every pair of inputs the reference differ emits a list whose
    offsets increase strictly, and the optimizer keeps every list with
    strictly increasing offsets strictly increasing, the differ's list in
    particular. *)
Theorem differ_offsets_strictly_increasing
  (oldData newData : list byte) (options : DiffOptions) :
  exists patches,
    sequentialDiff oldData newData options = Ret patches /\
    offsets_increasing patches = true /\
    offsets_increasing (OptimizePatches patches) = true /\
    (forall others : list Patch,
       offsets_increasing others = true ->
       offsets_increasing (OptimizePatches others) = true).
Proof.
  destruct (sequentialDiff_increasing oldData newData options)
    as (patches & E & Hinc).
  exists patches. repeat split; auto using OptimizePatches_increasing.
Qed.

(** ** Idempotence whatever the data bytes are *)

Lemma merge_insert_shape p q p' q' :
  shape p = shape p' -> shape q = shape q' ->
  merge_insert p q = merge_insert p' q'.
Proof. unfold shape, merge_insert. intros [= -> -> ->] [= -> -> _]. reflexivity. Qed.

Lemma merge_copy_shape p q p' q' :
  shape p = shape p' -> shape q = shape q' ->
  merge_copy p q = merge_copy p' q'.
Proof. unfold shape, merge_copy. intros [= -> -> ->] [= -> -> _]. reflexivity. Qed.

Lemma no_merge_cons p q rest :
  no_merge (p :: q :: rest) =
  negb (merge_insert p q) && negb (merge_copy p q) && no_merge (q :: rest).
Proof. reflexivity. Qed.

Lemma no_merge_shape l : forall l',
  map shape l = map shape l' -> no_merge l = no_merge l'.
Proof.
  induction l as [|p l IH]; intros [|p' l'] E; try discriminate; [reflexivity|].
  cbn [map] in E.
  assert (Ep : shape p = shape p') by congruence.
  assert (El : map shape l = map shape l') by congruence.
  destruct l as [|q l], l' as [|q' l']; try discriminate; [reflexivity|].
  assert (Eq : shape q = shape q') by (cbn [map] in El; congruence).
  rewrite !no_merge_cons.
  rewrite (merge_insert_shape p q p' q' Ep Eq), (merge_copy_shape p q p' q' Ep Eq).
  f_equal. now apply IH.
Qed.

Lemma optimize_from_no_merge rest : forall current,
  no_merge (optimize_from current rest) = true.
Proof.
  induction rest as [|next rest IH]; intros current; cbn [optimize_from].
  - reflexivity.
  - destruct (merge_insert current next) eqn:Ei; [apply IH|].
    destruct (merge_copy current next) eqn:Ec; [apply IH|].
    destruct (optimize_from_head rest next) as (h & t & E & Ho & Hf).
    specialize (IH next). rewrite E in *. rewrite no_merge_cons.
    rewrite (merge_insert_head current next h Ho Hf), Ei.
    rewrite (merge_copy_head current next h Ho Hf), Ec.
    exact IH.
Qed.

Lemma no_merge_fixed t : forall h,
  no_merge (h :: t) = true -> optimize_from h t = h :: t.
Proof.
  induction t as [|q t IH]; intros h Hn; [reflexivity|].
  rewrite no_merge_cons in Hn.
  apply andb_true_iff in Hn as (Hn & Ht).
  apply andb_true_iff in Hn as (Hi & Hc).
  apply negb_true_iff in Hi, Hc.
  cbn [optimize_from]. rewrite Hi, Hc. f_equal. now apply IH.
Qed.

Lemma OptimizePatches_no_merge patches :
  no_merge patches = true -> no_merge (OptimizePatches patches) = true.
Proof.
  intros Hn. unfold OptimizePatches.
  destruct (length patches <=? 1)%nat; [exact Hn|].
  destruct patches; [reflexivity|apply optimize_from_no_merge].
Qed.

Lemma OptimizePatches_output_no_merge patches :
  (2 <= length patches)%nat -> no_merge (OptimizePatches patches) = true.
Proof.
  intros Hlen. unfold OptimizePatches.
  destruct (Nat.leb_spec (length patches) 1); [lia|].
  destruct patches; [reflexivity|apply optimize_from_no_merge].
Qed.

Lemma length_optimize_from rest : forall current,
  (length (optimize_from current rest) <= S (length rest))%nat.
Proof.
  induction rest as [|next rest IH]; intros current; cbn [optimize_from length].
  - lia.
  - destruct (merge_insert current next); [rewrite IH; lia|].
    destruct (merge_copy current next); [rewrite IH; lia|].
    cbn [length]. specialize (IH next). lia.
Qed.

Lemma length_OptimizePatches patches :
  (length (OptimizePatches patches) <= length patches)%nat.
Proof.
  unfold OptimizePatches.
  destruct (length patches <=? 1)%nat; [lia|].
  destruct patches as [|first rest]; [cbn; lia|].
  cbn [length]. apply length_optimize_from.
Qed.

(** A list with the kinds, offsets and lengths of an optimized list is
    returned unchanged, whatever bytes its operations carry. *)
Lemma OptimizePatches_fixed_by_shape patches result :
  map shape result = map shape (OptimizePatches patches) ->
  OptimizePatches result = result.
Proof.
  intros Es. unfold OptimizePatches at 1.
  destruct (length result <=? 1)%nat eqn:El; [reflexivity|].
  destruct result as [|h t]; [reflexivity|].
  apply no_merge_fixed.
  rewrite (no_merge_shape _ _ Es).
  apply OptimizePatches_output_no_merge.
  apply Nat.leb_gt in El.
  assert (Hlen : length (h :: t) = length (OptimizePatches patches)).
  { rewrite <- (length_map shape (h :: t)), Es. apply length_map. }
  pose proof (length_OptimizePatches patches).
  lia.
Qed.

(* ================================================================== *)
(** * Where the code departs from the specification *)

(** C2. The claim is that a stream whose magic is not [0x42444646] or whose
    version is not [1] is rejected with [BadPatch].  [DecodeDiffFile] reads
    both fields and compares neither: the stream below starts with
    [ef be ad de 07 00 00 00] and is decoded without error into a record
    that carries the foreign magic, the foreign version and the four
    operations of the payload. *)
Theorem DecodeDiffFile_ignores_magic_and_version :
  firstn 8 (EncodeDiffFile bad_magic_container)
  = [xef; xbe; xad; xde; x07; x00; x00; x00] /\
  exists df,
    DecodeDiffFile (EncodeDiffFile bad_magic_container) = Ret (df, None) /\
    MagicNumber df = 0xDEADBEEF /\ MagicNumber df <> PATCH_MAGIC /\
    Version df = 7 /\ Version df <> PATCH_VERSION /\
    types.Diff df = types.Diff bad_magic_container.
Proof.
  split; [vm_compute; reflexivity|].
  eexists. split; [vm_compute; reflexivity|].
  cbn. repeat split; discriminate.
Qed.

(** No input at all is rejected on account of its first eight bytes: the
    only error [DecodeDiffFile] can return is one that [DecodePatch]
    returned for the payload. *)
Lemma DecodeDiffFile_error_origin data df e :
  DecodeDiffFile data = Ret (df, Some e) ->
  exists payload patches, DecodePatch payload = Ret (patches, Some e).
Proof.
  unfold DecodeDiffFile.
  repeat match goal with
         | |- context [binary_Read_ignore ?r ?n] =>
             destruct (binary_Read_ignore r n) as [? ?]
         | |- context [fill_buffer ?r ?n] =>
             destruct (fill_buffer r n) as [? ?]
         end.
  match goal with
  | |- context [DecodePatch ?d] =>
      destruct (DecodePatch d) as [[patches [e'|]]| |] eqn:E; cbn [bind];
        try discriminate
  end.
  intros [= _ <-]. eauto.
Qed.

(** C9. The claim is that [DecodePatch] never attempts to build a data
    buffer of negative size.  On an INSERT whose length field is [-1] it
    reaches [make([]byte, length)] with [length = -1] and stops with a
    run-time panic instead of returning an error. *)
Theorem DecodePatch_negative_length_panics :
  negative_length_stream
  = [x02; x00; x00; x00; x00; x00; x00; x00; x00;
     xff; xff; xff; xff; xff; xff; xff; xff] /\
  DecodePatch negative_length_stream = Panic MakeSliceLenOutOfRange.
Proof. split; vm_compute; reflexivity. Qed.

(** What does hold of [DecodePatch]: it terminates on every input, and the
    negative buffer size is the only way it can fail to return. *)
Lemma decode_loop_outcome fuel : forall r acc,
  (length r <= fuel)%nat ->
  (exists res, decode_loop fuel r acc = Ret res) \/
  decode_loop fuel r acc = Panic MakeSliceLenOutOfRange.
Proof.
  induction fuel as [|fuel IH]; intros r acc Hlen.
  - destruct r; [left; eexists; reflexivity|cbn in Hlen; lia].
  - destruct r as [|b r]; [left; eexists; reflexivity|].
    rewrite decode_loop_cons.
    destruct (decode_entry (b :: r)) as [[[r' entry]|e]|k|] eqn:E; cbn [bind].
    + apply IH. apply decode_entry_shortens in E. lia.
    + left. eexists. reflexivity.
    + right. revert E. unfold decode_entry.
      destruct (binary_Read r 8) as [[uoff|e] r2]; [|discriminate].
      destruct (binary_Read r2 8) as [[ulen|e] r3]; [|discriminate].
      destruct (carries_data b); [|discriminate].
      destruct ((wrap64 ulen <? 0) || (wrap64 ulen >? maxAlloc)); [now intros [= <-]|].
      destruct (ReadFull r3 (Z.to_nat (wrap64 ulen))) as [[data r4] [e|]];
        discriminate.
    + exfalso. revert E. unfold decode_entry.
      destruct (binary_Read r 8) as [[uoff|e] r2]; [|discriminate].
      destruct (binary_Read r2 8) as [[ulen|e] r3]; [|discriminate].
      destruct (carries_data b); [|discriminate].
      destruct ((wrap64 ulen <? 0) || (wrap64 ulen >? maxAlloc)); [discriminate|].
      destruct (ReadFull r3 (Z.to_nat (wrap64 ulen))) as [[data r4] [e|]];
        discriminate.
Qed.

Lemma DecodePatch_outcome b :
  (exists res, DecodePatch b = Ret res) \/
  DecodePatch b = Panic MakeSliceLenOutOfRange.
Proof. unfold DecodePatch. apply decode_loop_outcome. lia. Qed.

Lemma replayed_length_Ret oldData diffed options patches out :
  diffed = Ret patches ->
  ApplyPatchWithOptions oldData patches options = Ret out ->
  replayed_length oldData diffed options = Ret (len out).
Proof.
  intros -> Hout. unfold replayed_length. cbn [bind]. now rewrite Hout.
Qed.

(** C3. The claim is that the streaming strategy yields a list whose replay
    reproduces [NEW].  Each window is diffed against [oldData] from its
    first byte, not from the window's position, and the operations are
    then moved by the window start.  With one old byte and [64 KiB + 1]
    new bytes under the configuration of the diff command, [DiffWithOptions]
    takes the streaming path, the second window yields a COPY at offset
    [65536], the applier skips it as out of range, and the replay returns
    [65536] bytes where [NEW] has [65537]. *)
Theorem streamingDiff_loses_second_window :
  let options := mkDiffOptions cli_config false Background in
  len [x00] + len two_windows_new
    > wrap64 (wrap64 (MaxMemoryMB cli_config * 1024) * 1024) /\
  DiffWithOptions [x00] two_windows_new (Some options)
  = streamingDiff [x00] two_windows_new options /\
  len two_windows_new = 65537 /\
  replayed_length [x00] (streamingDiff [x00] two_windows_new options) None
  = Ret 65536 /\
  ~ (exists patches,
       streamingDiff [x00] two_windows_new options = Ret patches /\
       ApplyPatchWithOptions [x00] patches None = Ret two_windows_new).
Proof.
  intros options.
  assert (Hlen : len two_windows_new = 65537).
  { unfold two_windows_new, len. rewrite repeat_length. lia. }
  assert (Hrun : replayed_length [x00]
                   (streamingDiff [x00] two_windows_new options) None
                 = Ret 65536).
  { vm_compute. reflexivity. }
  split; [rewrite Hlen; vm_compute; reflexivity|].
  split.
  { unfold DiffWithOptions. cbv beta iota zeta. rewrite Hlen.
    match goal with
    | |- (if ?c then _ else _) = _ =>
        replace c with true by (vm_compute; reflexivity)
    end.
    reflexivity. }
  split; [exact Hlen|].
  split; [exact Hrun|].
  intros (patches & Ediff & Eapply).
  pose proof (replayed_length_Ret _ _ None _ _ Ediff Eapply) as H.
  rewrite Hrun, Hlen in H. discriminate H.
Qed.

(** The same with a positive ceiling, the one of the repository's own
    streaming test: of four windows only the first survives the replay. *)
Lemma streamingDiff_loses_windows_under_test_config :
  len [x00] + len one_MiB_new
    > wrap64 (wrap64 (MaxMemoryMB test_streaming_config * 1024) * 1024) /\
  len one_MiB_new = 1048576 /\
  replayed_length [x00]
    (DiffWithOptions [x00] one_MiB_new
       (Some (mkDiffOptions test_streaming_config false Background))) None
  = Ret 262144.
Proof.
  assert (Hlen : len one_MiB_new = 1048576).
  { unfold one_MiB_new, len. rewrite repeat_length. lia. }
  split; [rewrite Hlen; vm_compute; reflexivity|].
  split; [exact Hlen|].
  vm_compute. reflexivity.
Qed.

(** The first window alone is diffed correctly: the operations the
    streaming differ emits here are the COPY of the old byte, the INSERT
    of the rest of the first window, and the misplaced COPY. *)
Lemma streamingDiff_two_windows_shape :
  (patches <- streamingDiff [x00] two_windows_new
                (mkDiffOptions cli_config false Background) ;;
   Ret (map (fun p => (shape p, len (Data p))) patches))
  = Ret [((OP_COPY, 0, 1), 0);
         ((OP_INSERT, 1, 65535), 65535);
         ((OP_COPY, 65536, 1), 0)].
Proof. vm_compute. reflexivity. Qed.

(** C7. The claim is that an operation whose offset exceeds [|OLD|] is
    skipped without harm and that the result is the one obtained without
    it.  The replay loop does skip it, but the capacity estimate that
    precedes the loop adds the length of every operation, skipped or not,
    and hands the sum to [make].  A skipped operation whose length makes
    the sum negative (a negative length, or two lengths that overflow)
    stops the whole call with a panic, while the list without the
    operation is replayed to [OLD]. *)
Theorem skipped_operation_can_abort_apply :
  let out_of_range := mkPatch OP_COPY 1000 (-1) [] in
  let huge := mkPatch OP_COPY 1000 (2 ^ 63 - 1) [] in
  let one := mkPatch OP_COPY 1000 1 [] in
  Offset out_of_range > len hello /\
  ApplyPatchWithOptions hello [out_of_range] None = Panic MakeSliceCapOutOfRange /\
  ApplyPatchWithOptions hello [] None = Ret hello /\
  ApplyPatchWithOptions hello [huge; one] None = Panic MakeSliceCapOutOfRange /\
  ApplyPatchWithOptions hello [one] None = Ret hello.
Proof. intros. repeat split; vm_compute; reflexivity. Qed.

(** ** What the replay loop itself does with an out-of-range offset *)

Lemma apply_step_skips oldData p st :
  Offset p > len oldData -> apply_step oldData p st = Ret st.
Proof.
  intros H. unfold apply_step. destruct st as [cursor newData].
  destruct (Z.gtb_spec (Offset p) (len oldData)); [reflexivity|lia].
Qed.

Lemma apply_loop_skips oldData p before : forall after st,
  Offset p > len oldData ->
  apply_loop oldData Background (before ++ p :: after) st
  = apply_loop oldData Background (before ++ after) st.
Proof.
  induction before as [|q before IH]; intros after st Hp;
    cbn [app apply_loop ctx_done].
  - now rewrite apply_step_skips.
  - destruct (apply_step oldData q st); cbn [bind]; auto.
Qed.

(** Past the capacity estimate the claim of C7 holds: when the estimate is
    a valid capacity for the list with the operation and for the list
    without it, the two replays agree. *)
Lemma ApplyPatchWithOptions_skips oldData p before after cfg progress verify :
  Offset p > len oldData ->
  0 <= estimated_size (before ++ p :: after) <= maxAlloc ->
  0 <= estimated_size (before ++ after) <= maxAlloc ->
  ApplyPatchWithOptions oldData (before ++ p :: after)
    (Some (mkApplyOptions cfg progress Background verify))
  = ApplyPatchWithOptions oldData (before ++ after)
      (Some (mkApplyOptions cfg progress Background verify)).
Proof.
  intros Hp H1 H2. unfold ApplyPatchWithOptions, make_empty_with_cap.
  cbn [apply_Context].
  destruct (Z.ltb_spec (estimated_size (before ++ p :: after)) 0); [lia|].
  destruct (Z.ltb_spec (estimated_size (before ++ after)) 0); [lia|].
  destruct (Z.gtb_spec (estimated_size (before ++ p :: after)) maxAlloc); [lia|].
  destruct (Z.gtb_spec (estimated_size (before ++ after)) maxAlloc); [lia|].
  cbn [orb bind]. now apply apply_loop_skips.
Qed.

(* ================================================================== *)
(** * The integrity gate of the apply command *)

Lemma hash_bytes_equal_eq h1 : forall h2,
  length h1 = length h2 -> hash_bytes_equal h1 h2 = true -> h1 = h2.
Proof.
  induction h1 as [|b1 t1 IH]; intros [|b2 t2] Hlen; try discriminate.
  - reflexivity.
  - cbn [hash_bytes_equal].
    destruct (Byte.eqb b1 b2) eqn:E; [|discriminate].
    apply Byte.byte_dec_bl in E. intros H. f_equal; [exact E|].
    apply IH; [now injection Hlen|exact H].
Qed.

Lemma CompareHashes_true h1 h2 : CompareHashes h1 h2 = true -> h1 = h2.
Proof.
  unfold CompareHashes.
  destruct (Nat.eqb_spec (length h1) (length h2)) as [Hlen|]; cbn [negb];
    [|discriminate].
  now apply hash_bytes_equal_eq.
Qed.

Lemma CompareHashes_refl h : CompareHashes h h = true.
Proof.
  unfold CompareHashes. rewrite Nat.eqb_refl. cbn [negb].
  induction h as [|b t IH]; [reflexivity|].
  cbn [hash_bytes_equal]. now rewrite (Byte.byte_dec_lb (eq_refl b)).
Qed.

(** C4. Whatever the hash function, the old data and the patch file: when
    the patch decodes to a container whose [old_hash] differs from the hash
    of the old data, [runApply] returns the hash-mismatch error, and the
    only effect it can have had is the backup of the original that
    precedes the gate; no operation is replayed and no output is written. *)
Theorem runApply_hash_gate
  (ComputeHash : list byte -> list byte)
  (oldData patchBytes : list byte) (options : CmdApplyOptions) (ctx : Context)
  (df : DiffFile) :
  DecodeDiffFile patchBytes = Ret (df, None) ->
  OldHash df <> ComputeHash oldData ->
  exists effects,
    runApply ComputeHash oldData patchBytes options ctx
    = Ret (Some HashMismatch, effects) /\
    effects = (if BackupOriginal options then [Backup] else []) /\
    (forall patches, ~ In (Replay patches) effects) /\
    (forall name data, ~ In (WriteFile name data) effects).
Proof.
  intros Hdec Hneq. unfold runApply. rewrite Hdec. cbn [bind].
  destruct (CompareHashes (ComputeHash oldData) (OldHash df)) eqn:E.
  - apply CompareHashes_true in E. congruence.
  - cbn [negb]. eexists. split; [reflexivity|]. split; [reflexivity|].
    destruct (BackupOriginal options); split; intros; cbn; intuition discriminate.
Qed.

Lemma runApply_hash_gate_witness :
  exists effects,
    runApply (fun _ => repeat x2a 32) fox_old
      (EncodeDiffFile (with_payload fox_header 0 [mkPatch OP_COPY 0 19 []]))
      (mkCmdApplyOptions [] false true true) Background
    = Ret (Some HashMismatch, effects) /\
    effects = [Backup] /\
    (forall patches, ~ In (Replay patches) effects) /\
    (forall name data, ~ In (WriteFile name data) effects).
Proof.
  eapply (runApply_hash_gate (fun _ => repeat x2a 32) fox_old
            (EncodeDiffFile (with_payload fox_header 0 [mkPatch OP_COPY 0 19 []]))
            (mkCmdApplyOptions [] false true true) Background).
  - vm_compute. reflexivity.
  - vm_compute. discriminate.
Defined.

(** The other side of the gate: with the matching hash the operations are
    replayed. *)
Lemma runApply_gate_opens
  (ComputeHash : list byte -> list byte)
  (oldData patchBytes : list byte) (options : CmdApplyOptions) (ctx : Context)
  (df : DiffFile) (err : option CmdError) (effects : list Effect) :
  DecodeDiffFile patchBytes = Ret (df, None) ->
  OldHash df = ComputeHash oldData ->
  runApply ComputeHash oldData patchBytes options ctx = Ret (err, effects) ->
  In (Replay (types.Diff df)) effects.
Proof.
  intros Hdec Heq. unfold runApply. rewrite Hdec. cbn [bind].
  rewrite <- Heq, CompareHashes_refl. cbn [negb].
  destruct (ApplyPatchWithOptions _ _ _) as [newData| |]; cbn [bind];
    try discriminate.
  destruct (cmd_VerifyResult options && _); intros [= _ <-];
    rewrite ?in_app_iff; cbn; intuition.
Qed.

(* ================================================================== *)
(** * Totality of the applier *)

Lemma slice_Z_ok s lo hi :
  0 <= lo -> lo <= hi -> hi <= len s ->
  slice s lo hi = Ret (firstn (Z.to_nat (hi - lo)) (skipn (Z.to_nat lo) s)).
Proof.
  intros H1 H2 H3. unfold slice. settle_tests. reflexivity.
Qed.

Lemma estimated_size_from patches : forall acc,
  0 <= acc -> Forall (fun p => 0 <= Length p) patches ->
  acc + total_length patches < 2 ^ 63 ->
  0 <= fold_left
         (fun estimatedSize p =>
            if produces_output (Op p) then wrap64 (estimatedSize + Length p)
            else estimatedSize)
         patches acc.
Proof.
  induction patches as [|p patches IH]; intros acc Hacc Hall Hsum.
  - exact Hacc.
  - inversion Hall as [|? ? Hp Hps]; subst.
    cbn [total_length fold_right] in Hsum. fold (total_length patches) in Hsum.
    assert (Htot : 0 <= total_length patches).
    { clear -Hps. induction Hps; cbn [total_length fold_right]; [lia|].
      fold (total_length l). lia. }
    cbn [fold_left]. apply IH; [|exact Hps|].
    + destruct (produces_output (Op p)); [|exact Hacc].
      rewrite wrap64_id by (unfold in_int64; lia). lia.
    + destruct (produces_output (Op p)); [|lia].
      rewrite wrap64_id by (unfold in_int64; lia). lia.
Qed.

Lemma total_length_nonneg patches :
  Forall (fun p => 0 <= Length p) patches -> 0 <= total_length patches.
Proof.
  induction 1 as [|p l Hp Hl IH]; cbn [total_length fold_right]; [lia|].
  fold (total_length l). lia.
Qed.

(** One turn of the replay loop from a non-negative cursor, on an operation
    of non-negative length that cannot carry the cursor past the largest
    [int]: the turn completes, every slice it takes lies inside [oldData],
    and the cursor stays non-negative. *)
Lemma apply_step_safe oldData p cursor out :
  0 <= cursor -> 0 <= Length p ->
  Z.max cursor (len oldData) + Length p < 2 ^ 63 ->
  exists cursor' out',
    apply_step oldData p (cursor, out) = Ret (cursor', out') /\
    0 <= cursor' /\
    Z.max cursor' (len oldData) <= Z.max cursor (len oldData) + Length p.
Proof.
  intros Hc Hl Hb. pose proof (len_nonneg oldData) as Hn.
  unfold apply_step.
  destruct (Z.gtb_spec (Offset p) (len oldData)) as [Hskip|Hin].
  { do 2 eexists. split; [reflexivity|]. lia. }
  assert (Hgap : exists cursor1 out1,
             (if Offset p >? cursor
              then gap <- slice oldData cursor (Offset p) ;;
                   Ret (Offset p, out ++ gap)
              else Ret (cursor, out)) = Ret (cursor1, out1) /\
             0 <= cursor1 /\
             Z.max cursor1 (len oldData) = Z.max cursor (len oldData)).
  { destruct (Z.gtb_spec (Offset p) cursor) as [Hgt|Hle].
    - rewrite slice_Z_ok by lia. cbn [bind].
      do 2 eexists. split; [reflexivity|]. lia.
    - do 2 eexists. split; [reflexivity|]. lia. }
  destruct Hgap as (cursor1 & out1 & -> & Hc1 & Hmax).
  cbn [bind].
  assert (Hw : wrap64 (cursor1 + Length p) = cursor1 + Length p).
  { apply wrap64_id. unfold in_int64. lia. }
  rewrite Hw.
  destruct (Byte.eqb (Op p) OP_INSERT).
  { do 2 eexists. split; [reflexivity|]. lia. }
  destruct (Byte.eqb (Op p) OP_REPLACE).
  { do 2 eexists. split; [reflexivity|]. lia. }
  destruct (Byte.eqb (Op p) OP_DELETE).
  { do 2 eexists. split; [reflexivity|]. lia. }
  destruct (Byte.eqb (Op p) OP_COPY || Byte.eqb (Op p) OP_MATCH).
  - destruct (Z.gtb_spec (cursor1 + Length p) (len oldData)) as [Hclip|Hfit].
    + destruct (Z.ltb_spec cursor1 (len oldData)) as [Hlt|Hge]; cbn [andb].
      * destruct (Z.gtb_spec (len oldData) cursor1) as [_|Hno]; [|lia].
        rewrite slice_Z_ok by lia. cbn [bind].
        do 2 eexists. split; [reflexivity|]. lia.
      * do 2 eexists. split; [reflexivity|]. lia.
    + destruct (Z.ltb_spec cursor1 (len oldData)) as [Hlt|Hge]; cbn [andb].
      * destruct (Z.gtb_spec (cursor1 + Length p) cursor1) as [Hpos|Hzero].
        -- rewrite slice_Z_ok by lia. cbn [bind].
           do 2 eexists. split; [reflexivity|]. lia.
        -- do 2 eexists. split; [reflexivity|]. lia.
      * do 2 eexists. split; [reflexivity|]. lia.
  - do 2 eexists. split; [reflexivity|]. lia.
Qed.

Lemma apply_finish_safe oldData cursor out :
  0 <= cursor -> exists result, apply_finish oldData (cursor, out) = Ret result.
Proof.
  intros Hc. unfold apply_finish.
  destruct (Z.ltb_spec cursor (len oldData)).
  - rewrite slice_Z_ok by lia. cbn [bind]. eauto.
  - eauto.
Qed.

Lemma apply_loop_safe oldData ctx patches : forall cursor out,
  0 <= cursor ->
  Forall (fun p => 0 <= Length p) patches ->
  Z.max cursor (len oldData) + total_length patches < 2 ^ 63 ->
  (exists result, apply_loop oldData ctx patches (cursor, out) = Ret result) /\
  length (apply_cursors oldData patches (cursor, out)) = length patches /\
  Forall (fun c => 0 <= c) (apply_cursors oldData patches (cursor, out)).
Proof.
  induction patches as [|p patches IH]; intros cursor out Hc Hall Hsum.
  - cbn [apply_loop apply_cursors]. split; [now apply apply_finish_safe|].
    split; [reflexivity|constructor].
  - inversion Hall as [|? ? Hp Hps]; subst.
    cbn [total_length fold_right] in Hsum. fold (total_length patches) in Hsum.
    pose proof (total_length_nonneg patches Hps) as Htot.
    destruct (apply_step_safe oldData p cursor out Hc Hp ltac:(lia))
      as (cursor' & out' & Hstep & Hc' & Hmax).
    destruct (IH cursor' out' Hc' Hps ltac:(lia)) as ((result & Hres) & Hlen & Hpos).
    cbn [apply_loop apply_cursors]. rewrite Hstep. cbn [bind fst].
    split; [|split].
    + destruct (ctx_done ctx); eauto.
    + cbn [length]. now rewrite Hlen.
    + constructor; assumption.
Qed.

Lemma estimated_size_upto patches : forall acc,
  0 <= acc -> Forall (fun p => 0 <= Length p) patches ->
  acc + total_length patches < 2 ^ 63 ->
  fold_left
    (fun estimatedSize p =>
       if produces_output (Op p) then wrap64 (estimatedSize + Length p)
       else estimatedSize)
    patches acc <= acc + total_length patches.
Proof.
  induction patches as [|p patches IH]; intros acc Hacc Hall Hsum.
  - cbn [fold_left total_length fold_right]. lia.
  - inversion Hall as [|? ? Hp Hps]; subst.
    cbn [total_length fold_right] in *. fold (total_length patches) in *.
    pose proof (total_length_nonneg patches Hps) as Htot.
    cbn [fold_left]. destruct (produces_output (Op p)).
    + rewrite wrap64_id by (unfold in_int64; lia).
      specialize (IH (acc + Length p) ltac:(lia) Hps ltac:(lia)). lia.
    + specialize (IH acc Hacc Hps ltac:(lia)). lia.
Qed.

(** The capacity estimate of a list of non-negative lengths lies between
    zero and the sum of the lengths. *)
Lemma estimated_size_range patches :
  Forall (fun p => 0 <= Length p) patches ->
  total_length patches < 2 ^ 63 ->
  0 <= estimated_size patches <= total_length patches.
Proof.
  intros Hall Hsum. unfold estimated_size. split.
  - apply estimated_size_from; [lia | exact Hall | lia].
  - apply (estimated_size_upto patches 0); [lia | exact Hall | lia].
Qed.

(** X29. Within the range of [int] and of the allocator the applier is
    total: when every operation has a non-negative length, [|OLD|] plus
    the sum of all lengths is below [2^63] and the sum of the lengths is
    at most [maxAlloc], the applier returns a byte sequence: the capacity
    estimate is a valid capacity, every turn of the replay loop completes,
    so that every slice taken from [OLD] lies within its bounds, and the
    read cursor is never negative.  Offsets are arbitrary. *)
Theorem ApplyPatchWithOptions_total_in_range
  (oldData : list byte) (patches : list Patch) (options : option ApplyOptions) :
  Forall (fun p => 0 <= Length p) patches ->
  len oldData + total_length patches < 2 ^ 63 ->
  total_length patches <= maxAlloc ->
  (exists newData, ApplyPatchWithOptions oldData patches options = Ret newData) /\
  length (apply_cursors oldData patches (0, [])) = length patches /\
  Forall (fun cursor => 0 <= cursor) (apply_cursors oldData patches (0, [])).
Proof.
  intros Hall Hsum Hfit. pose proof (len_nonneg oldData) as Hn.
  unfold ApplyPatchWithOptions, make_empty_with_cap.
  pose proof (estimated_size_range patches Hall ltac:(lia)) as Hest.
  destruct (Z.ltb_spec (estimated_size patches) 0) as [Hneg|_]; [lia|].
  destruct (Z.gtb_spec (estimated_size patches) maxAlloc) as [Hbig|_]; [lia|].
  cbn [orb bind].
  apply apply_loop_safe; [lia|exact Hall|lia].
Qed.

Lemma ApplyPatchWithOptions_total_in_range_witness :
  (exists newData,
     ApplyPatchWithOptions hello
       [mkPatch OP_COPY 1000 5 []; mkPatch OP_INSERT (-3) 3 (bytes_of "abc"%string);
        mkPatch OP_DELETE 1 2 []; mkPatch OP_COPY 0 100 []]
       None = Ret newData) /\
  length (apply_cursors hello
            [mkPatch OP_COPY 1000 5 []; mkPatch OP_INSERT (-3) 3 (bytes_of "abc"%string);
             mkPatch OP_DELETE 1 2 []; mkPatch OP_COPY 0 100 []] (0, []))
  = 4%nat /\
  Forall (fun cursor => 0 <= cursor)
    (apply_cursors hello
       [mkPatch OP_COPY 1000 5 []; mkPatch OP_INSERT (-3) 3 (bytes_of "abc"%string);
        mkPatch OP_DELETE 1 2 []; mkPatch OP_COPY 0 100 []] (0, [])).
Proof.
  apply (ApplyPatchWithOptions_total_in_range hello
           [mkPatch OP_COPY 1000 5 []; mkPatch OP_INSERT (-3) 3 (bytes_of "abc"%string);
            mkPatch OP_DELETE 1 2 []; mkPatch OP_COPY 0 100 []] None).
  - repeat constructor; cbn; lia.
  - vm_compute. reflexivity.
  - vm_compute. discriminate.
Defined.

(** C10. The claim is that non-negative lengths are enough for the applier
    to return without an access out of bounds.  The replay loop guards
    its slices (an offset past [|OLD|] is skipped, a COPY is cut at
    [|OLD|], the remainder is copied only from a cursor below [|OLD|]),
    but it adds lengths to the cursor and to the capacity estimate without
    a check.  The 34 bytes of [cursor_wrap_stream] decode without error
    into two DELETE operations of lengths [2^63 - 1] and [1]; the estimate
    is zero; the cursor becomes [2^63 - 1] and then wraps to [-2^63], and
    the copy of the remainder takes [oldData[-2^63:]], which stops the
    applier with a panic.  A single COPY of length [2^62], itself skipped
    by the loop, stops it earlier: the estimate is no capacity [make] can
    give. *)
Theorem applier_panics_on_nonnegative_lengths :
  let far := mkPatch OP_DELETE 0 (2 ^ 63 - 1) [] in
  let one := mkPatch OP_DELETE 0 1 [] in
  let wide := mkPatch OP_COPY 1000 (2 ^ 62) [] in
  DecodePatch cursor_wrap_stream = Ret ([far; one], None) /\
  Forall (fun p => 0 <= Length p) [far; one; wide] /\
  estimated_size [far; one] = 0 /\
  apply_cursors hello [far; one] (0, []) = [2 ^ 63 - 1; - 2 ^ 63] /\
  ApplyPatchWithOptions hello [far; one] None = Panic SliceBoundsOutOfRange /\
  ApplyPatchWithOptions hello [wide] None = Panic MakeSliceCapOutOfRange.
Proof.
  intros far one wide.
  split; [vm_compute; reflexivity|].
  split; [repeat constructor; cbn; lia|].
  repeat split; vm_compute; reflexivity.
Qed.

(* ================================================================== *)
(** * The FFT round trip *)



Section RoundTripOfSizeTwo.

Variable Rect : float -> float -> complex128.
Variable Log2 : float -> float.

(** [math.Log2] is exact on the powers of two; at size 2 this fixes the
    bit-reversal table. *)
Hypothesis Log2_two : Log2 2%float = 1%float.




End RoundTripOfSizeTwo.








(* ================================================================== *)
(** * Further properties: the operation codec *)

(** X1. The operation codec round-trips: for a list of well-formed
    operations (64-bit offsets and lengths, INSERT and REPLACE carrying
    exactly [Length] bytes in a slice, the other kinds none) [DecodePatch]
    of [EncodePatch] returns the list and no error. *)
Theorem operation_stream_roundtrip (patches : list Patch) :
  Forall wf_patch patches ->
  DecodePatch (EncodePatch patches) = Ret (patches, None).
Proof. apply DecodePatch_EncodePatch. Qed.

Lemma operation_stream_roundtrip_witness :
  DecodePatch (EncodePatch (types.Diff bad_magic_container))
  = Ret (types.Diff bad_magic_container, None).
Proof.
  apply operation_stream_roundtrip.
  repeat constructor; cbn; try lia; unfold go_slice; vm_compute; discriminate.
Defined.

Lemma prepend_prepend acc acc' res :
  prepend acc (prepend acc' res) = prepend (acc ++ acc') res.
Proof.
  unfold prepend. destruct res as [[ps err]| |]; cbn [bind]; [|reflexivity..].
  now rewrite app_assoc.
Qed.

Lemma decode_loop_acc fuel : forall r acc,
  decode_loop fuel r acc = prepend acc (decode_loop fuel r []).
Proof.
  induction fuel as [|fuel IH]; intros r acc.
  - destruct r; cbn; [now rewrite app_nil_r|reflexivity].
  - destruct r as [|b r]; [cbn; now rewrite app_nil_r|].
    rewrite !decode_loop_cons.
    destruct (decode_entry (b :: r)) as [[[r' entry]|e]|k|]; cbn [bind].
    + rewrite (IH r' (acc ++ [entry])), (IH r' ([] ++ [entry])).
      now rewrite prepend_prepend.
    + cbn. now rewrite app_nil_r.
    + reflexivity.
    + reflexivity.
Qed.

Lemma decode_loop_fuel_irrelevant fuel : forall fuel' r acc,
  (length r <= fuel)%nat -> (length r <= fuel')%nat ->
  decode_loop fuel r acc = decode_loop fuel' r acc.
Proof.
  induction fuel as [|fuel IH]; intros fuel' r acc H H'.
  - destruct r; [destruct fuel'; reflexivity|cbn in H; lia].
  - destruct r as [|b r]; [destruct fuel'; reflexivity|].
    destruct fuel' as [|fuel']; [cbn in H'; lia|].
    rewrite !decode_loop_cons.
    destruct (decode_entry (b :: r)) as [[[r' entry]|e]|k|] eqn:E; cbn [bind];
      try reflexivity.
    apply decode_entry_shortens in E. cbn [length] in *.
    apply IH; lia.
Qed.

Lemma decode_loop_prefix ps : forall rest fuel acc,
  Forall wf_patch ps ->
  (length (EncodePatch ps ++ rest) <= fuel)%nat ->
  decode_loop fuel (EncodePatch ps ++ rest) acc
  = decode_loop (length rest) rest (acc ++ ps).
Proof.
  induction ps as [|p ps IH]; intros rest fuel acc Hwf Hfuel.
  - cbn [EncodePatch flat_map app] in *. rewrite app_nil_r.
    apply decode_loop_fuel_irrelevant; lia.
  - inversion Hwf as [|? ? Hp Hps]; subst.
    change (EncodePatch (p :: ps)) with (encode_entry p ++ EncodePatch ps) in *.
    rewrite <- app_assoc in *.
    destruct (encode_entry_cons p) as (tl & Etl & Htl).
    pose proof (decode_entry_encode p (EncodePatch ps ++ rest) Hp) as Hd.
    rewrite Etl in *. cbn [app] in *.
    destruct fuel as [|fuel]; [cbn in Hfuel; lia|].
    rewrite decode_loop_cons, Hd. cbn [bind].
    rewrite IH; [now rewrite <- app_assoc|assumption|].
    cbn [length] in Hfuel. rewrite length_app in Hfuel. lia.
Qed.

(** X2. Decoding composes with concatenation: a stream that starts with
    the encoding of well-formed operations is decoded into those
    operations followed by whatever the rest of the stream decodes to,
    with the rest's error or panic. *)
Theorem DecodePatch_prefix (patches : list Patch) (rest : list byte) :
  Forall wf_patch patches ->
  DecodePatch (EncodePatch patches ++ rest) = prepend patches (DecodePatch rest).
Proof.
  intros Hwf. unfold DecodePatch.
  rewrite decode_loop_prefix by (auto; lia).
  cbn [app]. apply decode_loop_acc.
Qed.

Lemma DecodePatch_prefix_witness :
  DecodePatch (EncodePatch (types.Diff bad_magic_container) ++ negative_length_stream)
  = prepend (types.Diff bad_magic_container) (DecodePatch negative_length_stream).
Proof.
  apply DecodePatch_prefix.
  repeat constructor; cbn; try lia; unfold go_slice; vm_compute; discriminate.
Defined.

Lemma DecodePatch_cut_head cut :
  (0 < length cut < 17)%nat ->
  DecodePatch cut = Ret ([], Some (truncation_error (length cut))).
Proof.
  intros Hlen.
  do 17 (destruct cut as [|? cut]; [try (cbn in Hlen; lia); reflexivity|]).
  cbn [length] in Hlen. lia.
Qed.

(** X3. A truncated stream is reported, not dropped: when the stream ends
    inside the 17-byte head of an operation, [DecodePatch] returns the
    operations that precede it together with an error, [io.EOF] if the cut
    falls right after the kind byte or right after the offset and
    [io.ErrUnexpectedEOF] otherwise. *)
Theorem DecodePatch_truncated (patches : list Patch) (cut : list byte) :
  Forall wf_patch patches ->
  (0 < length cut < 17)%nat ->
  DecodePatch (EncodePatch patches ++ cut)
  = Ret (patches, Some (truncation_error (length cut))).
Proof.
  intros Hwf Hcut.
  unfold DecodePatch. rewrite decode_loop_prefix by (auto; lia). fold (DecodePatch cut). cbn [app]. rewrite decode_loop_acc. fold (DecodePatch cut).
  rewrite DecodePatch_cut_head by assumption.
  cbn. now rewrite app_nil_r.
Qed.

Lemma DecodePatch_truncated_witness :
  DecodePatch (EncodePatch (types.Diff bad_magic_container) ++ [x01; x00; x00])
  = Ret (types.Diff bad_magic_container, Some ErrUnexpectedEOF).
Proof.
  apply (DecodePatch_truncated (types.Diff bad_magic_container) [x01; x00; x00]).
  - repeat constructor; cbn; try lia; unfold go_slice; vm_compute; discriminate.
  - cbn. lia.
Defined.

(** X4. The container codec round-trips up to the length field: for a
    container with a consistent header, well-formed operations and an
    operation stream shorter than [2^32] bytes, [DecodeDiffFile] of
    [EncodeDiffFile] returns no error and the same container, except that
    [DataLength] now holds the length of the operation stream ([runDiff]
    encodes with the field still zero). *)
Theorem container_roundtrip (df : DiffFile) :
  header_ok df ->
  Forall wf_patch (types.Diff df) ->
  len (EncodePatch (types.Diff df)) < 2 ^ 32 ->
  DecodeDiffFile (EncodeDiffFile df)
  = Ret (with_payload df (len (EncodePatch (types.Diff df))) (types.Diff df), None).
Proof. apply DecodeDiffFile_EncodeDiffFile_small. Qed.

Lemma container_roundtrip_witness :
  DecodeDiffFile
    (EncodeDiffFile (with_payload fox_header 0 (types.Diff bad_magic_container)))
  = Ret (with_payload fox_header 71 (types.Diff bad_magic_container), None).
Proof.
  apply (container_roundtrip
           (with_payload fox_header 0 (types.Diff bad_magic_container))).
  - apply header_ok_runDiff_header; try reflexivity; cbn; lia.
  - repeat constructor; cbn; try lia; unfold go_slice; vm_compute; discriminate.
  - vm_compute. reflexivity.
Defined.

(* ================================================================== *)
(** * Further properties: the differ *)

Lemma DiffWithOptions_within_ceiling oldData newData options :
  len oldData + len newData
    <= wrap64 (wrap64 (MaxMemoryMB (diff_Config options) * 1024) * 1024) ->
  DiffWithOptions oldData newData (Some options)
  = sequentialDiff oldData newData options.
Proof.
  intros Hfit. unfold DiffWithOptions. cbv beta iota zeta.
  destruct (Z.gtb_spec (len oldData + len newData)
              (wrap64 (wrap64 (MaxMemoryMB (diff_Config options) * 1024) * 1024)));
    [lia|].
  destruct (UseParallel (diff_Config options) && _); [|reflexivity].
  unfold parallelDiff.
  destruct (MaxWorkers (diff_Config options) <=? 1); [reflexivity|].
  destruct (_ <? _); reflexivity.
Qed.

(** X5. Below the memory ceiling every strategy is the sequential one:
    when [|OLD| + |NEW|] does not exceed [MaxMemoryMB] MiB,
    [DiffWithOptions] returns exactly what [sequentialDiff] returns,
    whatever [UseParallel], [MaxWorkers] and [BlockSize] say. *)
Theorem DiffWithOptions_is_sequential
  (oldData newData : list byte) (options : DiffOptions) :
  len oldData + len newData
    <= wrap64 (wrap64 (MaxMemoryMB (diff_Config options) * 1024) * 1024) ->
  DiffWithOptions oldData newData (Some options)
  = sequentialDiff oldData newData options.
Proof. apply DiffWithOptions_within_ceiling. Qed.

Lemma DiffWithOptions_is_sequential_witness :
  DiffWithOptions fox_old fox_new (Some (mkDiffOptions DefaultConfig true Background))
  = sequentialDiff fox_old fox_new (mkDiffOptions DefaultConfig true Background).
Proof.
  apply DiffWithOptions_is_sequential. vm_compute. discriminate.
Defined.

(** X6. The public entry points round-trip: for inputs of at most 512 MiB
    in total, [Diff] returns an operation list and [ApplyPatch] replays it
    on the old data into exactly the new data. *)
Theorem Diff_then_ApplyPatch (oldData newData : list byte) :
  len oldData + len newData <= 536870912 ->
  exists patches,
    Diff oldData newData = Ret patches /\
    ApplyPatch oldData patches = Ret newData.
Proof.
  intros Hfit.
  pose proof (len_nonneg oldData). pose proof (len_nonneg newData).
  destruct (sequentialDiff_replays oldData newData DefaultConfig false)
    as (patches & Ediff & Hpost); [unfold go_slice, maxAlloc; lia..|].
  exists patches. split.
  - unfold Diff. rewrite DiffWithOptions_within_ceiling; [exact Ediff|].
    cbn [diff_Config MaxMemoryMB DefaultConfig].
    change (wrap64 (wrap64 (512 * 1024) * 1024)) with 536870912. exact Hfit.
  - unfold ApplyPatch.
    apply (ApplyPatchWithOptions_diff_post oldData newData); [|exact Hpost].
    unfold go_slice, maxAlloc. lia.
Qed.

Lemma Diff_then_ApplyPatch_witness :
  exists patches,
    Diff fox_old fox_new = Ret patches /\
    ApplyPatch fox_old patches = Ret fox_new.
Proof.
  apply Diff_then_ApplyPatch. vm_compute. discriminate.
Defined.

(** The scan keeps the operations contiguous. *)
Lemma tiles_snoc ps : forall from mid p,
  tiles from ps mid -> Offset p = mid -> 0 < Length p ->
  tiles from (ps ++ [p]) (mid + Length p).
Proof.
  induction ps as [|q ps IH]; intros from mid p Ht Ho Hl; cbn [tiles app] in *.
  - subst. repeat split; auto.
  - destruct Ht as (Hq & Hlq & Ht). repeat split; auto.
Qed.

Lemma tiles_nonneg_lengths ps : forall from to,
  tiles from ps to -> Forall (fun p => 0 < Length p) ps.
Proof.
  induction ps as [|q ps IH]; intros from to Ht; [constructor|].
  destruct Ht as (_ & Hl & Ht). constructor; eauto.
Qed.

(** X7. The operations of the reference differ tile the longer input: the
    first starts at offset 0, each has a positive length and starts where
    its predecessor ends, and the last ends at [max(|OLD|, |NEW|)].  This
    holds for every pair of inputs when the context is not cancelled. *)
Theorem sequentialDiff_tiles
  (oldData newData : list byte) (cfg : Config) (progress : bool) :
  exists patches,
    sequentialDiff oldData newData (mkDiffOptions cfg progress Background)
    = Ret patches /\
    tiles 0 patches (Z.max (len oldData) (len newData)).
Proof.
  unfold sequentialDiff. rewrite sequentialDiff_minLen. cbn [diff_Context].
  set (minLen := Nat.min (length oldData) (length newData)).
  apply (diff_loop_rule oldData newData minLen ltac:(lia) ltac:(lia) Background
           (fun i patches => tiles 0 patches (Z.of_nat i))
           (fun patches => tiles 0 patches (Z.max (len oldData) (len newData)))).
  - discriminate.
  - intros i i' patches Ht Hi _.
    replace (Z.of_nat i') with (Z.of_nat i + (Z.of_nat i' - Z.of_nat i)) at 2 by lia.
    apply (tiles_snoc patches 0 (Z.of_nat i)); cbn; [exact Ht|lia..].
  - intros i i' patches Ht Hi.
    replace (Z.of_nat i') with (Z.of_nat i + (Z.of_nat i' - Z.of_nat i)) at 2 by lia.
    apply (tiles_snoc patches 0 (Z.of_nat i)); cbn; [exact Ht|lia..].
  - intros patches tl Ht. unfold diff_tail, len.
    destruct (Nat.ltb_spec minLen (length newData)) as [Hlt|Hge].
    + rewrite slice_ok by lia. cbn [bind]. intros [= <-].
      replace (Z.max (Z.of_nat (length oldData)) (Z.of_nat (length newData)))
        with (Z.of_nat minLen + (Z.of_nat (length newData) - Z.of_nat minLen))
        by lia.
      apply (tiles_snoc patches 0 (Z.of_nat minLen)); cbn; [exact Ht|lia..].
    + destruct (Nat.ltb_spec minLen (length oldData)) as [Hlt'|Hge']; intros [= <-].
      * replace (Z.max (Z.of_nat (length oldData)) (Z.of_nat (length newData)))
          with (Z.of_nat minLen + (Z.of_nat (length oldData) - Z.of_nat minLen))
          by lia.
        apply (tiles_snoc patches 0 (Z.of_nat minLen)); cbn; [exact Ht|lia..].
      * rewrite app_nil_r.
        replace (Z.max (Z.of_nat (length oldData)) (Z.of_nat (length newData)))
          with (Z.of_nat minLen) by lia.
        exact Ht.
  - lia.
  - lia.
  - reflexivity.
Qed.

Lemma advance_to_end (oldData newData : list byte) (minLen : nat) same : forall i,
  (i <= minLen)%nat ->
  (forall k, (i <= k < minLen)%nat ->
             Byte.eqb (at_index oldData k) (at_index newData k) = same) ->
  advance (minLen - i) same oldData newData minLen i = minLen.
Proof.
  intros i Hi Hall.
  destruct (advance_spec oldData newData minLen same (minLen - i) i
              ltac:(lia) Hi) as (Hr & _ & Hstop).
  destruct (Nat.eq_dec (advance (minLen - i) same oldData newData minLen i) minLen)
    as [E|Hne]; [exact E|].
  exfalso.
  assert (Hlt : (advance (minLen - i) same oldData newData minLen i < minLen)%nat)
    by lia.
  specialize (Hstop Hlt). rewrite Hall in Hstop by lia.
  destruct same; discriminate.
Qed.

(** X8. Identity: the diff of a sequence with itself is a single COPY that
    spans it, and the empty list for the empty sequence. *)
Theorem sequentialDiff_identity
  (data : list byte) (cfg : Config) (progress : bool) :
  sequentialDiff data data (mkDiffOptions cfg progress Background)
  = Ret (match data with
         | [] => []
         | _ :: _ => [mkPatch OP_COPY 0 (len data) []]
         end).
Proof.
  unfold sequentialDiff. cbn [diff_Context]. rewrite Nat.ltb_irrefl.
  destruct data as [|b tl] eqn:Edata; [reflexivity|].
  rewrite <- Edata.
  assert (Hlen : length data = S (length tl)) by (subst; reflexivity).
  rewrite Hlen at 1. cbn [diff_loop ctx_done].
  assert (Hpos : (0 <? length data)%nat = true) by (apply Nat.ltb_lt; lia).
  rewrite Hpos.
  assert (Hsame : forall k, Byte.eqb (at_index data k) (at_index data k) = true)
    by (intros; now apply Byte.byte_dec_lb).
  rewrite Hsame.
  rewrite (advance_to_end data data (length data) true 0) by (auto; lia).
  destruct (length tl) as [|n] eqn:En.
  - cbn [diff_loop]. rewrite Nat.ltb_irrefl. unfold diff_tail.
    rewrite Nat.ltb_irrefl. cbn [bind app]. unfold len.
    now rewrite Z.sub_0_r.
  - cbn [diff_loop]. rewrite Nat.ltb_irrefl. unfold diff_tail.
    rewrite Nat.ltb_irrefl. cbn [bind app]. unfold len.
    now rewrite Z.sub_0_r.
Qed.

(** X9. One-sided empty inputs: against an empty old sequence the differ
    emits one INSERT that carries the whole new sequence, and against an
    empty new sequence one DELETE that spans the old one. *)
Theorem sequentialDiff_one_side_empty (data : list byte) (options : DiffOptions) :
  data <> [] ->
  sequentialDiff [] data options = Ret [mkPatch OP_INSERT 0 (len data) data] /\
  sequentialDiff data [] options = Ret [mkPatch OP_DELETE 0 (len data) []].
Proof.
  intros Hne. split.
  - now apply sequentialDiff_old_empty.
  - destruct data as [|b tl]; [congruence|].
    unfold sequentialDiff. cbn [length Nat.ltb Nat.leb diff_loop].
    unfold diff_tail. cbn [length Nat.ltb Nat.leb bind app].
    change (Z.of_nat 0) with 0. now rewrite Z.sub_0_r.
Qed.

Lemma sequentialDiff_one_side_empty_witness :
  sequentialDiff [] hello (mkDiffOptions DefaultConfig false Background)
  = Ret [mkPatch OP_INSERT 0 5 hello] /\
  sequentialDiff hello [] (mkDiffOptions DefaultConfig false Background)
  = Ret [mkPatch OP_DELETE 0 5 []].
Proof.
  apply (sequentialDiff_one_side_empty hello). discriminate.
Defined.

(** X10. A cancelled context empties both calls: with both inputs
    non-empty the differ returns the empty list, without the tail
    operation, and the applier, given a non-empty list whose capacity
    estimate [make] accepts (it is not negative and not above
    [maxAlloc]), returns the empty output. *)
Theorem cancelled_context_returns_nothing
  (oldData newData : list byte) (patches : list Patch)
  (cfg : Config) (progress verify : bool) :
  oldData <> [] -> newData <> [] ->
  patches <> [] -> 0 <= estimated_size patches <= maxAlloc ->
  sequentialDiff oldData newData (mkDiffOptions cfg progress Cancelled) = Ret [] /\
  ApplyPatchWithOptions oldData patches
    (Some (mkApplyOptions cfg progress Cancelled verify)) = Ret [].
Proof.
  intros Ho Hn Hp Hest. split.
  - destruct oldData as [|a oldTl]; [congruence|].
    destruct newData as [|b newTl]; [congruence|].
    unfold sequentialDiff. cbn [diff_Context length].
    destruct (S (length newTl) <? S (length oldTl))%nat; reflexivity.
  - unfold ApplyPatchWithOptions, make_empty_with_cap. cbn [apply_Context].
    destruct (Z.ltb_spec (estimated_size patches) 0); [lia|].
    destruct (Z.gtb_spec (estimated_size patches) maxAlloc); [lia|].
    destruct patches; [congruence|reflexivity].
Qed.

Lemma cancelled_context_returns_nothing_witness :
  sequentialDiff fox_old fox_new (mkDiffOptions DefaultConfig false Cancelled)
  = Ret [] /\
  ApplyPatchWithOptions fox_old [mkPatch OP_COPY 0 19 []]
    (Some (mkApplyOptions DefaultConfig false Cancelled true)) = Ret [].
Proof.
  apply cancelled_context_returns_nothing;
    [discriminate | discriminate | discriminate | vm_compute; split; discriminate].
Defined.

(* ================================================================== *)
(** * Further properties: the streaming strategy and the patch size *)

Lemma insert_only_at_end_app front : forall tl,
  Forall (fun p => Byte.eqb (Op p) OP_INSERT = false) front ->
  (length tl <= 1)%nat ->
  insert_only_at_end (front ++ tl).
Proof.
  induction front as [|p front IH]; intros tl Hall Htl.
  - destruct tl as [|q [|r tl]]; cbn in *; auto; lia.
  - inversion Hall as [|? ? Hp Hfront]; subst.
    specialize (IH tl Hfront Htl).
    cbn [app]. destruct (front ++ tl) eqn:E; cbn; auto.
Qed.

Lemma optimize_onto_identity rest : forall last,
  insert_only_at_end (last :: rest) -> optimize_onto last rest = last :: rest.
Proof.
  induction rest as [|next rest IH]; intros last H; [reflexivity|].
  destruct H as (Hlast & Hrest).
  cbn [optimize_onto]. unfold canMergePatches. rewrite Hlast.
  rewrite andb_false_r. cbn [andb]. f_equal. now apply IH.
Qed.

Lemma optimizePatches_identity patches :
  insert_only_at_end patches -> optimizePatches patches = patches.
Proof.
  intros H. unfold optimizePatches.
  destruct (length patches <=? 1)%nat; [reflexivity|].
  destruct patches; [reflexivity|now apply optimize_onto_identity].
Qed.

(** What the differ emits before the tail is COPY or REPLACE. *)
Lemma sequentialDiff_insert_only_at_end oldData newData cfg progress :
  exists patches,
    sequentialDiff oldData newData (mkDiffOptions cfg progress Background)
    = Ret patches /\
    insert_only_at_end patches.
Proof.
  unfold sequentialDiff. rewrite sequentialDiff_minLen. cbn [diff_Context].
  set (minLen := Nat.min (length oldData) (length newData)).
  apply (diff_loop_rule oldData newData minLen ltac:(lia) ltac:(lia) Background
           (fun _ patches =>
              Forall (fun p => Byte.eqb (Op p) OP_INSERT = false) patches)
           insert_only_at_end).
  - discriminate.
  - intros i i' patches Hall _ _. apply Forall_app. split; [exact Hall|].
    constructor; [reflexivity|constructor].
  - intros i i' patches Hall _. apply Forall_app. split; [exact Hall|].
    constructor; [reflexivity|constructor].
  - intros patches tl Hall Htl. apply insert_only_at_end_app; [exact Hall|].
    revert Htl. unfold diff_tail.
    destruct (minLen <? length newData)%nat.
    + destruct (slice newData (Z.of_nat minLen) (len newData)); cbn [bind];
        try discriminate.
      intros [= <-]. cbn. lia.
    + destruct (minLen <? length oldData)%nat; intros [= <-]; cbn; lia.
  - lia.
  - lia.
  - constructor.
Qed.

Lemma map_shift_offset_zero patches :
  Forall wf_patch patches -> map (shift_offset 0) patches = patches.
Proof.
  induction 1 as [|p ps (Ho & _) _ IH]; [reflexivity|].
  cbn [map]. rewrite IH. f_equal.
  unfold shift_offset. rewrite Z.add_0_r, wrap64_id by exact Ho.
  now destruct p.
Qed.

Lemma streaming_chunk_size_range options :
  0 < streaming_chunk_size options < 2 ^ 62.
Proof.
  unfold streaming_chunk_size.
  set (x := wrap64 (wrap64 (MaxMemoryMB (diff_Config options) * 1024) * 1024)).
  pose proof (wrap64_range (wrap64 (MaxMemoryMB (diff_Config options) * 1024) * 1024))
    as Hx. fold x in Hx. unfold in_int64 in Hx.
  destruct (Z.leb_spec (x ÷ 4) 0); [lia|].
  split; [lia|].
  assert (x ÷ 4 <= 2 ^ 63 ÷ 4) by (apply Z.quot_le_mono; lia).
  change (2 ^ 63 ÷ 4) with (2 ^ 61) in *. lia.
Qed.

Lemma streamingDiff_one_window
  (oldData newData : list byte) (cfg : Config) (progress : bool) :
  go_slice oldData -> go_slice newData ->
  newData <> [] ->
  len newData <= streaming_chunk_size (mkDiffOptions cfg progress Background) ->
  streamingDiff oldData newData (mkDiffOptions cfg progress Background)
  = sequentialDiff oldData newData (mkDiffOptions cfg progress Background).
Proof.
  intros Ho Hn Hne Hfit.
  set (options := mkDiffOptions cfg progress Background) in *.
  pose proof (streaming_chunk_size_range options) as Hc.
  destruct (sequentialDiff_replays oldData newData cfg progress Ho Hn)
    as (patches & Ediff & (Hwf & _ & _)).
  destruct (sequentialDiff_insert_only_at_end oldData newData cfg progress)
    as (patches' & Ediff' & Hio).
  fold options in Ediff, Ediff'.
  assert (patches' = patches) by congruence. subst patches'.
  rewrite Ediff. unfold streamingDiff.
  destruct newData as [|b tl] eqn:Enew; [congruence|]. rewrite <- Enew in *.
  assert (Hlen : length newData = S (length tl)) by (subst; reflexivity).
  assert (Hpos : 0 < len newData) by (unfold len; lia).
  rewrite Hlen. cbn [streaming_loop].
  destruct (Z.ltb_spec 0 (len newData)) as [_|]; [|lia].
  rewrite Z.add_0_l, wrap64_id by (unfold in_int64; lia).
  assert (Hend : (if streaming_chunk_size options >? len newData
                  then len newData else streaming_chunk_size options)
                 = len newData).
  { destruct (Z.gtb_spec (streaming_chunk_size options) (len newData)); lia. }
  rewrite Hend, slice_all. cbn [bind]. rewrite Ediff. cbn [bind app].
  rewrite map_shift_offset_zero by exact Hwf.
  destruct (length tl) as [|n]; cbn [streaming_loop].
  - destruct (Z.ltb_spec (streaming_chunk_size options) (len newData)); [lia|].
    now rewrite optimizePatches_identity.
  - destruct (Z.ltb_spec (streaming_chunk_size options) (len newData)); [lia|].
    now rewrite optimizePatches_identity.
Qed.

(** X11. A new sequence that fits in one window is diffed as by the
    reference differ: for a non-empty [NEW] no longer than the chunk size
    the streaming strategy returns exactly the list of [sequentialDiff]
    (which replays to [NEW]). *)
Theorem streamingDiff_single_window
  (oldData newData : list byte) (cfg : Config) (progress : bool) :
  go_slice oldData -> go_slice newData ->
  newData <> [] ->
  len newData <= streaming_chunk_size (mkDiffOptions cfg progress Background) ->
  streamingDiff oldData newData (mkDiffOptions cfg progress Background)
  = sequentialDiff oldData newData (mkDiffOptions cfg progress Background).
Proof. apply streamingDiff_one_window. Qed.

Lemma streamingDiff_single_window_witness :
  streamingDiff fox_old fox_new (mkDiffOptions cli_config false Background)
  = sequentialDiff fox_old fox_new (mkDiffOptions cli_config false Background).
Proof.
  apply streamingDiff_single_window.
  - unfold go_slice. vm_compute. discriminate.
  - unfold go_slice. vm_compute. discriminate.
  - discriminate.
  - vm_compute. discriminate.
Defined.

(** X12. An empty new sequence is not diffed at all by the streaming
    strategy: the loop over the windows makes no turn, the list is empty
    (no DELETE is emitted), and its replay returns the old data
    unchanged. *)
Theorem streamingDiff_empty_new (oldData : list byte) (options : DiffOptions) :
  streamingDiff oldData [] options = Ret [] /\
  ApplyPatch oldData [] = Ret oldData.
Proof.
  split; [reflexivity|].
  unfold ApplyPatch, ApplyPatchWithOptions. cbn [estimated_size fold_left].
  cbn [make_empty_with_cap Z.ltb Z.compare bind apply_Context apply_loop].
  unfold apply_finish.
  destruct (Z.ltb_spec 0 (len oldData)).
  - now rewrite slice_all.
  - destruct oldData; [reflexivity|unfold len in *; cbn [length] in *; lia].
Qed.

Lemma len_EncodePatch_snoc ps p :
  len (EncodePatch (ps ++ [p]))
  = len (EncodePatch ps) + 17 + (if carries_data (Op p) then len (Data p) else 0).
Proof.
  unfold EncodePatch. rewrite flat_map_app, len_app.
  fold (EncodePatch [p]). rewrite len_EncodePatch_single. lia.
Qed.

Lemma sequentialDiff_stream_bound
  (oldData newData : list byte) (cfg : Config) (progress : bool) :
  exists patches,
    sequentialDiff oldData newData (mkDiffOptions cfg progress Background)
    = Ret patches /\
    len (EncodePatch patches)
    <= 17 * (Z.min (len oldData) (len newData) + 1) + len newData.
Proof.
  unfold sequentialDiff. rewrite sequentialDiff_minLen. cbn [diff_Context].
  set (minLen := Nat.min (length oldData) (length newData)).
  apply (diff_loop_rule oldData newData minLen ltac:(lia) ltac:(lia) Background
           (fun i patches => len (EncodePatch patches) <= 18 * Z.of_nat i)
           (fun patches =>
              len (EncodePatch patches)
              <= 17 * (Z.min (len oldData) (len newData) + 1) + len newData)).
  - discriminate.
  - intros i i' patches Hb Hi _. rewrite len_EncodePatch_snoc. cbn [Op Data].
    change (carries_data OP_COPY) with false. cbv iota. lia.
  - intros i i' patches Hb Hi. rewrite len_EncodePatch_snoc. cbn [Op Data].
    change (carries_data OP_REPLACE) with true. cbv iota.
    rewrite len_window by lia. lia.
  - intros patches tl Hb. unfold diff_tail, len in *.
    destruct (Nat.ltb_spec minLen (length newData)) as [Hlt|Hge].
    + rewrite slice_ok by lia. cbn [bind]. intros [= <-].
      fold (len (EncodePatch
                   (patches ++
                    [mkPatch OP_INSERT (Z.of_nat minLen)
                       (Z.of_nat (length newData) - Z.of_nat minLen)
                       (firstn (length newData - minLen) (skipn minLen newData))]))).
      rewrite len_EncodePatch_snoc. cbn [Op Data].
      change (carries_data OP_INSERT) with true. cbv iota.
      rewrite len_window by lia. unfold len. lia.
    + destruct (Nat.ltb_spec minLen (length oldData)) as [Hlt'|Hge']; intros [= <-].
      * fold (len (EncodePatch
                     (patches ++
                      [mkPatch OP_DELETE (Z.of_nat minLen)
                         (Z.of_nat (length oldData) - Z.of_nat minLen) []]))).
        rewrite len_EncodePatch_snoc. cbn [Op Data].
        change (carries_data OP_DELETE) with false. cbv iota. unfold len. lia.
      * rewrite app_nil_r. lia.
  - lia.
  - lia.
  - cbn. lia.
Qed.

(** X13. The size of a patch is bounded: the operation stream of the
    reference differ takes at most 17 bytes for each position of the
    shorter input, 17 more for the tail operation, and the bytes of the
    new data. *)
Theorem sequentialDiff_stream_size
  (oldData newData : list byte) (cfg : Config) (progress : bool) :
  exists patches,
    sequentialDiff oldData newData (mkDiffOptions cfg progress Background)
    = Ret patches /\
    len (EncodePatch patches)
    <= 17 * (Z.min (len oldData) (len newData) + 1) + len newData.
Proof. apply sequentialDiff_stream_bound. Qed.

(* ================================================================== *)
(** * Further properties: the two commands *)

Lemma CompareHashes_iff h1 h2 : CompareHashes h1 h2 = true <-> h1 = h2.
Proof.
  split; [apply CompareHashes_true|intros ->; apply CompareHashes_refl].
Qed.

Lemma equal_bytes_from_eq a : forall b,
  length a = length b -> equal_bytes_from a b = true -> a = b.
Proof.
  induction a as [|x a IH]; intros [|y b] Hlen; try discriminate.
  - reflexivity.
  - cbn [equal_bytes_from].
    destruct (Byte.eqb x y) eqn:E; [|discriminate].
    apply Byte.byte_dec_bl in E. intros H. f_equal; [exact E|].
    apply IH; [now injection Hlen|exact H].
Qed.

(** X14. The two byte-wise comparisons decide equality: [core.EqualBytes]
    and [utils.CompareHashes] return true exactly when their arguments are
    the same byte sequence; sequences of different lengths are unequal
    whatever a common prefix holds. *)
Theorem byte_comparisons_decide_equality (a b : list byte) :
  (EqualBytes a b = true <-> a = b) /\ (CompareHashes a b = true <-> a = b).
Proof.
  split; [|apply CompareHashes_iff].
  unfold EqualBytes. split.
  - destruct (Nat.eqb_spec (length a) (length b)) as [Hlen|]; cbn [negb];
      [|discriminate].
    now apply equal_bytes_from_eq.
  - intros ->. rewrite Nat.eqb_refl. cbn [negb].
    induction b as [|y b IH]; [reflexivity|].
    cbn [equal_bytes_from]. now rewrite (Byte.byte_dec_lb (eq_refl y)).
Qed.

(** X15. A file is written only behind both gates: whenever a run of
    [runApply] writes an output, the patch decoded without error, the
    stored [old_hash] is the hash of the old data, the bytes written are
    what the replay of the decoded operations returned, the run reports no
    error, and, when result verification is on, their hash is the stored
    [new_hash].  The file name is the [--output] option, or the new name
    stored in the patch when the option is empty. *)
Theorem runApply_writes_only_verified_output
  (ComputeHash : list byte -> list byte)
  (oldData patchBytes : list byte) (options : CmdApplyOptions) (ctx : Context)
  (err : option CmdError) (effects : list Effect) (name data : list byte) :
  runApply ComputeHash oldData patchBytes options ctx = Ret (err, effects) ->
  In (WriteFile name data) effects ->
  exists df,
    DecodeDiffFile patchBytes = Ret (df, None) /\
    OldHash df = ComputeHash oldData /\
    ApplyPatchWithOptions oldData (types.Diff df)
      (Some (mkApplyOptions (mkConfig 0 0 0 0 false false)
               (cmd_ShowProgress options) ctx (cmd_VerifyResult options)))
    = Ret data /\
    (cmd_VerifyResult options = true -> NewHash df = ComputeHash data) /\
    err = None /\
    name = match OutputFile options with
           | [] => NewFileName df
           | given => given
           end.
Proof.
  unfold runApply.
  destruct (DecodeDiffFile patchBytes) as [[df [e|]]| |] eqn:Edec; cbn [bind];
    try discriminate.
  { intros [= <- <-] Hin. destruct (BackupOriginal options); cbn in Hin;
      intuition discriminate. }
  destruct (CompareHashes (ComputeHash oldData) (OldHash df)) eqn:Eold; cbn [negb].
  2:{ intros [= <- <-] Hin. destruct (BackupOriginal options); cbn in Hin;
        intuition discriminate. }
  apply CompareHashes_true in Eold.
  destruct (ApplyPatchWithOptions oldData (types.Diff df) _) as [newData| |] eqn:Eapply;
    cbn [bind]; try discriminate.
  destruct (cmd_VerifyResult options) eqn:Everify; cbn [andb].
  - destruct (CompareHashes (ComputeHash newData) (NewHash df)) eqn:Enew; cbn [negb].
    + apply CompareHashes_true in Enew.
      intros [= <- <-] Hin. exists df.
      rewrite !in_app_iff in Hin.
      assert (Hw : WriteFile (match OutputFile options with
                              | [] => NewFileName df | _ :: _ => OutputFile options
                              end) newData = WriteFile name data).
      { destruct Hin as [[Hin|Hin]|Hin].
        - destruct (BackupOriginal options); cbn in Hin; intuition discriminate.
        - cbn in Hin; intuition discriminate.
        - cbn in Hin. destruct Hin as [Hin|[]].
          destruct (OutputFile options); exact Hin. }
      injection Hw as Hname Hdata. subst data.
      repeat split; auto.
      destruct (OutputFile options); auto.
    + intros [= <- <-] Hin. rewrite in_app_iff in Hin.
      destruct Hin as [Hin|Hin];
        [destruct (BackupOriginal options)|]; cbn in Hin; intuition discriminate.
  - intros [= <- <-] Hin. exists df.
    rewrite !in_app_iff in Hin.
    assert (Hw : WriteFile (match OutputFile options with
                            | [] => NewFileName df | _ :: _ => OutputFile options
                            end) newData = WriteFile name data).
    { destruct Hin as [[Hin|Hin]|Hin].
      - destruct (BackupOriginal options); cbn in Hin; intuition discriminate.
      - cbn in Hin; intuition discriminate.
      - cbn in Hin. destruct Hin as [Hin|[]].
        destruct (OutputFile options); exact Hin. }
    injection Hw as Hname Hdata. subst data.
    repeat split; auto; try discriminate.
    destruct (OutputFile options); auto.
Qed.

Lemma runApply_writes_only_verified_output_witness :
  exists df,
    DecodeDiffFile
      (EncodeDiffFile
         (runDiff_header (bytes_of "old.txt"%string) (bytes_of "new.txt"%string)
            hello hello (repeat x00 32) (repeat x00 32) 0))
    = Ret (df, None) /\
    OldHash df = repeat x00 32 /\
    ApplyPatchWithOptions hello (types.Diff df)
      (Some (mkApplyOptions (mkConfig 0 0 0 0 false false) false Background true))
    = Ret hello /\
    (true = true -> NewHash df = repeat x00 32) /\
    @None CmdError = None /\
    bytes_of "new.txt"%string = NewFileName df.
Proof.
  apply (runApply_writes_only_verified_output (fun _ => repeat x00 32) hello
           (EncodeDiffFile
              (runDiff_header (bytes_of "old.txt"%string) (bytes_of "new.txt"%string)
                 hello hello (repeat x00 32) (repeat x00 32) 0))
           (mkCmdApplyOptions [] false true false) Background
           None [Replay []; WriteFile (bytes_of "new.txt"%string) hello]
           (bytes_of "new.txt"%string) hello).
  - vm_compute. reflexivity.
  - cbn. auto.
Defined.

Lemma wrap32_range z : - 2 ^ 31 <= wrap32 z < 2 ^ 31.
Proof.
  unfold wrap32.
  pose proof (Z.mod_pos_bound (z + 2 ^ 31) (2 ^ 32) ltac:(lia)). lia.
Qed.

(** X16. The two commands compose on inputs of one window: for any old
    data and a non-empty new data of at most 64 KiB, when the alignment
    step of [runDiff] is off or returns, the patch file that [runDiff]
    writes makes [runApply], run on the same old data, pass both hash
    gates and write exactly the new data, under every other setting of
    the flags of either command.  (The hash function only has to return
    32 bytes; the context is not cancelled.) *)
Theorem diff_then_apply_commands
  (ComputeHash : list byte -> list byte)
  (Rect : float -> float -> complex128) (Log2 : float -> float)
  (oldName newName oldData newData : list byte)
  (diffOptions : CmdDiffOptions) (applyOptions : CmdApplyOptions) :
  (forall data, length (ComputeHash data) = 32%nat) ->
  len oldName < 2 ^ 32 -> len newName < 2 ^ 32 ->
  go_slice oldData ->
  newData <> [] -> len newData <= 65536 ->
  (UseFFT diffOptions = true ->
   exists offset, ComputeOffset Rect Log2 oldData newData = Ret offset) ->
  exists patchName patchBytes patches,
    runDiff ComputeHash Rect Log2 oldName newName oldData newData
      diffOptions Background
    = Ret (patchName, patchBytes) /\
    runApply ComputeHash oldData patchBytes applyOptions Background
    = Ret (None,
           (if BackupOriginal applyOptions then [Backup] else [])
           ++ [Replay patches]
           ++ [WriteFile (match OutputFile applyOptions with
                          | [] => newName
                          | given => given
                          end) newData]).
Proof.
  intros Hhash Hon Hnn Ho Hne Hfit Halign.
  assert (Hn : go_slice newData) by (unfold go_slice, maxAlloc; lia).
  assert (Hoff : exists offset,
             (if UseFFT diffOptions
              then computed <- ComputeOffset Rect Log2 oldData newData ;;
                   Ret (wrap32 computed)
              else Ret 0) = Ret offset /\ - 2 ^ 31 <= offset < 2 ^ 31).
  { destruct (UseFFT diffOptions).
    - destruct (Halign eq_refl) as (computed & ->). cbn [bind].
      eexists. split; [reflexivity | apply wrap32_range].
    - eexists. split; [reflexivity | lia]. }
  destruct Hoff as (offset & Eoff & Hoff).
  set (cfg := mkConfig (diff_cmd_BlockSize diffOptions) (MinMatch diffOptions) 0
                (diff_cmd_MaxWorkers diffOptions) (UseFFT diffOptions)
                (diff_cmd_UseParallel diffOptions)).
  set (progress := diff_cmd_ShowProgress diffOptions).
  destruct (sequentialDiff_replays oldData newData cfg progress Ho Hn)
    as (patches & Ediff & Hpost).
  destruct (sequentialDiff_stream_bound oldData newData cfg progress)
    as (patches' & Ediff' & Hsize).
  assert (patches' = patches) by congruence. subst patches'.
  assert (Hpos : 0 < len newData).
  { destruct newData; [congruence|unfold len; cbn [length]; lia]. }
  pose proof (len_nonneg oldData) as Hold.
  assert (Estream : DiffWithOptions oldData newData
                      (Some (mkDiffOptions cfg progress Background))
                    = Ret patches).
  { unfold DiffWithOptions. cbv beta iota zeta. cbn [diff_Config MaxMemoryMB cfg].
    change (wrap64 (wrap64 (0 * 1024) * 1024)) with 0.
    destruct (Z.gtb_spec (len oldData + len newData) 0); [|lia].
    rewrite streamingDiff_one_window; auto. }
  set (hdr := runDiff_header oldName newName oldData newData
                (ComputeHash oldData) (ComputeHash newData) offset).
  assert (Hhdr : header_ok hdr).
  { apply header_ok_runDiff_header; auto. }
  assert (Hdec : DecodeDiffFile (EncodeDiffFile (with_payload hdr 0 patches))
                 = Ret (with_payload hdr (len (EncodePatch patches)) patches, None)).
  { apply (DecodeDiffFile_EncodeDiffFile_small (with_payload hdr 0 patches)).
    - exact Hhdr.
    - exact (proj1 Hpost).
    - cbn [types.Diff with_payload]. lia. }
  exists (match diff_OutputFile diffOptions with
          | [] => String.list_byte_of_string "patch.bdf"%string
          | name => name
          end),
         (EncodeDiffFile (with_payload hdr 0 patches)), patches.
  split.
  - unfold runDiff. fold cfg progress. rewrite Eoff. cbn [bind].
    rewrite Estream. cbn [bind]. reflexivity.
  - unfold runApply. rewrite Hdec. cbn [bind].
    cbn [OldHash NewHash NewFileName types.Diff with_payload hdr runDiff_header].
    rewrite CompareHashes_refl. cbn [negb].
    rewrite (ApplyPatchWithOptions_diff_post oldData newData) by assumption.
    cbn [bind]. rewrite CompareHashes_refl. cbn [negb].
    rewrite andb_false_r. rewrite <- app_assoc. reflexivity.
Qed.

Lemma diff_then_apply_commands_witness :
  exists patchName patchBytes patches,
    runDiff (fun _ => repeat x00 32) unit_Rect floor_Log2
      (bytes_of "old.txt"%string) (bytes_of "new.txt"%string) fox_old fox_new
      (mkCmdDiffOptions [] true true true 4 1024 64) Background
    = Ret (patchName, patchBytes) /\
    runApply (fun _ => repeat x00 32) fox_old patchBytes
      (mkCmdApplyOptions [] true true false) Background
    = Ret (None, [] ++ [Replay patches]
                 ++ [WriteFile (bytes_of "new.txt"%string) fox_new]).
Proof.
  apply (diff_then_apply_commands (fun _ => repeat x00 32) unit_Rect floor_Log2
           (bytes_of "old.txt"%string) (bytes_of "new.txt"%string) fox_old fox_new
           (mkCmdDiffOptions [] true true true 4 1024 64)
           (mkCmdApplyOptions [] true true false)).
  - intros. apply repeat_length.
  - vm_compute. reflexivity.
  - vm_compute. reflexivity.
  - unfold go_slice. vm_compute. discriminate.
  - discriminate.
  - vm_compute. discriminate.
  - intros _. eexists. vm_compute. reflexivity.
Defined.

(* ================================================================== *)
(** * Further properties: bit manipulation *)

Lemma smeared_init (m : Z) : smeared 1 m m.
Proof.
  intros i Hi. split.
  - intros H. exists 0. split; [lia|]. now rewrite Z.add_0_r.
  - intros (j & Hj & H). replace (i + j) with i in H by lia. exact H.
Qed.

Lemma smeared_smear (w s m : Z) :
  0 < w -> smeared w s m -> smeared (2 * w) (smear w s) m.
Proof.
  intros Hw Hs i Hi. unfold smear.
  rewrite Z.lor_spec, Z.shiftr_spec by lia.
  rewrite Bool.orb_true_iff, (Hs i Hi), (Hs (i + w)) by lia.
  split.
  - intros [(j & Hj & H) | (j & Hj & H)].
    + exists j. split; [lia | exact H].
    + exists (w + j). split; [lia|]. now replace (i + (w + j)) with (i + w + j) by lia.
  - intros (j & Hj & H).
    destruct (Z_lt_le_dec j w) as [L | L].
    + left. exists j. split; [lia | exact H].
    + right. exists (j - w). split; [lia|].
      now replace (i + w + (j - w)) with (i + j) by lia.
Qed.

Lemma smeared_ones (s m : Z) :
  0 < m < 2 ^ 32 -> smeared 32 s m -> s = Z.ones (Z.log2 m + 1).
Proof.
  intros Hm Hs.
  assert (Hk : 0 <= Z.log2 m < 32).
  { split; [apply Z.log2_nonneg | apply Z.log2_lt_pow2; lia]. }
  apply Z.bits_inj'. intros n Hn.
  rewrite Z.testbit_ones_nonneg by lia.
  destruct (Z.ltb_spec n (Z.log2 m + 1)) as [L | L].
  - apply (Hs n Hn). exists (Z.log2 m - n). split; [lia|].
    replace (n + (Z.log2 m - n)) with (Z.log2 m) by lia.
    apply Z.bit_log2. lia.
  - destruct (Z.testbit s n) eqn:E; [|reflexivity].
    apply (Hs n Hn) in E. destruct E as (j & Hj & E).
    rewrite Z.bits_above_log2 in E by lia. discriminate E.
Qed.

Lemma smears_ones (m : Z) :
  0 < m < 2 ^ 32 ->
  smear 16 (smear 8 (smear 4 (smear 2 (smear 1 m)))) = Z.ones (Z.log2 m + 1).
Proof.
  intros Hm. apply smeared_ones; [exact Hm|].
  apply (smeared_smear 16); [lia|].
  apply (smeared_smear 8); [lia|].
  apply (smeared_smear 4); [lia|].
  apply (smeared_smear 2); [lia|].
  apply (smeared_smear 1); [lia|].
  apply smeared_init.
Qed.

Lemma NextPowerOfTwo_log2 (n : Z) :
  2 <= n <= 2 ^ 32 -> NextPowerOfTwo n = 2 ^ (Z.log2 (n - 1) + 1).
Proof.
  intros Hn. unfold NextPowerOfTwo.
  destruct (Z.eqb_spec n 0) as [E | _]; [lia|].
  rewrite (wrap64_id (n - 1)) by (unfold in_int64; lia).
  cbv zeta. rewrite smears_ones by lia.
  assert (Hk : 0 <= Z.log2 (n - 1) < 32).
  { split; [apply Z.log2_nonneg | apply Z.log2_lt_pow2; lia]. }
  rewrite Z.ones_equiv.
  replace (Z.pred (2 ^ (Z.log2 (n - 1) + 1)) + 1) with (2 ^ (Z.log2 (n - 1) + 1)) by lia.
  apply wrap64_id.
  assert (2 ^ (Z.log2 (n - 1) + 1) <= 2 ^ 32) by (apply Z.pow_le_mono_r; lia).
  assert (0 < 2 ^ (Z.log2 (n - 1) + 1)) by (apply Z.pow_pos_nonneg; lia).
  unfold in_int64. lia.
Qed.

(** X17. [NextPowerOfTwo] rounds up to a power of two on the range where
    its five shifts suffice: for [0 <= n <= 2^32] the result is [2^k] with
    [k <= 32], it is at least [n], and for [n >= 2] it is less than [2 n],
    so it is the least power of two that is at least [n]. *)
Theorem NextPowerOfTwo_rounds_up (n : Z) :
  0 <= n <= 2 ^ 32 ->
  exists k, 0 <= k <= 32 /\ NextPowerOfTwo n = 2 ^ k /\
            n <= 2 ^ k /\ (2 <= n -> 2 ^ k < 2 * n).
Proof.
  intros Hn.
  destruct (Z_lt_le_dec n 2) as [L | L].
  - exists 0. assert (n = 0 \/ n = 1) as [-> | ->] by lia;
      (split; [lia|]; split; [reflexivity|]; split; [cbn; lia | lia]).
  - assert (Hk : 0 <= Z.log2 (n - 1) < 32).
    { split; [apply Z.log2_nonneg | apply Z.log2_lt_pow2; lia]. }
    exists (Z.log2 (n - 1) + 1).
    split; [lia|]. split; [apply NextPowerOfTwo_log2; lia|].
    pose proof (Z.log2_spec (n - 1) ltac:(lia)) as [Hlo Hhi].
    replace (Z.succ (Z.log2 (n - 1))) with (Z.log2 (n - 1) + 1) in Hhi by lia.
    split; [lia|]. intros _.
    rewrite Z.pow_add_r by lia. change (2 ^ 1) with 2. lia.
Qed.

Lemma NextPowerOfTwo_rounds_up_witness :
  0 <= 1000 <= 2 ^ 32 /\
  exists k, 0 <= k <= 32 /\ NextPowerOfTwo 1000 = 2 ^ k /\
            1000 <= 2 ^ k /\ (2 <= 1000 -> 2 ^ k < 2 * 1000).
Proof.
  split; [lia|]. apply (NextPowerOfTwo_rounds_up 1000). lia.
Defined.

(** The bound on [n] is needed: one past it the low bit stays clear. *)
Lemma NextPowerOfTwo_past_range :
  NextPowerOfTwo (2 ^ 32 + 1) = 2 ^ 33 - 1.
Proof. vm_compute. reflexivity. Qed.

Lemma land_1_odd (x : Z) : (Z.land x 1 =? 1) = Z.odd x.
Proof.
  change 1 with (Z.ones 1) at 1. rewrite Z.land_ones by lia.
  change (2 ^ 1) with 2. rewrite Zmod_odd. now destruct (Z.odd x).
Qed.

Lemma reverseBits_loop_spec (num bits : Z) :
  0 <= bits <= 63 ->
  forall count i r,
    0 <= i -> i + Z.of_nat count = bits ->
    reversed_upto num bits i r ->
    reversed_upto num bits bits (reverseBits_loop count num bits i r).
Proof.
  intros Hb. induction count as [| count IH]; intros i r Hi Hc Hr.
  - cbn. assert (i = bits) by lia. subst i. exact Hr.
  - cbn [reverseBits_loop]. apply IH; [lia | lia |].
    rewrite land_1_odd, <- Z.testbit_odd.
    intros j Hj. specialize (Hr j Hj).
    destruct (Z.testbit num i) eqn:Ei.
    + rewrite Z.lor_spec, Hr.
      rewrite Z.shiftl_1_l.
      rewrite wrap64_id.
      2:{ assert (0 < 2 ^ (bits - 1 - i)) by (apply Z.pow_pos_nonneg; lia).
          assert (2 ^ (bits - 1 - i) <= 2 ^ 62) by (apply Z.pow_le_mono_r; lia).
          unfold in_int64. lia. }
      rewrite Z.pow2_bits_eqb by lia.
      destruct (Z.eqb_spec (bits - 1 - i) j) as [E | E].
      * replace (bits - 1 - j) with i by lia. rewrite Ei.
        rewrite Bool.orb_true_r.
        destruct (Z.leb_spec (bits - (i + 1)) j); [|lia].
        destruct (Z.ltb_spec j bits); [|lia]. reflexivity.
      * rewrite Bool.orb_false_r.
        destruct (Z.leb_spec (bits - i) j), (Z.leb_spec (bits - (i + 1)) j);
          try lia; reflexivity.
    + rewrite Hr.
      destruct (Z.leb_spec (bits - i) j), (Z.leb_spec (bits - (i + 1)) j);
        try lia; try reflexivity.
      destruct (Z.ltb_spec j bits); [|reflexivity].
      replace (bits - 1 - j) with i by lia. now rewrite Ei.
Qed.

Lemma reverseBits_bits (num bits j : Z) :
  0 <= bits <= 63 -> 0 <= j ->
  Z.testbit (reverseBits num bits) j = (j <? bits) && Z.testbit num (bits - 1 - j).
Proof.
  intros Hb Hj. unfold reverseBits.
  rewrite (reverseBits_loop_spec num bits Hb (Z.to_nat bits) 0 0); [| lia | lia | | exact Hj].
  - replace (bits - bits) with 0 by lia.
    destruct (Z.leb_spec 0 j); [reflexivity | lia].
  - intros k Hk. rewrite Z.bits_0.
    destruct (Z.leb_spec (bits - 0) k), (Z.ltb_spec k bits); try lia; reflexivity.
Qed.

Lemma bits_below (r bits : Z) :
  0 <= bits ->
  (forall j, bits <= j -> Z.testbit r j = false) -> 0 <= r < 2 ^ bits.
Proof.
  intros Hb H.
  assert (Hr : 0 <= r).
  { apply Z.bits_iff_nonneg_ex. exists bits. intros m Hm. apply H. lia. }
  split; [exact Hr|].
  destruct (Z.eq_dec r 0) as [-> | Hne].
  - apply Z.pow_pos_nonneg; lia.
  - apply Z.log2_lt_pow2; [lia|].
    destruct (Z_lt_le_dec (Z.log2 r) bits) as [L | L]; [exact L|].
    pose proof (Z.bit_log2 r ltac:(lia)) as Hbit.
    rewrite H in Hbit by lia. discriminate Hbit.
Qed.

Lemma reverseBits_range (num bits : Z) :
  0 <= bits <= 63 -> 0 <= reverseBits num bits < 2 ^ bits.
Proof.
  intros Hb. apply bits_below; [lia|].
  intros j Hj. rewrite reverseBits_bits by lia.
  destruct (Z.ltb_spec j bits); [lia | reflexivity].
Qed.

Lemma reverseBits_involutive (num bits : Z) :
  0 <= bits <= 63 -> 0 <= num < 2 ^ bits ->
  reverseBits (reverseBits num bits) bits = num.
Proof.
  intros Hb Hn. apply Z.bits_inj'. intros j Hj.
  rewrite reverseBits_bits by lia.
  destruct (Z.ltb_spec j bits) as [L | L].
  - rewrite reverseBits_bits by lia.
    destruct (Z.ltb_spec (bits - 1 - j) bits); [|lia].
    cbn [andb]. f_equal. lia.
  - cbn [andb]. symmetry.
    destruct (Z.eq_dec num 0) as [-> | Hne]; [apply Z.bits_0|].
    apply Z.bits_above_log2; [lia|].
    assert (Z.log2 num < bits) by (apply Z.log2_lt_pow2; lia). lia.
Qed.

(** X18. Bit reversal on [bits <= 63] bits: bit [j] of the result is bit
    [bits - 1 - j] of the argument, the result fits in [bits] bits, and on
    an argument that fits in [bits] bits reversing twice gives the argument
    back, so the index table of the FFT is a permutation that is its own
    inverse. *)
Theorem ReverseBits_mirror (num bits : Z) :
  0 <= bits <= 63 ->
  (forall j, 0 <= j < bits ->
     Z.testbit (ReverseBits num bits) j = Z.testbit num (bits - 1 - j)) /\
  0 <= ReverseBits num bits < 2 ^ bits /\
  (0 <= num < 2 ^ bits -> ReverseBits (ReverseBits num bits) bits = num).
Proof.
  intros Hb. unfold ReverseBits. split; [|split].
  - intros j Hj. rewrite reverseBits_bits by lia.
    destruct (Z.ltb_spec j bits); [reflexivity | lia].
  - apply reverseBits_range. exact Hb.
  - apply reverseBits_involutive. exact Hb.
Qed.

Lemma ReverseBits_mirror_witness :
  0 <= 3 <= 63 /\
  (forall j, 0 <= j < 3 ->
     Z.testbit (ReverseBits 6 3) j = Z.testbit 6 (3 - 1 - j)) /\
  0 <= ReverseBits 6 3 < 2 ^ 3 /\
  (0 <= 6 < 2 ^ 3 -> ReverseBits (ReverseBits 6 3) 3 = 6).
Proof.
  split; [lia|]. apply (ReverseBits_mirror 6 3). lia.
Defined.

(* ================================================================== *)
(** * Further properties: retrying *)

Lemma retry_loop_success {E : Type} (attempts : Z) (fn : nat -> option E) (k : nat) :
  fn k = None ->
  (forall j, (j < k)%nat -> fn j <> None) ->
  forall count calls delay lastErr pauses,
    Z.of_nat calls + Z.of_nat count = attempts ->
    (calls <= k)%nat -> (k < calls + count)%nat ->
    retry_loop count attempts (Z.of_nat calls) delay fn calls lastErr pauses =
    (None, S k, pauses ++ backoff delay (k - calls)).
Proof.
  intros Hk Hfail. induction count as [| count IH];
    intros calls delay lastErr pauses Hc Hle Hlt; [lia|].
  cbn [retry_loop].
  destruct (Nat.eq_dec calls k) as [-> | Hne].
  - rewrite Hk, Nat.sub_diag. cbn [backoff]. now rewrite app_nil_r.
  - destruct (fn calls) as [err|] eqn:Ecall.
    2:{ exfalso. apply (Hfail calls); [lia | exact Ecall]. }
    destruct (Z.ltb_spec (Z.of_nat calls) (attempts - 1)) as [L | L]; [|lia].
    replace (Z.of_nat calls + 1) with (Z.of_nat (S calls)) by lia.
    rewrite IH by lia.
    replace (k - calls)%nat with (S (k - S calls)) by lia.
    cbn [backoff]. now rewrite <- app_assoc.
Qed.

Lemma retry_loop_failure {E : Type} (attempts : Z) (fn : nat -> option E) :
  (forall j, Z.of_nat j < attempts -> fn j <> None) ->
  forall count calls delay lastErr pauses,
    Z.of_nat calls + Z.of_nat count = attempts ->
    retry_loop count attempts (Z.of_nat calls) delay fn calls lastErr pauses =
    (Some (FailedAfter attempts
             (match count with O => lastErr | S _ => fn (calls + count - 1)%nat end)),
     (calls + count)%nat, pauses ++ backoff delay (count - 1)).
Proof.
  intros Hfail. induction count as [| count IH];
    intros calls delay lastErr pauses Hc.
  - cbn. now rewrite Nat.add_0_r, app_nil_r.
  - cbn [retry_loop].
    destruct (fn calls) as [err|] eqn:Ecall.
    2:{ exfalso. apply (Hfail calls); [lia | exact Ecall]. }
    replace (Z.of_nat calls + 1) with (Z.of_nat (S calls)) by lia.
    destruct (Z.ltb_spec (Z.of_nat calls) (attempts - 1)) as [L | L].
    + rewrite IH by lia. destruct count as [| count']; [lia|].
      replace (S calls + S count' - 1)%nat with (calls + S (S count') - 1)%nat by lia.
      replace (S calls + S count')%nat with (calls + S (S count'))%nat by lia.
      replace (S (S count') - 1)%nat with (S (S count' - 1)) by lia.
      cbn [backoff]. now rewrite <- app_assoc.
    + rewrite IH by lia. destruct count as [| count']; [|lia].
      replace (calls + 1 - 1)%nat with calls by lia. rewrite Ecall.
      replace (S calls + 0)%nat with (calls + 1)%nat by lia.
      cbn. now rewrite app_nil_r.
Qed.

(** X19. [Retry] stops at the first success: when the call number [k]
    (from 0) of [fn] is the first to return nil and [k < attempts], [Retry]
    returns nil after exactly [k + 1] calls, having paused once after each
    failure, for [delay], [2 delay], [4 delay], ... *)
Theorem Retry_stops_at_first_success {E : Type}
  (attempts delay : Z) (fn : nat -> option E) (k : nat) :
  fn k = None ->
  (forall j, (j < k)%nat -> fn j <> None) ->
  Z.of_nat k < attempts ->
  Retry attempts delay fn = (None, S k, backoff delay k).
Proof.
  intros Hk Hfail Hlt. unfold Retry.
  rewrite (retry_loop_success attempts fn k Hk Hfail (Z.to_nat attempts) 0%nat);
    [| lia | lia | lia].
  now rewrite Nat.sub_0_r.
Qed.

Lemma Retry_stops_at_first_success_witness :
  fails_twice 2%nat = None /\
  (forall j, (j < 2)%nat -> fails_twice j <> None) /\
  Z.of_nat 2 < 5 /\
  Retry 5 100 fails_twice = (None, 3%nat, [100; 200]).
Proof.
  assert (H1 : fails_twice 2%nat = None) by reflexivity.
  assert (H2 : forall j, (j < 2)%nat -> fails_twice j <> None).
  { intros j Hj. unfold fails_twice.
    destruct (Nat.ltb_spec j 2); [discriminate | lia]. }
  assert (H3 : Z.of_nat 2 < 5) by lia.
  split; [exact H1|]. split; [exact H2|]. split; [exact H3|].
  exact (Retry_stops_at_first_success 5 100 fails_twice 2 H1 H2 H3).
Defined.

(** X20. [Retry] gives up after exactly [attempts] calls: when each of the
    first [attempts] calls fails, [fn] is called [attempts] times, the
    error reports [attempts] and wraps the error of the last call, and
    there are [attempts - 1] pauses, none after the last call.  With
    [attempts <= 0], [fn] is never called and the error wraps nil. *)
Theorem Retry_gives_up_after_attempts {E : Type}
  (attempts delay : Z) (fn : nat -> option E) :
  (forall j, Z.of_nat j < attempts -> fn j <> None) ->
  Retry attempts delay fn =
  (Some (FailedAfter attempts
           (if 0 <? attempts then fn (Z.to_nat attempts - 1)%nat else None)),
   Z.to_nat attempts, backoff delay (Z.to_nat attempts - 1)).
Proof.
  intros Hfail. unfold Retry.
  destruct (Z.ltb_spec 0 attempts) as [L | L].
  - rewrite (retry_loop_failure attempts fn Hfail (Z.to_nat attempts) 0%nat) by lia.
    destruct (Z.to_nat attempts) as [| n] eqn:En; [lia|].
    reflexivity.
  - replace (Z.to_nat attempts) with 0%nat by lia. reflexivity.
Qed.

Lemma Retry_gives_up_after_attempts_witness :
  (forall j, Z.of_nat j < 3 -> always_fails j <> None) /\
  Retry 3 100 always_fails =
  (Some (FailedAfter 3 (Some (bytes_of "busy"%string))), 3%nat, [100; 200]).
Proof.
  assert (H : forall j, Z.of_nat j < 3 -> always_fails j <> None)
    by (intros j _; discriminate).
  split; [exact H|].
  exact (Retry_gives_up_after_attempts 3 100 always_fails H).
Defined.

(* ================================================================== *)
(** * Further properties: the optimizer and the replay *)

Lemma between_app (s : list byte) (a b c : Z) :
  0 <= a -> a <= b -> b <= c ->
  between s a b ++ between s b c = between s a c.
Proof.
  intros Ha Hab Hbc. unfold between.
  replace (Z.to_nat b) with (Z.to_nat (b - a) + Z.to_nat a)%nat by lia.
  rewrite <- skipn_skipn, firstn_extend. f_equal. lia.
Qed.

Lemma between_empty (s : list byte) (a : Z) : between s a a = [].
Proof. unfold between. now rewrite Z.sub_diag. Qed.

Lemma between_all (s : list byte) : between s 0 (len s) = s.
Proof.
  unfold between, len. rewrite Z.sub_0_r, Nat2Z.id. cbn [Z.to_nat skipn].
  apply firstn_all.
Qed.

Lemma len_between (s : list byte) (a b : Z) :
  0 <= a -> a <= b -> b <= len s -> len (between s a b) = b - a.
Proof.
  intros Ha Hab Hb. unfold between, len in *.
  rewrite length_firstn, length_skipn. lia.
Qed.

Lemma slice_between (s : list byte) (lo hi : Z) :
  0 <= lo -> lo <= hi -> hi <= len s -> slice s lo hi = Ret (between s lo hi).
Proof. intros. unfold between. now apply slice_Z_ok. Qed.

(** X21. [OptimizePatches] merges to the end and never adds an operation:
    whatever the list, no operation of the result would still absorb its
    successor, and the result is not longer than the list. *)
Theorem OptimizePatches_merges_fully (patches : list Patch) :
  no_merge (OptimizePatches patches) = true /\
  (length (OptimizePatches patches) <= length patches)%nat.
Proof.
  split; [|apply length_OptimizePatches].
  destruct (Nat.leb_spec 2 (length patches)) as [H | H].
  - now apply OptimizePatches_output_no_merge.
  - unfold OptimizePatches.
    destruct (Nat.leb_spec (length patches) 1) as [_ | H']; [|lia].
    destruct patches as [| p [| q rest]]; [reflexivity | reflexivity |].
    cbn [length] in H. lia.
Qed.

(** X22. The empty patch is the identity: with no operation to replay,
    the applier returns the old data, whatever the options and the state
    of the context. *)
Theorem ApplyPatchWithOptions_empty_patch
  (oldData : list byte) (options : option ApplyOptions) :
  ApplyPatchWithOptions oldData [] options = Ret oldData /\
  ApplyPatch oldData [] = Ret oldData.
Proof.
  assert (H : forall o, ApplyPatchWithOptions oldData [] o = Ret oldData).
  { intros o. unfold ApplyPatchWithOptions, make_empty_with_cap.
    cbn [estimated_size fold_left]. cbn [Z.ltb Z.compare bind apply_loop apply_finish].
    destruct (Z.ltb_spec 0 (len oldData)) as [Hlt | Hge].
    - rewrite slice_all. reflexivity.
    - destruct oldData; [reflexivity|]. unfold len in Hge. cbn [length] in Hge. lia. }
  split; [apply H | apply H].
Qed.

(** A field for which the reader is too short keeps its zero value, and
    the reader is drained. *)
Lemma binary_Read_ignore_short (r : Reader) (width : nat) :
  (length r < width)%nat -> binary_Read_ignore r width = (0, []).
Proof.
  intros H. unfold binary_Read_ignore, binary_Read, ReadFull.
  destruct width as [| w]; [lia|].
  destruct (Nat.leb_spec (S w) (length r)); [lia | reflexivity].
Qed.

Lemma binary_Read_ignore_enough (r : Reader) (width : nat) :
  (0 < width <= length r)%nat ->
  binary_Read_ignore r width = (le_decode (firstn width r), skipn width r).
Proof.
  intros H. unfold binary_Read_ignore, binary_Read, ReadFull.
  destruct width as [| w]; [lia|].
  destruct (Nat.leb_spec (S w) (length r)); [reflexivity | lia].
Qed.

(** X23. A container that ends before its third field is accepted: for an
    input of fewer than 12 bytes [DecodeDiffFile] returns no error; the
    magic number and the version are what could be read of them, every
    other field has its zero value, both digests are 32 zero bytes and
    there is no operation. *)
Theorem DecodeDiffFile_short_input (data : list byte) :
  (length data < 12)%nat ->
  DecodeDiffFile data =
  Ret (mkDiffFile
         (if (4 <=? length data)%nat then le_decode (firstn 4 data) else 0)
         (if (8 <=? length data)%nat then le_decode (firstn 4 (skipn 4 data)) else 0)
         0 [] 0 [] 0 0 (repeat x00 32) (repeat x00 32) 0 0 [], None).
Proof.
  intros Hlen. unfold DecodeDiffFile.
  destruct (Nat.leb_spec 4 (length data)) as [H4 | H4].
  - rewrite (binary_Read_ignore_enough data 4) by lia.
    destruct (Nat.leb_spec 8 (length data)) as [H8 | H8].
    + rewrite (binary_Read_ignore_enough (skipn 4 data) 4)
        by (rewrite length_skipn; lia).
      rewrite (binary_Read_ignore_short (skipn 4 (skipn 4 data)) 4)
        by (rewrite !length_skipn; lia).
      reflexivity.
    + rewrite (binary_Read_ignore_short (skipn 4 data) 4)
        by (rewrite length_skipn; lia).
      reflexivity.
  - destruct (Nat.leb_spec 8 (length data)) as [H8 | H8]; [lia|].
    rewrite (binary_Read_ignore_short data 4) by lia.
    reflexivity.
Qed.

Lemma DecodeDiffFile_short_input_witness :
  (length (@nil byte) < 12)%nat /\
  DecodeDiffFile [] =
  Ret (mkDiffFile 0 0 0 [] 0 [] 0 0 (repeat x00 32) (repeat x00 32) 0 0 [], None).
Proof.
  split; [cbn; lia|]. apply (DecodeDiffFile_short_input []). cbn. lia.
Defined.

(** One turn of the replay loop on a COPY, from any cursor: the gap and
    the copy together append the bytes of [oldData] between the cursor and
    the new cursor. *)
Lemma apply_step_COPY_from oldData p cursor out :
  Op p = OP_COPY -> 0 <= cursor -> 0 <= Length p ->
  Z.max cursor (len oldData) + Length p < 2 ^ 63 ->
  Offset p <= len oldData ->
  let s := Z.max cursor (Offset p) in
  let e := if s <? len oldData then Z.min (s + Length p) (len oldData) else s in
  apply_step oldData p (cursor, out) = Ret (e, out ++ between oldData cursor e).
Proof.
  intros Hop Hc Hl Hb Hoff s e. pose proof (len_nonneg oldData) as Hn.
  unfold apply_step. rewrite Hop.
  change (Byte.eqb OP_COPY OP_INSERT) with false.
  change (Byte.eqb OP_COPY OP_REPLACE) with false.
  change (Byte.eqb OP_COPY OP_DELETE) with false.
  change (Byte.eqb OP_COPY OP_COPY) with true. cbn [orb].
  destruct (Z.gtb_spec (Offset p) (len oldData)) as [H | _]; [lia|].
  destruct (Z.gtb_spec (Offset p) cursor) as [Hgap | Hnogap].
  - rewrite slice_between by lia. cbn [bind].
    rewrite wrap64_id by (unfold in_int64; lia).
    assert (Es : s = Offset p) by (unfold s; lia).
    destruct (Z.gtb_spec (Offset p + Length p) (len oldData)) as [Hclip | Hfit];
      destruct (Z.ltb_spec (Offset p) (len oldData)) as [Hlt | Hge]; cbn [andb].
    + destruct (Z.gtb_spec (len oldData) (Offset p)) as [_ | H]; [|lia].
      rewrite slice_between by lia. cbn [bind].
      assert (Ee : e = len oldData).
      { unfold e. rewrite Es. destruct (Z.ltb_spec (Offset p) (len oldData)); lia. }
      rewrite Ee, <- app_assoc, between_app by lia. reflexivity.
    + assert (Ee : e = Offset p).
      { unfold e. rewrite Es. destruct (Z.ltb_spec (Offset p) (len oldData)); lia. }
      rewrite Ee. reflexivity.
    + assert (Ee : e = Offset p + Length p).
      { unfold e. rewrite Es. destruct (Z.ltb_spec (Offset p) (len oldData)); lia. }
      destruct (Z.gtb_spec (Offset p + Length p) (Offset p)) as [Hpos | Hzero].
      * rewrite slice_between by lia. cbn [bind].
        rewrite Ee, <- app_assoc, between_app by lia. reflexivity.
      * assert (Length p = 0) by lia.
        rewrite Ee. replace (Offset p + Length p) with (Offset p) by lia.
        reflexivity.
    + assert (Ee : e = Offset p).
      { unfold e. rewrite Es. destruct (Z.ltb_spec (Offset p) (len oldData)); lia. }
      rewrite Ee. reflexivity.
  - cbn [bind]. rewrite wrap64_id by (unfold in_int64; lia).
    assert (Es : s = cursor) by (unfold s; lia).
    destruct (Z.gtb_spec (cursor + Length p) (len oldData)) as [Hclip | Hfit];
      destruct (Z.ltb_spec cursor (len oldData)) as [Hlt | Hge]; cbn [andb].
    + destruct (Z.gtb_spec (len oldData) cursor) as [_ | H]; [|lia].
      rewrite slice_between by lia. cbn [bind].
      assert (Ee : e = len oldData).
      { unfold e. rewrite Es. destruct (Z.ltb_spec cursor (len oldData)); lia. }
      rewrite Ee. reflexivity.
    + assert (Ee : e = cursor).
      { unfold e. rewrite Es. destruct (Z.ltb_spec cursor (len oldData)); lia. }
      rewrite Ee, between_empty, app_nil_r. reflexivity.
    + assert (Ee : e = cursor + Length p).
      { unfold e. rewrite Es. destruct (Z.ltb_spec cursor (len oldData)); lia. }
      destruct (Z.gtb_spec (cursor + Length p) cursor) as [Hpos | Hzero].
      * rewrite slice_between by lia. cbn [bind]. rewrite Ee. reflexivity.
      * assert (Length p = 0) by lia.
        rewrite Ee. replace (cursor + Length p) with cursor by lia.
        rewrite between_empty, app_nil_r. reflexivity.
    + assert (Ee : e = cursor).
      { unfold e. rewrite Es. destruct (Z.ltb_spec cursor (len oldData)); lia. }
      rewrite Ee, between_empty, app_nil_r. reflexivity.
Qed.

Lemma OptimizePatches_COPY_pair c n :
  merge_copy c n = true ->
  Op c = OP_COPY /\ Op n = OP_COPY /\
  wrap64 (Offset c + Length c) = Offset n /\
  OptimizePatches [c; n] =
  [mkPatch (Op c) (Offset c) (wrap64 (Length c + Length n)) (Data c)].
Proof.
  intros H. pose proof H as H'. unfold merge_copy in H'.
  apply andb_true_iff in H' as (H' & Hoff).
  apply andb_true_iff in H' as (Hc & Hn).
  apply Byte.byte_dec_bl in Hc, Hn. apply Z.eqb_eq in Hoff.
  repeat split; try assumption.
  unfold OptimizePatches. cbn [length Nat.leb optimize_from].
  assert (Hi : merge_insert c n = false).
  { unfold merge_insert. rewrite Hc. reflexivity. }
  rewrite Hi, H. reflexivity.
Qed.

(** X24. Merging two adjacent COPY operations does not change the replay:
    when [OptimizePatches] merges a COPY with the COPY that starts where it
    ends, replaying the merged operation from any cursor and output gives
    the cursor and the output that replaying the two gives. *)
Theorem merged_COPY_replays_alike oldData c n cursor out :
  merge_copy c n = true ->
  0 <= cursor -> 0 <= Length c -> 0 <= Length n ->
  - 2 ^ 63 <= Offset c + Length c ->
  Z.max (Z.max cursor (Offset c)) (len oldData) + Length c + Length n < 2 ^ 63 ->
  apply_steps oldData (OptimizePatches [c; n]) (cursor, out) =
  apply_steps oldData [c; n] (cursor, out).
Proof.
  intros Hm Hcur Hlc Hln Hlow Hb. pose proof (len_nonneg oldData) as Hlen.
  destruct (OptimizePatches_COPY_pair c n Hm) as (Hc & Hn & Hoff & ->).
  rewrite wrap64_id in Hoff by (unfold in_int64; lia).
  cbn [apply_steps].
  destruct (Z_lt_le_dec (len oldData) (Offset c)) as [Hskip | Hin].
  { rewrite (apply_step_skips oldData c) by lia.
    rewrite apply_step_skips by (cbn [Offset]; lia). cbn [bind].
    rewrite (apply_step_skips oldData n) by lia. reflexivity. }
  rewrite (apply_step_COPY_from oldData c cursor out) by (auto; lia).
  rewrite apply_step_COPY_from;
    cbn [Op Offset Length];
    try rewrite wrap64_id by (unfold in_int64; lia); auto; try lia.
  cbn [bind].
  set (s := Z.max cursor (Offset c)).
  set (e1 := if s <? len oldData then Z.min (s + Length c) (len oldData) else s).
  set (e := if s <? len oldData
            then Z.min (s + (Length c + Length n)) (len oldData) else s).
  destruct (Z_lt_le_dec (len oldData) (Offset n)) as [Hskip | Hin'].
  - rewrite apply_step_skips by lia. cbn [bind].
    assert (E : e1 = e).
    { unfold e1, e. destruct (Z.ltb_spec s (len oldData)); unfold s in *; lia. }
    rewrite E. reflexivity.
  - assert (H1 : cursor <= e1).
    { unfold e1. destruct (Z.ltb_spec s (len oldData)); unfold s in *; lia. }
    rewrite (apply_step_COPY_from oldData n e1) by
      (auto; unfold e1; destruct (Z.ltb_spec s (len oldData)); unfold s in *; lia).
    cbn [bind].
    assert (E : (if Z.max e1 (Offset n) <? len oldData
                 then Z.min (Z.max e1 (Offset n) + Length n) (len oldData)
                 else Z.max e1 (Offset n)) = e).
    { unfold e1, e.
      destruct (Z.ltb_spec s (len oldData)), (Z.ltb_spec (Z.max e1 (Offset n)) (len oldData));
        unfold e1, s in *;
        repeat match goal with
               | H : context [if ?a <? ?b then _ else _] |- _ =>
                   destruct (Z.ltb_spec a b)
               | |- context [if ?a <? ?b then _ else _] =>
                   destruct (Z.ltb_spec a b)
               end; lia. }
    rewrite E, <- app_assoc, between_app; [reflexivity | lia | lia |].
    rewrite <- E.
    destruct (Z.ltb_spec (Z.max e1 (Offset n)) (len oldData)); lia.
Qed.

Lemma merged_COPY_replays_alike_witness :
  apply_steps fox_old
    (OptimizePatches [mkPatch OP_COPY 0 4 []; mkPatch OP_COPY 4 6 []]) (0, []) =
  apply_steps fox_old [mkPatch OP_COPY 0 4 []; mkPatch OP_COPY 4 6 []] (0, []).
Proof.
  apply merged_COPY_replays_alike; cbn [Offset Length];
    [reflexivity | lia | lia | lia | lia | vm_compute; reflexivity].
Defined.

Lemma OptimizePatches_INSERT_pair p q :
  merge_insert p q = true ->
  Op p = OP_INSERT /\ Op q = OP_INSERT /\
  wrap64 (Offset p + Length p) = Offset q /\
  OptimizePatches [p; q] =
  [mkPatch (Op p) (Offset p) (wrap64 (Length p + Length q)) (Data p ++ Data q)].
Proof.
  intros H. pose proof H as H'. unfold merge_insert in H'.
  apply andb_true_iff in H' as (H' & Hoff).
  apply andb_true_iff in H' as (Hp & Hq).
  apply Byte.byte_dec_bl in Hp, Hq. apply Z.eqb_eq in Hoff.
  repeat split; try assumption.
  unfold OptimizePatches. cbn [length Nat.leb optimize_from].
  rewrite H. reflexivity.
Qed.

(** One turn of the replay loop on an INSERT whose offset is inside
    [oldData]: the gap up to the offset is copied, the data is appended
    and the cursor stays on the offset. *)
Lemma apply_step_INSERT_from oldData p cursor out :
  Op p = OP_INSERT -> 0 <= cursor -> Offset p <= len oldData ->
  let s := Z.max cursor (Offset p) in
  apply_step oldData p (cursor, out) =
  Ret (s, out ++ between oldData cursor s ++ Data p).
Proof.
  intros Hop Hc Hoff s. unfold apply_step. rewrite Hop.
  change (Byte.eqb OP_INSERT OP_INSERT) with true. cbv iota.
  destruct (Z.gtb_spec (Offset p) (len oldData)) as [H | _]; [lia|].
  destruct (Z.gtb_spec (Offset p) cursor) as [Hgap | Hnogap].
  - rewrite slice_between by lia. cbn [bind].
    replace s with (Offset p) by (unfold s; lia).
    now rewrite <- app_assoc.
  - cbn [bind]. replace s with cursor by (unfold s; lia).
    now rewrite between_empty.
Qed.

Lemma apply_finish_between oldData cursor out :
  0 <= cursor <= len oldData ->
  apply_finish oldData (cursor, out) =
  Ret (out ++ between oldData cursor (len oldData)).
Proof.
  intros Hc. unfold apply_finish.
  destruct (Z.ltb_spec cursor (len oldData)) as [Hlt | Hge].
  - rewrite slice_between by lia. reflexivity.
  - replace cursor with (len oldData) by lia.
    now rewrite between_empty, app_nil_r.
Qed.

(** X25. Merging two adjacent INSERT operations changes the replay.  An
    INSERT does not move the read cursor, so the two operations replay as
    the first data, the [Length] old bytes that separate the two offsets,
    then the second data; or, when the second offset lies beyond the old
    data, as the first data alone, the second operation being skipped.
    The operation [OptimizePatches] merges them into replays as the two
    data one after the other.  (The two lengths add up to a capacity
    [make] accepts.) *)
Theorem merged_INSERT_replay oldData p q :
  merge_insert p q = true ->
  0 <= Offset p <= len oldData ->
  0 <= Length p -> 0 <= Length q ->
  Offset p + Length p < 2 ^ 63 -> Length p + Length q <= maxAlloc ->
  ApplyPatch oldData [p; q] =
  Ret (between oldData 0 (Offset p) ++ Data p ++
       (if Offset q <=? len oldData
        then between oldData (Offset p) (Offset q) ++ Data q ++
             between oldData (Offset q) (len oldData)
        else between oldData (Offset p) (len oldData))) /\
  ApplyPatch oldData (OptimizePatches [p; q]) =
  Ret (between oldData 0 (Offset p) ++ (Data p ++ Data q) ++
       between oldData (Offset p) (len oldData)).
Proof.
  intros Hm Hoff Hlp Hlq Hb1 Hb2.
  destruct (OptimizePatches_INSERT_pair p q Hm) as (Hp & Hq & Hnext & ->).
  rewrite wrap64_id in Hnext by (unfold in_int64; lia).
  unfold ApplyPatch, ApplyPatchWithOptions, make_empty_with_cap, estimated_size.
  cbn [fold_left Op Length apply_Context]. rewrite Hp, Hq.
  change (produces_output OP_INSERT) with true. cbv iota.
  rewrite !Z.add_0_l.
  pose proof Hb2 as Hb2'. unfold maxAlloc in Hb2'.
  rewrite (wrap64_id (Length p)) by (unfold in_int64; lia).
  rewrite !(wrap64_id (Length p + Length q)) by (unfold in_int64; lia).
  destruct (Z.ltb_spec (Length p + Length q) 0) as [H | _]; [lia|].
  destruct (Z.gtb_spec (Length p + Length q) maxAlloc) as [H | _]; [lia|].
  cbn [orb bind]. rewrite !apply_loop_Background. cbn [apply_steps].
  split.
  - rewrite (apply_step_INSERT_from oldData p 0 []) by (auto; lia).
    cbn [bind app]. replace (Z.max 0 (Offset p)) with (Offset p) by lia.
    destruct (Z.leb_spec (Offset q) (len oldData)) as [Hin | Hout].
    + rewrite (apply_step_INSERT_from oldData q) by (auto; lia).
      cbn [bind]. replace (Z.max (Offset p) (Offset q)) with (Offset q) by lia.
      rewrite apply_finish_between by lia.
      now rewrite <- !app_assoc.
    + rewrite (apply_step_skips oldData q) by lia. cbn [bind].
      rewrite apply_finish_between by lia.
      now rewrite <- !app_assoc.
  - rewrite apply_step_INSERT_from by (cbn [Op Offset]; auto; lia).
    cbn [bind app Offset Data]. replace (Z.max 0 (Offset p)) with (Offset p) by lia.
    rewrite apply_finish_between by lia.
    now rewrite <- !app_assoc.
Qed.

Lemma merged_INSERT_replay_witness :
  ApplyPatch fox_old
    [mkPatch OP_INSERT 4 3 (bytes_of "red"%string);
     mkPatch OP_INSERT 7 2 (bytes_of "ox"%string)] =
  Ret (bytes_of "The redquiox"%string ++ bytes_of "ck brown fox"%string) /\
  ApplyPatch fox_old
    (OptimizePatches
       [mkPatch OP_INSERT 4 3 (bytes_of "red"%string);
        mkPatch OP_INSERT 7 2 (bytes_of "ox"%string)]) =
  Ret (bytes_of "The redox"%string ++ bytes_of "quick brown fox"%string).
Proof.
  apply (merged_INSERT_replay fox_old
           (mkPatch OP_INSERT 4 3 (bytes_of "red"%string))
           (mkPatch OP_INSERT 7 2 (bytes_of "ox"%string)));
    cbn [Offset Length];
    [reflexivity | vm_compute; split; discriminate | lia | lia | lia
    | unfold maxAlloc; lia].
Defined.

(** One turn of the replay loop moves the cursor forward only, and adds to
    the output at most the bytes of [oldData] the cursor passes and the
    data of the operation. *)
Lemma apply_step_grows oldData p cursor out :
  0 <= cursor -> 0 <= Length p ->
  Z.max cursor (len oldData) + Length p < 2 ^ 63 ->
  exists cursor' out',
    apply_step oldData p (cursor, out) = Ret (cursor', out') /\
    cursor <= cursor' /\
    Z.max cursor' (len oldData) <= Z.max cursor (len oldData) + Length p /\
    len out' + (len oldData - Z.min cursor' (len oldData)) <=
    len out + (len oldData - Z.min cursor (len oldData)) + len (Data p).
Proof.
  intros Hc Hl Hb. pose proof (len_nonneg oldData) as Hn.
  pose proof (len_nonneg (Data p)) as Hd.
  unfold apply_step.
  destruct (Z.gtb_spec (Offset p) (len oldData)) as [Hskip|Hin].
  { do 2 eexists. split; [reflexivity|]. lia. }
  assert (Hgap : exists cursor1 out1,
             (if Offset p >? cursor
              then gap <- slice oldData cursor (Offset p) ;;
                   Ret (Offset p, out ++ gap)
              else Ret (cursor, out)) = Ret (cursor1, out1) /\
             cursor <= cursor1 /\
             Z.max cursor1 (len oldData) = Z.max cursor (len oldData) /\
             len out1 + (len oldData - Z.min cursor1 (len oldData)) =
             len out + (len oldData - Z.min cursor (len oldData))).
  { destruct (Z.gtb_spec (Offset p) cursor) as [Hgt|Hle].
    - rewrite slice_between by lia. cbn [bind].
      do 2 eexists. split; [reflexivity|].
      rewrite len_app, len_between by lia. lia.
    - do 2 eexists. split; [reflexivity|]. lia. }
  destruct Hgap as (cursor1 & out1 & -> & Hc1 & Hmax & Hsize).
  cbn [bind].
  assert (Hw : wrap64 (cursor1 + Length p) = cursor1 + Length p).
  { apply wrap64_id. unfold in_int64. lia. }
  rewrite Hw.
  destruct (Byte.eqb (Op p) OP_INSERT).
  { do 2 eexists. split; [reflexivity|]. rewrite len_app. lia. }
  destruct (Byte.eqb (Op p) OP_REPLACE).
  { do 2 eexists. split; [reflexivity|]. rewrite len_app. lia. }
  destruct (Byte.eqb (Op p) OP_DELETE).
  { do 2 eexists. split; [reflexivity|]. lia. }
  destruct (Byte.eqb (Op p) OP_COPY || Byte.eqb (Op p) OP_MATCH).
  - destruct (Z.gtb_spec (cursor1 + Length p) (len oldData)) as [Hclip|Hfit].
    + destruct (Z.ltb_spec cursor1 (len oldData)) as [Hlt|Hge]; cbn [andb].
      * destruct (Z.gtb_spec (len oldData) cursor1) as [_|Hno]; [|lia].
        rewrite slice_between by lia. cbn [bind].
        do 2 eexists. split; [reflexivity|].
        rewrite len_app, len_between by lia. lia.
      * do 2 eexists. split; [reflexivity|]. lia.
    + destruct (Z.ltb_spec cursor1 (len oldData)) as [Hlt|Hge]; cbn [andb].
      * destruct (Z.gtb_spec (cursor1 + Length p) cursor1) as [Hpos|Hzero].
        -- rewrite slice_between by lia. cbn [bind].
           do 2 eexists. split; [reflexivity|].
           rewrite len_app, len_between by lia. lia.
        -- do 2 eexists. split; [reflexivity|]. lia.
      * do 2 eexists. split; [reflexivity|]. lia.
  - do 2 eexists. split; [reflexivity|]. lia.
Qed.

Lemma carried_bytes_nonneg patches : 0 <= carried_bytes patches.
Proof.
  induction patches as [| p patches IH]; cbn [carried_bytes fold_right]; [lia|].
  fold (carried_bytes patches). pose proof (len_nonneg (Data p)). lia.
Qed.

Lemma apply_loop_grows oldData ctx patches : forall cursor out,
  0 <= cursor ->
  Forall (fun p => 0 <= Length p) patches ->
  Z.max cursor (len oldData) + total_length patches < 2 ^ 63 ->
  exists result,
    apply_loop oldData ctx patches (cursor, out) = Ret result /\
    len result <=
    len out + (len oldData - Z.min cursor (len oldData)) + carried_bytes patches.
Proof.
  induction patches as [| p patches IH]; intros cursor out Hc Hall Hsum;
    pose proof (len_nonneg oldData) as Hn.
  - cbn [apply_loop carried_bytes fold_right]. unfold apply_finish.
    destruct (Z.ltb_spec cursor (len oldData)).
    + rewrite slice_between by lia. cbn [bind]. eexists. split; [reflexivity|].
      rewrite len_app, len_between by lia. lia.
    + eexists. split; [reflexivity|]. lia.
  - inversion Hall as [| ? ? Hp Hps]; subst.
    cbn [total_length fold_right] in Hsum. fold (total_length patches) in Hsum.
    pose proof (total_length_nonneg patches Hps) as Htot.
    pose proof (carried_bytes_nonneg patches) as Hcar.
    cbn [carried_bytes fold_right]. fold (carried_bytes patches).
    cbn [apply_loop].
    destruct (ctx_done ctx).
    { eexists. split; [reflexivity|]. cbn [snd].
      pose proof (len_nonneg (Data p)). lia. }
    destruct (apply_step_grows oldData p cursor out Hc Hp ltac:(lia))
      as (cursor' & out' & Hstep & Hmono & Hmax & Hsize).
    rewrite Hstep. cbn [bind].
    destruct (IH cursor' out' ltac:(lia) Hps ltac:(lia)) as (result & Hres & Hbound).
    exists result. split; [exact Hres | lia].
Qed.

(** X26. The output of a replay is bounded by its inputs: when every
    operation has a non-negative length, [|OLD|] plus the sum of all
    lengths is below [2^63] and the sum of the lengths is at most
    [maxAlloc], the applier returns at most [|OLD|] bytes plus the bytes
    of data the operations carry, whatever the offsets, the kinds and the
    state of the context. *)
Theorem ApplyPatchWithOptions_output_bound
  (oldData : list byte) (patches : list Patch) (options : option ApplyOptions) :
  Forall (fun p => 0 <= Length p) patches ->
  len oldData + total_length patches < 2 ^ 63 ->
  total_length patches <= maxAlloc ->
  exists newData,
    ApplyPatchWithOptions oldData patches options = Ret newData /\
    len newData <= len oldData + carried_bytes patches.
Proof.
  intros Hall Hsum Hfit. pose proof (len_nonneg oldData) as Hn.
  unfold ApplyPatchWithOptions, make_empty_with_cap.
  pose proof (estimated_size_range patches Hall ltac:(lia)) as Hest.
  destruct (Z.ltb_spec (estimated_size patches) 0) as [Hneg|_]; [lia|].
  destruct (Z.gtb_spec (estimated_size patches) maxAlloc) as [Hbig|_]; [lia|].
  cbn [orb bind].
  destruct (apply_loop_grows oldData
              (apply_Context match options with
                             | Some o => o
                             | None => mkApplyOptions DefaultConfig false Background true
                             end)
              patches 0 [] ltac:(lia) Hall ltac:(lia))
    as (result & Hres & Hbound).
  exists result. split; [exact Hres|].
  change (len (@nil byte)) with 0 in Hbound. lia.
Qed.

Lemma ApplyPatchWithOptions_output_bound_witness :
  exists newData,
    ApplyPatchWithOptions fox_old
      [mkPatch OP_COPY 0 10 []; mkPatch OP_REPLACE 10 5 (bytes_of "red"%string)]
      None = Ret newData /\
    len newData <=
    len fox_old +
    carried_bytes
      [mkPatch OP_COPY 0 10 []; mkPatch OP_REPLACE 10 5 (bytes_of "red"%string)].
Proof.
  apply ApplyPatchWithOptions_output_bound.
  - repeat constructor; cbn [Length]; lia.
  - vm_compute. reflexivity.
  - vm_compute. discriminate.
Defined.

(* ================================================================== *)
(** * Further properties: the runs of the reference differ *)

Section ScanRuns.

Variables oldData newData : list byte.
Variable minLen : nat.
Hypothesis minLen_old : (minLen <= length oldData)%nat.
Hypothesis minLen_new : (minLen <= length newData)%nat.

(** The rule of the outer loop with what the inner loops establish: the
    bytes agree, or differ, all along the run, and the run ends at [minLen]
    or where that changes. *)
Variable ctx : Context.
Variable Inv : nat -> list Patch -> Prop.
Variable Post : list Patch -> Prop.

Hypothesis on_cancel : forall i patches, Inv i patches -> Post patches.

Hypothesis on_copy : forall i i' patches,
  Inv i patches -> (i < i' <= minLen)%nat ->
  (forall k, (i <= k < i')%nat ->
     Byte.eqb (at_index oldData k) (at_index newData k) = true) ->
  ((i' < minLen)%nat ->
     Byte.eqb (at_index oldData i') (at_index newData i') = false) ->
  Inv i' (patches ++ [mkPatch OP_COPY (Z.of_nat i) (Z.of_nat i' - Z.of_nat i) []]).

Hypothesis on_replace : forall i i' patches,
  Inv i patches -> (i < i' <= minLen)%nat ->
  (forall k, (i <= k < i')%nat ->
     Byte.eqb (at_index oldData k) (at_index newData k) = false) ->
  ((i' < minLen)%nat ->
     Byte.eqb (at_index oldData i') (at_index newData i') = true) ->
  Inv i' (patches ++ [mkPatch OP_REPLACE (Z.of_nat i) (Z.of_nat i' - Z.of_nat i)
                        (firstn (i' - i) (skipn i newData))]).

Hypothesis on_tail : forall patches tl,
  Inv minLen patches -> diff_tail oldData newData minLen = Ret tl ->
  Post (patches ++ tl).

Lemma diff_loop_rule_runs : forall fuel i patches,
  (minLen - i <= fuel)%nat -> (i <= minLen)%nat -> Inv i patches ->
  exists r, diff_loop fuel ctx oldData newData minLen i patches = Ret r /\ Post r.
Proof.
  induction fuel as [|fuel IH]; intros i patches Hfuel Hi HI.
  - assert (i = minLen) by lia; subst i.
    cbn [diff_loop]. rewrite Nat.ltb_irrefl.
    destruct (diff_tail_returns oldData newData minLen minLen_old minLen_new)
      as (tl & Etl).
    rewrite Etl. cbn [bind]. eauto.
  - cbn [diff_loop].
    destruct (Nat.ltb_spec i minLen) as [Hlt|Hge].
    + destruct (ctx_done ctx) eqn:Ectx; [eauto|].
      destruct (Byte.eqb (at_index oldData i) (at_index newData i)) eqn:Eb.
      * pose proof (advance_progress oldData newData minLen true i Hlt Eb) as Hprog.
        destruct (advance_spec oldData newData minLen true (minLen - i) i
                    ltac:(lia) ltac:(lia)) as (Hr & Hrun & Hstop).
        apply IH; [lia|lia|].
        apply on_copy; [assumption|lia|exact Hrun|exact Hstop].
      * pose proof (advance_progress oldData newData minLen false i Hlt Eb) as Hprog.
        destruct (advance_spec oldData newData minLen false (minLen - i) i
                    ltac:(lia) ltac:(lia)) as (Hr & Hrun & Hstop).
        rewrite slice_ok by lia. cbn [bind].
        apply IH; [lia|lia|].
        apply on_replace; [assumption|lia|exact Hrun|exact Hstop].
    + assert (i = minLen) by lia; subst i.
      destruct (diff_tail_returns oldData newData minLen minLen_old minLen_new)
        as (tl & Etl).
      rewrite Etl. cbn [bind]. eauto.
Qed.

End ScanRuns.

Lemma last_op_snoc patches p : last_op (patches ++ [p]) = Some (Op p).
Proof. unfold last_op. now rewrite rev_unit. Qed.

Lemma last_op_cons p q rest : last_op (p :: q :: rest) = last_op (q :: rest).
Proof.
  unfold last_op. cbn [rev].
  destruct (rev rest) as [| x t]; reflexivity.
Qed.

Lemma alternating_snoc patches : forall q,
  alternating patches ->
  (forall op, last_op patches = Some op -> op <> Op q) ->
  alternating (patches ++ [q]).
Proof.
  induction patches as [| p [| p' rest] IH]; intros q Ha Hlast.
  - exact I.
  - cbn [app alternating]. split; [|exact I].
    apply Hlast. reflexivity.
  - destruct Ha as (Hpp & Ha).
    change ((p :: p' :: rest) ++ [q]) with (p :: (p' :: rest) ++ [q]).
    cbn [app alternating]. split; [exact Hpp|].
    apply (IH q Ha). intros op Hop. apply Hlast.
    now rewrite last_op_cons.
Qed.

Lemma alternating_no_merge patches :
  alternating patches -> no_merge patches = true.
Proof.
  induction patches as [| p [| q rest] IH]; intros Ha; try reflexivity.
  destruct Ha as (Hpq & Ha).
  rewrite no_merge_cons, (IH Ha), andb_true_r.
  assert (Hne : Byte.eqb (Op p) (Op q) = false).
  { destruct (Byte.eqb (Op p) (Op q)) eqn:E; [|reflexivity].
    apply Byte.byte_dec_bl in E. contradiction. }
  unfold merge_insert, merge_copy.
  destruct (Byte.eqb (Op p) OP_INSERT) eqn:E1, (Byte.eqb (Op q) OP_INSERT) eqn:E2;
    cbn [andb negb];
    try (apply Byte.byte_dec_bl in E1; apply Byte.byte_dec_bl in E2; congruence).
  all: destruct (Byte.eqb (Op p) OP_COPY) eqn:E3, (Byte.eqb (Op q) OP_COPY) eqn:E4;
    cbn [andb negb]; try reflexivity;
    apply Byte.byte_dec_bl in E3; apply Byte.byte_dec_bl in E4; congruence.
Qed.

Lemma sequentialDiff_runs oldData newData options :
  exists patches,
    sequentialDiff oldData newData options = Ret patches /\
    alternating patches /\ Forall (run_exact oldData newData) patches.
Proof.
  unfold sequentialDiff. rewrite sequentialDiff_minLen.
  set (minLen := Nat.min (length oldData) (length newData)).
  apply (diff_loop_rule_runs oldData newData minLen ltac:(lia) ltac:(lia)
           (diff_Context options)
           (runs_inv oldData newData minLen)
           (fun patches =>
              alternating patches /\ Forall (run_exact oldData newData) patches)).
  - intros i patches (Ha & Hr & _). split; assumption.
  - intros i i' patches (Ha & Hr & Hlast) Hi Hrun Hstop.
    split; [|split].
    + apply alternating_snoc; [exact Ha|].
      intros op Hop. cbn [Op].
      destruct (Hlast op Hop) as [(-> & Hdiff) | (-> & _)]; [|discriminate].
      specialize (Hdiff ltac:(lia)). rewrite (Hrun i) in Hdiff by lia.
      discriminate Hdiff.
    + apply Forall_app. split; [exact Hr|]. constructor; [|constructor].
      intros k Hk. cbn [Op Offset Length] in *. split; [|discriminate].
      intros _. apply Byte.byte_dec_bl. apply Hrun. lia.
    + intros op Hop. rewrite last_op_snoc in Hop. injection Hop as <-.
      left. split; [reflexivity | exact Hstop].
  - intros i i' patches (Ha & Hr & Hlast) Hi Hrun Hstop.
    split; [|split].
    + apply alternating_snoc; [exact Ha|].
      intros op Hop. cbn [Op].
      destruct (Hlast op Hop) as [(-> & _) | (-> & Hsame)]; [discriminate|].
      specialize (Hsame ltac:(lia)). rewrite (Hrun i) in Hsame by lia.
      discriminate Hsame.
    + apply Forall_app. split; [exact Hr|]. constructor; [|constructor].
      intros k Hk. cbn [Op Offset Length] in *. split; [discriminate|].
      intros _ E. specialize (Hrun k ltac:(lia)). rewrite E in Hrun.
      destruct (at_index newData k); discriminate Hrun.
    + intros op Hop. rewrite last_op_snoc in Hop. injection Hop as <-.
      right. split; [reflexivity | exact Hstop].
  - intros patches tl (Ha & Hr & Hlast) Htl.
    unfold diff_tail in Htl.
    destruct (minLen <? length newData)%nat.
    + unfold len in Htl. rewrite slice_ok in Htl by lia. cbn [bind] in Htl.
      injection Htl as <-. split.
      * apply alternating_snoc; [exact Ha|].
        intros op Hop. cbn [Op].
        destruct (Hlast op Hop) as [(-> & _) | (-> & _)]; discriminate.
      * apply Forall_app. split; [exact Hr|]. constructor; [|constructor].
        intros k Hk. cbn [Op]. split; discriminate.
    + destruct (minLen <? length oldData)%nat.
      * injection Htl as <-. split.
        -- apply alternating_snoc; [exact Ha|].
           intros op Hop. cbn [Op].
           destruct (Hlast op Hop) as [(-> & _) | (-> & _)]; discriminate.
        -- apply Forall_app. split; [exact Hr|]. constructor; [|constructor].
           intros k Hk. cbn [Op]. split; discriminate.
      * injection Htl as <-. rewrite app_nil_r. split; assumption.
  - lia.
  - lia.
  - split; [exact I|]. split; [constructor|].
    intros op Hop. discriminate Hop.
Qed.

(** X27. The reference differ emits exact runs of alternating kind: for
    every pair of inputs and every context it returns a list in which no
    two neighbours have the same kind, every index in the range of a COPY
    is one where the two inputs agree, and every index in the range of a
    REPLACE is one where they differ.  No unchanged byte is sent inside a
    REPLACE, and no run is split. *)
Theorem sequentialDiff_exact_runs
  (oldData newData : list byte) (options : DiffOptions) :
  exists patches,
    sequentialDiff oldData newData options = Ret patches /\
    alternating patches /\ Forall (run_exact oldData newData) patches.
Proof. apply sequentialDiff_runs. Qed.

(** X28. Optimizing a reference diff changes nothing: the list the
    reference differ returns is a fixed point of [OptimizePatches] and of
    the optimizer of the streaming strategy. *)
Theorem OptimizePatches_fixes_reference_diff
  (oldData newData : list byte) (options : DiffOptions) :
  exists patches,
    sequentialDiff oldData newData options = Ret patches /\
    OptimizePatches patches = patches /\
    optimizePatches patches = patches.
Proof.
  destruct (sequentialDiff_runs oldData newData options) as (patches & Hrun & Ha & _).
  exists patches. split; [exact Hrun|]. split.
  - pose proof (alternating_no_merge patches Ha) as Hn.
    unfold OptimizePatches.
    destruct (length patches <=? 1)%nat; [reflexivity|].
    destruct patches as [| h t]; [reflexivity|].
    now apply no_merge_fixed.
  - clear Hrun. unfold optimizePatches.
    destruct (length patches <=? 1)%nat; [reflexivity|].
    destruct patches as [| h t]; [reflexivity|].
    revert h Ha. induction t as [| q t IH]; intros h Ha; [reflexivity|].
    destruct Ha as (Hne & Ha).
    cbn [optimize_onto]. unfold canMergePatches.
    destruct (Byte.eqb (Op h) (Op q)) eqn:E.
    + apply Byte.byte_dec_bl in E. contradiction.
    + cbn [andb]. f_equal. now apply IH.
Qed.
